(** * A shallow embedding of the Kyber-style KEM of this repository

    The Python sources under [kyber/] are modelled function by function:

    - [kyber/symmetric.py]: the wrappers around [hashlib.shake_128],
                            [parse_hash_g_output] and [cbd];
    - [kyber/params.py]:    the three parameter sets;
    - [kyber/poly.py]:      the class [Polynomial] and its arithmetic;
    - [kyber/ntt.py]:       the table [ZETAS], [ntt] and [invntt];
    - [kyber/pke.py]:       key generation, encryption, decryption and
                            the serialisation helpers;
    - [kyber/kem.py]:       the class [KyberKEM];
    - [kyber/__init__.py]:  the constructors [Kyber512], [Kyber768] and
                            [Kyber1024].

    The functions on the path of decapsulation are given a second time, in
    the module [Traced], with a log of the hashing, sampling and
    multiplying they do.

    Python integers are [Z], [bytes] objects are lists of [byte], Python
    exceptions are the constructors of [exn] and a computation that may
    raise returns a [result].  The operating system's entropy pool read by
    [os.urandom] is an explicit stream of bytes threaded through the
    functions that draw from it.  Sizes that the sources only ever use as
    counts (the fields k, n, eta1, eta2, du, dv of a parameter set, the
    degree bound of a polynomial, digest lengths) are [nat]. *)

From Stdlib Require Import ZArith List Lia Bool.
From Stdlib Require Import Strings.Byte.
From stdpp Require Import base list.
Import ListNotations.
Local Open Scope Z_scope.

(** ** Python values, exceptions and loops *)

Abbreviation bytes := (list byte).

Definition Z_of_byte (b : byte) : Z := Z.of_N (Byte.to_N b).

(** The byte holding [z mod 256]: what [bytearray.append(z & 0xff)] stores. *)
Definition byte_of_Z (z : Z) : byte :=
  match Byte.of_N (Z.to_N (z mod 256)) with
  | Some b => b
  | None => x00
  end.

Inductive exn : Type :=
| IndexError
| ValueError
| OverflowError
| ZeroDivisionError.

Inductive result (A : Type) : Type :=
| Ok (a : A)
| Raise (e : exn).
Arguments Ok {A} a.
Arguments Raise {A} e.

Definition bind {A B} (m : result A) (f : A -> result B) : result B :=
  match m with
  | Ok a => f a
  | Raise e => Raise e
  end.

Notation "x <- m ;; f" := (bind m (fun x => f))
  (at level 62, m at next level, right associativity).

(** [for x in xs: s = body(x, s)] *)
Fixpoint for_ {A S} (xs : list A) (body : A -> S -> result S) (s : S) : result S :=
  match xs with
  | [] => Ok s
  | x :: rest => s' <- body x s ;; for_ rest body s'
  end.

(** [[f(x) for x in xs]] *)
Fixpoint mapM {A B} (f : A -> result B) (xs : list A) : result (list B) :=
  match xs with
  | [] => Ok []
  | x :: rest => y <- f x ;; ys <- mapM f rest ;; Ok (y :: ys)
  end.

(** [range(n)], [range(a, b)] and [range(a, b, step)] for a positive step. *)
Definition range (n : nat) : list nat := seq 0 n.
Definition range2 (a b : nat) : list nat := seq a (b - a).
Definition range3 (a b step : nat) : list nat :=
  map (fun i => (a + i * step)%nat) (seq 0 ((b - a + step - 1) / step)).

(** [l[i]] for an index that is never negative. *)
Definition item {A} (l : list A) (i : nat) : result A :=
  match l !! i with
  | Some x => Ok x
  | None => Raise IndexError
  end.

(** [l[i]] for an arbitrary integer: a negative index counts from the end. *)
Definition getitem {A} (l : list A) (i : Z) : result A :=
  let j := if i <? 0 then i + Z.of_nat (length l) else i in
  if j <? 0 then Raise IndexError else item l (Z.to_nat j).

(** [l[a:b]] for [0 <= a]. *)
Definition slice {A} (l : list A) (a b : nat) : list A := take (b - a) (drop a l).

(** [a % q]: floored, the sign of the divisor, and an exception on zero. *)
Definition py_mod (a q : Z) : result Z :=
  if q =? 0 then Raise ZeroDivisionError else Ok (a mod q).

(** [int.from_bytes(bs, 'little')] and its [signed=True] variant. *)
Fixpoint from_bytes_little (bs : bytes) : Z :=
  match bs with
  | [] => 0
  | b :: rest => Z_of_byte b + 256 * from_bytes_little rest
  end.

Definition from_bytes_little_signed (bs : bytes) : Z :=
  let v := from_bytes_little bs in
  let w := 8 * Z.of_nat (length bs) in
  if (0 <? w) && (2 ^ (w - 1) <=? v) then v - 2 ^ w else v.

(** [x.to_bytes(len, 'little')] and its [signed=True] variant. *)
Fixpoint le_bytes (len : nat) (x : Z) : bytes :=
  match len with
  | O => []
  | S k => byte_of_Z x :: le_bytes k (x / 256)
  end.

Definition to_bytes_little (len : nat) (x : Z) : result bytes :=
  if (0 <=? x) && (x <? 2 ^ (8 * Z.of_nat len)) then Ok (le_bytes len x)
  else Raise OverflowError.

Definition to_bytes_little_signed (len : nat) (x : Z) : result bytes :=
  let w := 8 * Z.of_nat len in
  if (- 2 ^ (w - 1) <=? x) && (x <? 2 ^ (w - 1)) then Ok (le_bytes len x)
  else Raise OverflowError.

(** [bytes([i, j, ...])]: every entry must be in [range(256)]. *)
Definition bytes_of_ints (xs : list nat) : result bytes :=
  mapM (fun i => if (i <? 256)%nat then Ok (byte_of_Z (Z.of_nat i))
                 else Raise ValueError) xs.

Definition bytes_eqb (a b : bytes) : bool :=
  (length a =? length b)%nat && forallb (fun p => Byte.eqb (fst p) (snd p)) (zip a b).

(** ** The entropy pool

    [os.urandom(len)] hands out the next [len] bytes of the pool. *)

Definition entropy := nat -> byte.

Definition M (A : Type) : Type := entropy -> result (A * entropy).

Definition ret {A} (a : A) : M A := fun s => Ok (a, s).

Definition bindM {A B} (m : M A) (f : A -> M B) : M B :=
  fun s => match m s with
           | Ok (a, s') => f a s'
           | Raise e => Raise e
           end.

Definition lift {A} (r : result A) : M A :=
  fun s => match r with
           | Ok a => Ok (a, s)
           | Raise e => Raise e
           end.

Notation "x <~ m ;; f" := (bindM m (fun x => f))
  (at level 62, m at next level, right associativity).

Fixpoint forM {A S} (xs : list A) (body : A -> S -> M S) (s : S) : M S :=
  match xs with
  | [] => ret s
  | x :: rest => s' <~ body x s ;; forM rest body s'
  end.

Fixpoint mapMM {A B} (f : A -> M B) (xs : list A) : M (list B) :=
  match xs with
  | [] => ret []
  | x :: rest => y <~ f x ;; ys <~ mapMM f rest ;; ret (y :: ys)
  end.

Definition urandom (len : nat) : M bytes :=
  fun s => Ok (map s (seq 0 len), fun i => s (len + i)%nat).

(** ** [hashlib.shake_128]

    The sponge is the standard library's, not the repository's; it is
    modelled after FIPS 202 (Keccak-f[1600], rate 168 bytes, domain
    suffix 0x1f) so that the functions built on it can be evaluated. *)

Module Keccak.

Definition mask64 : Z := 2 ^ 64 - 1.

Definition rot64 (x r : Z) : Z :=
  Z.land (Z.lor (Z.shiftl x r) (Z.shiftr x (64 - r))) mask64.

(** Lane (x, y) of the state is entry [x + 5 * y]. *)
Definition lane (st : list Z) (i : nat) : Z := nth i st 0.

Definition rotation_offsets : list Z :=
  [ 0;  1; 62; 28; 27;
   36; 44;  6; 55; 20;
    3; 10; 43; 25; 39;
   41; 45; 15; 21;  8;
   18;  2; 61; 56; 14].

Definition round_constants : list Z :=
  [0x0000000000000001; 0x0000000000008082; 0x800000000000808A;
   0x8000000080008000; 0x000000000000808B; 0x0000000080000001;
   0x8000000080008081; 0x8000000000008009; 0x000000000000008A;
   0x0000000000000088; 0x0000000080008009; 0x000000008000000A;
   0x000000008000808B; 0x800000000000008B; 0x8000000000008089;
   0x8000000000008003; 0x8000000000008002; 0x8000000000000080;
   0x000000000000800A; 0x800000008000000A; 0x8000000080008081;
   0x8000000000008080; 0x0000000080000001; 0x8000000080008008].

Definition lanes : list nat := seq 0 25.

Definition theta (a : list Z) : list Z :=
  let c := map (fun x => Z.lxor (lane a x) (Z.lxor (lane a (x + 5))
             (Z.lxor (lane a (x + 10)) (Z.lxor (lane a (x + 15)) (lane a (x + 20))))))
             (seq 0 5) in
  let d := map (fun x => Z.lxor (lane c ((x + 4) mod 5))
                                (rot64 (lane c ((x + 1) mod 5)) 1))
             (seq 0 5) in
  map (fun i => Z.lxor (lane a i) (lane d (i mod 5))) lanes.

(** Lane (x, y) moves to (y, 2x + 3y): entry [t = X + 5Y] of the result
    comes from the lane at x = X + 3Y mod 5, y = X. *)
Definition rho_pi (a : list Z) : list Z :=
  map (fun t => let X := (t mod 5)%nat in
                let Y := (t / 5)%nat in
                let s := (((X + 3 * Y) mod 5) + 5 * X)%nat in
                rot64 (lane a s) (nth s rotation_offsets 0)) lanes.

Definition chi (b : list Z) : list Z :=
  map (fun t => let x := (t mod 5)%nat in
                let y5 := (5 * (t / 5))%nat in
                Z.lxor (lane b t)
                  (Z.land (Z.lxor (lane b ((x + 1) mod 5 + y5)) mask64)
                          (lane b ((x + 2) mod 5 + y5)))) lanes.

Definition iota (rc : Z) (a : list Z) : list Z :=
  match a with
  | [] => []
  | a0 :: rest => Z.lxor a0 rc :: rest
  end.

Definition round (a : list Z) (rc : Z) : list Z :=
  iota rc (chi (rho_pi (theta a))).

Definition keccak_f (a : list Z) : list Z := fold_left round round_constants a.

Definition rate : nat := 168.

Definition pad (msg : bytes) : bytes :=
  let r := (rate - length msg mod rate)%nat in
  if (r =? 1)%nat then msg ++ [x9f]
  else msg ++ [x1f] ++ repeat x00 (r - 2) ++ [x80].

Definition xor_block (st : list Z) (blk : bytes) : list Z :=
  map (fun i => Z.lxor (lane st i)
                       (from_bytes_little (take 8 (drop (8 * i) blk)))) lanes.

Fixpoint absorb (nblocks : nat) (st : list Z) (m : bytes) : list Z :=
  match nblocks with
  | O => st
  | S k => absorb k (keccak_f (xor_block st (take rate m))) (drop rate m)
  end.

Definition out_byte (st : list Z) (i : nat) : byte :=
  byte_of_Z (Z.shiftr (lane st (i / 8)) (8 * Z.of_nat (i mod 8))).

Fixpoint squeeze (nblocks : nat) (st : list Z) : bytes :=
  match nblocks with
  | O => []
  | S k => map (out_byte st) (seq 0 rate) ++ squeeze k (keccak_f st)
  end.

(** [shake_128(msg).digest(outlen)] *)
Definition shake_128 (msg : bytes) (outlen : nat) : bytes :=
  let p := pad msg in
  let st := absorb (length p / rate) (repeat 0 25) p in
  take outlen (squeeze (outlen / rate + 1) st).

End Keccak.

(** ** kyber/symmetric.py *)

Definition hash_g (msg : bytes) : bytes := Keccak.shake_128 msg 64.
Definition hash_h (msg : bytes) : bytes := Keccak.shake_128 msg 32.
Definition kdf (msg : bytes) : bytes := Keccak.shake_128 msg 32.
Definition prf (seed : bytes) (length : nat) : bytes := Keccak.shake_128 seed length.
Definition xof (seed : bytes) (length : nat) : bytes := Keccak.shake_128 seed length.

Definition parse_hash_g_output (hash_output : bytes) : result (bytes * bytes) :=
  if negb (length hash_output =? 64)%nat then Raise ValueError
  else Ok (take 32 hash_output, drop 32 hash_output).

(** [cbd(eta, buf, n)]: the two sums run over generators, so the first
    byte that is missing stops them with an [IndexError]. *)
Definition cbd (eta : nat) (buf : bytes) (n : nat) : result (list Z) :=
  if negb (length buf =? eta * n / 4)%nat then Raise ValueError
  else
    mapM (fun i =>
            a <- mapM (fun j => x <- item buf (4 * i + j / 8) ;;
                                Ok (Z.land (Z.shiftr (Z_of_byte x) (Z.of_nat (j mod 8))) 1))
                      (range eta) ;;
            b <- mapM (fun j => x <- item buf (4 * i + j / 8 + eta / 2) ;;
                                Ok (Z.land (Z.shiftr (Z_of_byte x) (Z.of_nat (j mod 8))) 1))
                      (range eta) ;;
            Ok (fold_left Z.add a 0 - fold_left Z.add b 0))
         (range n).

Definition generate_random_bytes (length : nat) : M bytes := urandom length.

(** ** kyber/params.py *)

Record KyberParams : Type := {
  k : nat;
  n : nat;
  q : Z;
  eta1 : nat;
  eta2 : nat;
  du : nat;
  dv : nat
}.

Definition KYBER512 : KyberParams :=
  {| k := 2; n := 256; q := 3329; eta1 := 3; eta2 := 2; du := 10; dv := 4 |}.
Definition KYBER768 : KyberParams :=
  {| k := 3; n := 256; q := 3329; eta1 := 2; eta2 := 2; du := 10; dv := 4 |}.
Definition KYBER1024 : KyberParams :=
  {| k := 4; n := 256; q := 3329; eta1 := 2; eta2 := 2; du := 11; dv := 5 |}.

Definition valid_params (params : KyberParams) : Prop :=
  params = KYBER512 \/ params = KYBER768 \/ params = KYBER1024.

(** ** kyber/poly.py

    A [Polynomial] object has the three attributes [coeffs], [n] and [q];
    nothing ties the length of [coeffs] to [n]. *)

Module Polynomial.

Record t : Type := mk { coeffs : list Z; n : nat; q : Z }.

(** [Polynomial(coeffs, n, q)]: [self.coeffs = coeffs or [0] * n], and an
    empty list is falsy. *)
Definition __init__ (coeffs : list Z) (n : nat) (q : Z) : t :=
  mk (match coeffs with [] => repeat 0 n | _ :: _ => coeffs end) n q.

(** [Polynomial(coeffs)] with the defaults [n=256, q=3329]. *)
Definition new (coeffs : list Z) : t := __init__ coeffs 256 3329.

Definition same_ring (self other : t) : bool :=
  (n self =? n other)%nat && (q self =? q other).

Definition __add__ (self other : t) : result t :=
  if negb (same_ring self other) then Raise ValueError
  else
    cs <- mapM (fun ab => py_mod (fst ab + snd ab) (q self))
               (zip (coeffs self) (coeffs other)) ;;
    Ok (__init__ cs (n self) (q self)).

Definition __sub__ (self other : t) : result t :=
  if negb (same_ring self other) then Raise ValueError
  else
    cs <- mapM (fun ab => py_mod (fst ab - snd ab) (q self))
               (zip (coeffs self) (coeffs other)) ;;
    Ok (__init__ cs (n self) (q self)).

(** One pass of the inner schoolbook loop:
    [res[i + j] = (res[i + j] + self.coeffs[i] * other.coeffs[j]) % self.q].
    The store hits an index that was just read, so it cannot fail. *)
Definition mul_step (self other : t) (i j : nat) (res : list Z) : result (list Z) :=
  r <- item res (i + j) ;;
  a <- item (coeffs self) i ;;
  b <- item (coeffs other) j ;;
  v <- py_mod (r + a * b) (q self) ;;
  Ok (<[(i + j)%nat := v]> res).

(** [res[i - self.n] = (res[i - self.n] - res[i]) % self.q] *)
Definition reduce_step (self : t) (i : nat) (res : list Z) : result (list Z) :=
  lo <- item res (i - n self) ;;
  hi <- item res i ;;
  v <- py_mod (lo - hi) (q self) ;;
  Ok (<[(i - n self)%nat := v]> res).

Definition __mul__ (self other : t) : result t :=
  if negb (same_ring self other) then Raise ValueError
  else
    res <- for_ (range (n self))
             (fun i => for_ (range (n self)) (mul_step self other i))
             (repeat 0 (2 * n self)) ;;
    res <- for_ (range2 (n self) (2 * n self)) (reduce_step self) res ;;
    Ok (__init__ (take (n self) res) (n self) (q self)).

(** [self % modulus]: the result carries [modulus] as its [q]. *)
Definition __mod__ (self : t) (modulus : Z) : result t :=
  cs <- mapM (fun c => py_mod c modulus) (coeffs self) ;;
  Ok (__init__ cs (n self) modulus).

Definition copy (self : t) : t := __init__ (coeffs self) (n self) (q self).

End Polynomial.

(** ** kyber/ntt.py

    The module has a [Polynomial] class of its own with the same three
    attributes; its constructor keeps the list it is given
    ([coeffs if coeffs is not None else [0] * n]) and [ntt], [invntt] call it
    as [Polynomial(res, q=poly.q)], so [n] is the default 256. *)

Definition ntt_Polynomial (res : list Z) (q : Z) : Polynomial.t :=
  Polynomial.mk res 256 q.

Definition ZETAS : list Z :=
  [2285; 2571; 2970; 1812; 1493; 1422; 287; 202; 3158; 622; 1577; 182; 962;
   2127; 1855; 1468; 573; 2004; 264; 383; 2500; 1458; 1727; 3199; 2648; 1017;
   732; 608; 1787; 411; 3124; 1758; 1223; 652; 2777; 1015; 2036; 1491; 3047;
   1785; 516; 3321; 3009; 2663; 1711; 2167; 126; 1469; 2476; 3239; 3058; 830;
   107; 1908; 3082; 2378; 2931; 961; 1821; 2604; 448; 2264; 677; 2054; 2226;
   430; 555; 843; 2078; 871; 1550; 105; 422; 587; 177; 3094; 3038; 2869; 1574;
   1653; 3083; 778; 1159; 3182; 2552; 1483; 2727; 1119; 1739; 644; 2457; 349;
   418; 329; 3173; 3254; 817; 1097; 603; 610; 1322; 2044; 1864; 384; 2114; 3193;
   1218; 1994; 2455; 220; 2142; 1670; 2144; 1799; 2051; 794; 1819; 2475; 2459;
   478; 3221; 3021; 996; 991; 958; 1869; 1522; 1628].

(** The butterfly of [ntt]:
      [temp = (zeta * res[j + distance]) % poly.q]
      [res[j + distance] = (res[j] - temp) % poly.q]
      [res[j] = (res[j] + temp) % poly.q] *)
Definition ntt_butterfly (q zeta : Z) (distance j : nat) (res : list Z)
  : result (list Z) :=
  hi <- item res (j + distance) ;;
  temp <- py_mod (zeta * hi) q ;;
  lo <- item res j ;;
  v <- py_mod (lo - temp) q ;;
  let res := <[(j + distance)%nat := v]> res in
  lo <- item res j ;;
  v <- py_mod (lo + temp) q ;;
  Ok (<[j := v]> res).

(** The body of [for start in range(0, 256, distance << 1)]; the state is
    the pair of [res] and the table index [k]. *)
Definition ntt_group (q : Z) (distance start : nat) (st : list Z * Z)
  : result (list Z * Z) :=
  zeta <- getitem ZETAS (snd st) ;;
  let k := snd st + 1 in
  res <- for_ (range2 start (start + distance)) (ntt_butterfly q zeta distance) (fst st) ;;
  Ok (res, k).

(** The body of [for level in range(7)]. *)
Definition ntt_level (q : Z) (level : nat) (st : list Z * Z) : result (list Z * Z) :=
  let distance := Nat.shiftl 1 level in
  for_ (range3 0 256 (Nat.shiftl distance 1)) (ntt_group q distance) st.

Definition ntt (poly : Polynomial.t) : result Polynomial.t :=
  if negb (length (Polynomial.coeffs poly) =? 256)%nat then Raise ValueError
  else
    st <- for_ (range 7) (ntt_level (Polynomial.q poly)) (Polynomial.coeffs poly, 0) ;;
    Ok (ntt_Polynomial (fst st) (Polynomial.q poly)).

(** The butterfly of [invntt]:
      [temp = res[j]]
      [res[j] = (temp + res[j + distance]) % poly.q]
      [res[j + distance] = ((temp - res[j + distance]) * zeta) % poly.q] *)
Definition invntt_butterfly (q zeta : Z) (distance j : nat) (res : list Z)
  : result (list Z) :=
  temp <- item res j ;;
  hi <- item res (j + distance) ;;
  v <- py_mod (temp + hi) q ;;
  let res := <[j := v]> res in
  hi <- item res (j + distance) ;;
  v <- py_mod ((temp - hi) * zeta) q ;;
  Ok (<[(j + distance)%nat := v]> res).

Definition invntt_group (q : Z) (distance start : nat) (st : list Z * Z)
  : result (list Z * Z) :=
  zeta <- getitem ZETAS (snd st) ;;
  let k := snd st - 1 in
  res <- for_ (range2 start (start + distance)) (invntt_butterfly q zeta distance) (fst st) ;;
  Ok (res, k).

Definition invntt_level (q : Z) (level : nat) (st : list Z * Z) : result (list Z * Z) :=
  let distance := Nat.shiftl 1 level in
  for_ (range3 0 256 (Nat.shiftl distance 1)) (invntt_group q distance) st.

(** [range(6, -1, -1)] is 6, 5, ..., 0; [f = 1441] scales at the end. *)
Definition invntt (poly : Polynomial.t) : result Polynomial.t :=
  st <- for_ (rev (range 7)) (invntt_level (Polynomial.q poly))
          (Polynomial.coeffs poly, 127) ;;
  res <- mapM (fun x => py_mod (x * 1441) (Polynomial.q poly)) (fst st) ;;
  Ok (ntt_Polynomial res (Polynomial.q poly)).

(** The methods [to_ntt] and [to_normal] of the class of kyber/poly.py hand
    the object to the two functions above. *)
Definition to_ntt (self : Polynomial.t) : result Polynomial.t := ntt self.

Definition to_normal (self : Polynomial.t) : result Polynomial.t := invntt self.

(** ** kyber/pke.py *)

(** [a // b] *)
Definition py_div (a b : Z) : result Z :=
  if b =? 0 then Raise ZeroDivisionError else Ok (a / b).

(** [Polynomial([0] * params.n)] *)
Definition zero_poly (params : KyberParams) : Polynomial.t :=
  Polynomial.new (repeat 0 (n params)).

(** One entry of the matrix: the stream [prf(rho + bytes([i, j]), n * 3)]
    is cut into [n] slices of three bytes; each is read as a little-endian
    integer and reduced modulo [q]. *)
Definition matrix_entry (rho : bytes) (params : KyberParams) (i j : nat)
  : result Polynomial.t :=
  ij <- bytes_of_ints [i; j] ;;
  let seed := rho ++ ij in
  let stream := prf seed (n params * 3) in
  coeffs <- mapM (fun c => py_mod (from_bytes_little (slice stream (3 * c) (3 * c + 3)))
                                  (q params))
                 (range (n params)) ;;
  Ok (Polynomial.new coeffs).

Definition generate_matrix_A (rho : bytes) (params : KyberParams)
  : result (list (list Polynomial.t)) :=
  mapM (fun i => mapM (fun j => matrix_entry rho params i j) (range (k params)))
       (range (k params)).

(** [sum(1 if os.urandom(1)[0] < 128 else -1 for _ in range(eta))] *)
Definition noise_coeff (eta : nat) : M Z :=
  forM (range eta)
       (fun _ acc =>
          b <~ urandom 1 ;;
          b0 <~ lift (item b 0) ;;
          ret (acc + (if Z_of_byte b0 <? 128 then 1 else -1)))
       0.

Definition sample_noise_poly (eta n : nat) : M Polynomial.t :=
  coeffs <~ mapMM (fun _ => noise_coeff eta) (range n) ;;
  ret (Polynomial.new coeffs).

Definition sample_poly_from_seed (seed : bytes) (eta n : nat) : Polynomial.t :=
  let stream := prf seed (n * eta) in
  Polynomial.new
    (map (fun i =>
            fold_left Z.add
              (map (fun bit => if Z_of_byte bit <? 128 then 1 else -1)
                   (slice stream (i * eta) ((i + 1) * eta)))
              0)
         (range n)).

(** *** Serialisation

    The cursor [pos] of the decoders advances by a fixed width per
    coefficient, so at coefficient [b] of polynomial [a] it is the width
    times [a * n + b]. *)

Definition encode_pk (t : list Polynomial.t) (rho : bytes) (params : KyberParams)
  : result bytes :=
  pk <- for_ t (fun poly pk =>
                  for_ (Polynomial.coeffs poly)
                       (fun coeff pk => bs <- to_bytes_little 3 coeff ;; Ok (pk ++ bs))
                       pk)
             [] ;;
  Ok (pk ++ rho).

Definition decode_pk (pk : bytes) (params : KyberParams) : list Polynomial.t * bytes :=
  let t := map (fun a =>
                  Polynomial.new
                    (map (fun b => let pos := (3 * (a * n params + b))%nat in
                                   from_bytes_little (slice pk pos (pos + 3)))
                         (range (n params))))
               (range (k params)) in
  let pos := (3 * (k params * n params))%nat in
  (t, slice pk pos (pos + 32)).

Definition encode_sk (s : list Polynomial.t) (params : KyberParams) : result bytes :=
  for_ s (fun poly sk =>
            for_ (Polynomial.coeffs poly)
                 (fun coeff sk => bs <- to_bytes_little_signed 2 coeff ;; Ok (sk ++ bs))
                 sk)
       [].

Definition decode_sk (sk : bytes) (params : KyberParams) : list Polynomial.t :=
  map (fun a =>
         Polynomial.new
           (map (fun b => let pos := (2 * (a * n params + b))%nat in
                          from_bytes_little_signed (slice sk pos (pos + 2)))
                (range (n params))))
      (range (k params)).

(** [((coeff << d) + q // 2) // q] *)
Definition compress_coeff (d : nat) (q coeff : Z) : result Z :=
  py_div (Z.shiftl coeff (Z.of_nat d) + q / 2) q.

(** [((compressed * q) + (1 << (d - 1))) >> d]; a negative shift count is
    a [ValueError]. *)
Definition decompress_coeff (d : nat) (q compressed : Z) : result Z :=
  if (d =? 0)%nat then Raise ValueError
  else Ok (Z.shiftr (compressed * q + Z.shiftl 1 (Z.of_nat d - 1)) (Z.of_nat d)).

(** The bytes appended for one coefficient: the low byte, and the next one
    when [d > 8]. *)
Definition compressed_bytes (d : nat) (compressed : Z) : bytes :=
  byte_of_Z (Z.land compressed 255)
  :: (if (8 <? d)%nat then [byte_of_Z (Z.land (Z.shiftr compressed 8) 255)] else []).

Definition compress_poly (d : nat) (q : Z) (poly : Polynomial.t) (c : bytes)
  : result bytes :=
  for_ (Polynomial.coeffs poly)
       (fun coeff c => compressed <- compress_coeff d q coeff ;;
                       Ok (c ++ compressed_bytes d compressed))
       c.

Definition compress_ciphertext (u : list Polynomial.t) (v : Polynomial.t)
           (params : KyberParams) : result bytes :=
  c <- for_ u (compress_poly (du params) (q params)) [] ;;
  compress_poly (dv params) (q params) v c.

(** Bytes read per coefficient by [decompress_ciphertext]. *)
Definition width (d : nat) : nat := if (d <=? 8)%nat then 1 else 2.

(** The coefficient read at cursor [pos]. *)
Definition read_coeff (d : nat) (q : Z) (c : bytes) (pos : nat) : result Z :=
  compressed <-
    (if (d <=? 8)%nat then b <- item c pos ;; Ok (Z_of_byte b)
     else lo <- item c pos ;;
          hi <- item c (pos + 1) ;;
          Ok (Z.lor (Z_of_byte lo) (Z.shiftl (Z_of_byte hi) 8))) ;;
  decompress_coeff d q compressed.

Definition decompress_ciphertext (c : bytes) (params : KyberParams)
  : result (list Polynomial.t * Polynomial.t) :=
  u <- mapM (fun a =>
               coeffs <- mapM (fun b => read_coeff (du params) (q params) c
                                          (width (du params) * (a * n params + b)))
                              (range (n params)) ;;
               Ok (Polynomial.new coeffs))
            (range (k params)) ;;
  let pos := (width (du params) * (k params * n params))%nat in
  coeffs <- mapM (fun b => read_coeff (dv params) (q params) c
                             (pos + width (dv params) * b))
                 (range (n params)) ;;
  Ok (u, Polynomial.new coeffs).

Definition decode_message (msg : bytes) (n : nat) : Polynomial.t :=
  let coeffs :=
    flat_map (fun byte => map (fun i => Z.land (Z.shiftr (Z_of_byte byte) (Z.of_nat i)) 1)
                              (range 8))
             msg in
  Polynomial.new (take n coeffs).

(** The inner loop of [encode_message]: the guard [i + j < len(bits)]
    holds exactly when [bits[i + j]] exists. *)
Definition pack_byte (bits : list Z) (i : nat) : Z :=
  fold_left (fun byte j => match bits !! (i + j)%nat with
                           | Some b => Z.lor byte (Z.shiftl b (Z.of_nat j))
                           | None => byte
                           end)
            (range 8) 0.

Definition encode_message (poly : Polynomial.t) (n : nat) : bytes :=
  let bits := map (fun coeff => if 0 <? coeff then 1 else 0)
                  (take n (Polynomial.coeffs poly)) in
  map (fun i => byte_of_Z (pack_byte bits i)) (range3 0 (length bits) 8).

(** [xs[i] += p] *)
Definition iadd_at (xs : list Polynomial.t) (i : nat) (rhs : result Polynomial.t)
  : result (list Polynomial.t) :=
  x <- item xs i ;;
  p <- rhs ;;
  y <- Polynomial.__add__ x p ;;
  Ok (<[i := y]> xs).

Definition keygen (params : KyberParams) : M (bytes * bytes) :=
  rho <~ urandom 32 ;;
  A <~ lift (generate_matrix_A rho params) ;;
  s <~ mapMM (fun _ => sample_noise_poly (eta1 params) (n params)) (range (k params)) ;;
  e <~ mapMM (fun _ => sample_noise_poly (eta1 params) (n params)) (range (k params)) ;;
  t <~ lift (for_ (range (k params))
              (fun i t =>
                 t <- for_ (range (k params))
                        (fun j t =>
                           iadd_at t i (Ai <- item A i ;;
                                        Aij <- item Ai j ;;
                                        sj <- item s j ;;
                                        Polynomial.__mul__ Aij sj))
                        t ;;
                 t <- iadd_at t i (item e i) ;;
                 ti <- item t i ;;
                 ti <- ntt ti ;;
                 Ok (<[i := ti]> t))
              (repeat (zero_poly params) (k params))) ;;
  pk <~ lift (encode_pk t rho params) ;;
  sk <~ lift (encode_sk s params) ;;
  ret (pk, sk).

(** Steps 5 to 7 of [encrypt], after all sampling is done. *)
Definition encrypt_uv (params : KyberParams) (A : list (list Polynomial.t))
           (t : list Polynomial.t) (r_poly : Polynomial.t)
           (e1 : list Polynomial.t) (e2 : Polynomial.t) (m : bytes) : result bytes :=
  u <- for_ (range (k params))
         (fun i u =>
            u <- for_ (range (k params))
                   (fun j u =>
                      iadd_at u i (Aj <- item A j ;;
                                   Aji <- item Aj i ;;
                                   Polynomial.__mul__ Aji r_poly))
                   u ;;
            iadd_at u i (item e1 i))
         (repeat (zero_poly params) (k params)) ;;
  let m_poly := decode_message m (n params) in
  v <- for_ (range (k params))
         (fun i v => ti <- item t i ;;
                     p <- Polynomial.__mul__ ti r_poly ;;
                     Polynomial.__add__ v p)
         (zero_poly params) ;;
  em <- Polynomial.__add__ e2 m_poly ;;
  v <- Polynomial.__add__ v em ;;
  compress_ciphertext u v params.

Definition encrypt (pk m r : bytes) (params : KyberParams) : M bytes :=
  let t := fst (decode_pk pk params) in
  let rho := snd (decode_pk pk params) in
  A <~ lift (generate_matrix_A rho params) ;;
  let r_poly := sample_poly_from_seed r (eta1 params) (n params) in
  e1 <~ mapMM (fun _ => sample_noise_poly (eta1 params) (n params)) (range (k params)) ;;
  e2 <~ sample_noise_poly (eta2 params) (n params) ;;
  lift (encrypt_uv params A t r_poly e1 e2 m).

Definition decrypt (sk c : bytes) (params : KyberParams) : result bytes :=
  let s := decode_sk sk params in
  uv <- decompress_ciphertext c params ;;
  m_poly <- for_ (range (k params))
              (fun i m_poly => si <- item s i ;;
                               ui <- item (fst uv) i ;;
                               p <- Polynomial.__mul__ si ui ;;
                               Polynomial.__sub__ m_poly p)
              (Polynomial.copy (snd uv)) ;;
  Ok (encode_message m_poly (n params)).

(** ** kyber/kem.py *)

Module KyberKEM.

Definition keypair (params : KyberParams) : M (bytes * bytes) :=
  keys <~ keygen params ;;
  let pk_pke := fst keys in
  let sk_pke := snd keys in
  z <~ urandom 32 ;;
  let h := hash_h pk_pke in
  ret (pk_pke, sk_pke ++ pk_pke ++ h ++ z).

Definition encapsulate (params : KyberParams) (pk : bytes) : M (bytes * bytes) :=
  m <~ urandom 32 ;;
  let h_pk := hash_h pk in
  let K_r := hash_g (m ++ h_pk) in
  let K := take 32 K_r in
  let r := drop 32 K_r in
  c <~ encrypt pk m r params ;;
  let h_c := hash_h c in
  ret (c, kdf (K ++ h_c)).

Definition decapsulate (params : KyberParams) (c sk : bytes) : M bytes :=
  let sk_len := (k params * 32)%nat in
  let sk_pke := take sk_len sk in
  let pk_pke := slice sk sk_len (sk_len * 2) in
  let h := slice sk (sk_len * 2) (sk_len * 2 + 32) in
  let z := drop (sk_len * 2 + 32) sk in
  m_prime <~ lift (decrypt sk_pke c params) ;;
  let K_r_prime := hash_g (m_prime ++ h) in
  let K_prime := take 32 K_r_prime in
  let r_prime := drop 32 K_r_prime in
  c_prime <~ encrypt pk_pke m_prime r_prime params ;;
  let h_c := hash_h c in
  if bytes_eqb c c_prime then ret (kdf (K_prime ++ h_c))
  else ret (kdf (z ++ h_c)).

End KyberKEM.

(** ** kyber/__init__.py

    A [KyberKEM] object holds nothing but its parameter set, which the
    functions of the module above take as their first argument. *)

Definition Kyber512 : KyberParams := KYBER512.
Definition Kyber768 : KyberParams := KYBER768.
Definition Kyber1024 : KyberParams := KYBER1024.

(** * Instrumented runs

    The functions on the path of [KyberKEM.decapsulate] once more, written
    so that the order of their effects can be observed.  A run returns its
    outcome together with the entropy pool as the run left it, also when an
    exception ends it, and with a log of the work done, in order: one entry
    for each call of [hashlib.shake_128] (which is every call of [hash_g],
    [hash_h], [kdf], [prf] and [xof]), of [os.urandom] and of
    [Polynomial.__mul__].  Everything else (slicing, the decoders,
    additions, compression) is taken over from the definitions above. *)

Inductive work : Type :=
  | Hashed        (* hashlib.shake_128(...).digest(...) *)
  | Sampled       (* os.urandom(...) *)
  | Multiplied.   (* Polynomial.__mul__ *)

Module Traced.

Definition T (A : Type) : Type := entropy -> result A * entropy * list work.

Definition ret {A} (a : A) : T A := fun s => (Ok a, s, []).

(** An exception ends the run where it is raised: the pool and the log are
    those of that moment. *)
Definition bindT {A B} (m : T A) (f : A -> T B) : T B :=
  fun s => match m s with
           | (Ok a, s1, l1) => match f a s1 with
                               | (r, s2, l2) => (r, s2, l1 ++ l2)
                               end
           | (Raise e, s1, l1) => (Raise e, s1, l1)
           end.

Definition lift {A} (r : result A) : T A := fun s => (r, s, []).

Definition tick (w : work) : T unit := fun s => (Ok tt, s, [w]).

Notation "x <~~ m ;; f" := (bindT m (fun x => f))
  (at level 62, m at next level, right associativity).

Fixpoint forT {A S} (xs : list A) (body : A -> S -> T S) (s : S) : T S :=
  match xs with
  | [] => ret s
  | x :: rest => s' <~~ body x s ;; forT rest body s'
  end.

Fixpoint mapT {A B} (f : A -> T B) (xs : list A) : T (list B) :=
  match xs with
  | [] => ret []
  | x :: rest => y <~~ f x ;; ys <~~ mapT f rest ;; ret (y :: ys)
  end.

(** [os.urandom(len)] *)
Definition urandom (len : nat) : T bytes :=
  fun s => (Ok (map s (seq 0 len)), fun i => s (len + i)%nat, [Sampled]).

(** ** kyber/symmetric.py *)

Definition shake_128 (msg : bytes) (outlen : nat) : T bytes :=
  _ <~~ tick Hashed ;; ret (Keccak.shake_128 msg outlen).

Definition hash_g (msg : bytes) : T bytes := shake_128 msg 64.
Definition hash_h (msg : bytes) : T bytes := shake_128 msg 32.
Definition kdf (msg : bytes) : T bytes := shake_128 msg 32.
Definition prf (seed : bytes) (length : nat) : T bytes := shake_128 seed length.

(** ** kyber/poly.py *)

Definition __mul__ (self other : Polynomial.t) : T Polynomial.t :=
  _ <~~ tick Multiplied ;; lift (Polynomial.__mul__ self other).

(** ** kyber/pke.py *)

Definition matrix_entry (rho : bytes) (params : KyberParams) (i j : nat)
  : T Polynomial.t :=
  ij <~~ lift (bytes_of_ints [i; j]) ;;
  let seed := rho ++ ij in
  stream <~~ prf seed (n params * 3) ;;
  coeffs <~~ lift (mapM (fun c => py_mod (from_bytes_little
                                           (slice stream (3 * c) (3 * c + 3)))
                                         (q params))
                        (range (n params))) ;;
  ret (Polynomial.new coeffs).

Definition generate_matrix_A (rho : bytes) (params : KyberParams)
  : T (list (list Polynomial.t)) :=
  mapT (fun i => mapT (fun j => matrix_entry rho params i j) (range (k params)))
       (range (k params)).

Definition noise_coeff (eta : nat) : T Z :=
  forT (range eta)
       (fun _ acc =>
          b <~~ urandom 1 ;;
          b0 <~~ lift (item b 0) ;;
          ret (acc + (if Z_of_byte b0 <? 128 then 1 else -1)))
       0.

Definition sample_noise_poly (eta n : nat) : T Polynomial.t :=
  coeffs <~~ mapT (fun _ => noise_coeff eta) (range n) ;;
  ret (Polynomial.new coeffs).

Definition sample_poly_from_seed (seed : bytes) (eta n : nat) : T Polynomial.t :=
  stream <~~ prf seed (n * eta) ;;
  ret (Polynomial.new
         (map (fun i =>
                 fold_left Z.add
                   (map (fun bit => if Z_of_byte bit <? 128 then 1 else -1)
                        (slice stream (i * eta) ((i + 1) * eta)))
                   0)
              (range n))).

(** [xs[i] += p] *)
Definition iadd_at (xs : list Polynomial.t) (i : nat) (rhs : T Polynomial.t)
  : T (list Polynomial.t) :=
  x <~~ lift (item xs i) ;;
  p <~~ rhs ;;
  y <~~ lift (Polynomial.__add__ x p) ;;
  ret (<[i := y]> xs).

Definition encrypt (pk m r : bytes) (params : KyberParams) : T bytes :=
  let t := fst (decode_pk pk params) in
  let rho := snd (decode_pk pk params) in
  A <~~ generate_matrix_A rho params ;;
  r_poly <~~ sample_poly_from_seed r (eta1 params) (n params) ;;
  e1 <~~ mapT (fun _ => sample_noise_poly (eta1 params) (n params)) (range (k params)) ;;
  e2 <~~ sample_noise_poly (eta2 params) (n params) ;;
  u <~~ forT (range (k params))
          (fun i u =>
             u <~~ forT (range (k params))
                     (fun j u =>
                        iadd_at u i (Aj <~~ lift (item A j) ;;
                                     Aji <~~ lift (item Aj i) ;;
                                     __mul__ Aji r_poly))
                     u ;;
             iadd_at u i (lift (item e1 i)))
          (repeat (zero_poly params) (k params)) ;;
  let m_poly := decode_message m (n params) in
  v <~~ forT (range (k params))
          (fun i v => ti <~~ lift (item t i) ;;
                      p <~~ __mul__ ti r_poly ;;
                      lift (Polynomial.__add__ v p))
          (zero_poly params) ;;
  em <~~ lift (Polynomial.__add__ e2 m_poly) ;;
  v <~~ lift (Polynomial.__add__ v em) ;;
  lift (compress_ciphertext u v params).

Definition decrypt (sk c : bytes) (params : KyberParams) : T bytes :=
  let s := decode_sk sk params in
  uv <~~ lift (decompress_ciphertext c params) ;;
  m_poly <~~ forT (range (k params))
               (fun i m_poly => si <~~ lift (item s i) ;;
                                ui <~~ lift (item (fst uv) i) ;;
                                p <~~ __mul__ si ui ;;
                                lift (Polynomial.__sub__ m_poly p))
               (Polynomial.copy (snd uv)) ;;
  ret (encode_message m_poly (n params)).

(** ** kyber/kem.py *)

Definition decapsulate (params : KyberParams) (c sk : bytes) : T bytes :=
  let sk_len := (k params * 32)%nat in
  let sk_pke := take sk_len sk in
  let pk_pke := slice sk sk_len (sk_len * 2) in
  let h := slice sk (sk_len * 2) (sk_len * 2 + 32) in
  let z := drop (sk_len * 2 + 32) sk in
  m_prime <~~ decrypt sk_pke c params ;;
  K_r_prime <~~ hash_g (m_prime ++ h) ;;
  let K_prime := take 32 K_r_prime in
  let r_prime := drop 32 K_r_prime in
  c_prime <~~ encrypt pk_pke m_prime r_prime params ;;
  h_c <~~ hash_h c ;;
  if bytes_eqb c c_prime then kdf (K_prime ++ h_c)
  else kdf (z ++ h_c).

End Traced.

(** * Specification vocabulary *)

(** ** Outcomes *)

(** [returns m P]: [m] does not raise and its value satisfies [P]. *)
Definition returns {A} (m : result A) (P : A -> Prop) : Prop :=
  match m with
  | Ok a => P a
  | Raise _ => False
  end.

(** The same for a computation that reads the entropy pool [s]. *)
Definition returnsM {A} (m : M A) (s : entropy) (P : A -> entropy -> Prop) : Prop :=
  match m s with
  | Ok (a, s') => P a s'
  | Raise _ => False
  end.

(** ** Polynomials *)

(** A polynomial whose list has [nn] coefficients, in the ring given by
    [nn] and [qq]. *)
Definition wf (nn : nat) (qq : Z) (p : Polynomial.t) : Prop :=
  length (Polynomial.coeffs p) = nn /\ Polynomial.n p = nn /\ Polynomial.q p = qq.

Definition reduced (qq : Z) (p : Polynomial.t) : Prop :=
  Forall (fun x => 0 <= x < qq) (Polynomial.coeffs p).

(** The coefficient list of [a + b] and [a - b]. *)
Definition pointwise (op : Z -> Z -> Z) (qq : Z) (a b : Polynomial.t) : list Z :=
  map (fun ab => op (fst ab) (snd ab) mod qq) (zip (Polynomial.coeffs a) (Polynomial.coeffs b)).

(** After [t] passes of the reduction loop of [__mul__] the first [t]
    entries have been stored reduced. *)
Definition reduced_prefix (nn : nat) (qq : Z) (t : nat) (res : list Z) : Prop :=
  length res = (2 * nn)%nat /\
  forall j, (j < t)%nat -> exists x, res !! j = Some x /\ (0 < qq -> 0 <= x < qq).

(** [kk] well-formed polynomials, and a [kk] by [kk] matrix of them. *)
Definition polys_ok (kk : nat) (ps : list Polynomial.t) : Prop :=
  length ps = kk /\ Forall (wf 256 3329) ps.

Definition matrix_ok (kk : nat) (A : list (list Polynomial.t)) : Prop :=
  length A = kk /\
  Forall (fun row => length row = kk /\ Forall (wf 256 3329) row) A.

(** A polynomial whose 256 coefficients are all [v]. *)
Definition const_poly (v : Z) : Polynomial.t := Polynomial.new (repeat v 256).

(** ** The entropy pool *)

(** The sign drawn from one byte of the pool. *)
Definition sign_of (b : byte) : Z := if Z_of_byte b <? 128 then 1 else -1.

(** Every byte left in the pool satisfies [J]. *)
Definition pool (J : byte -> Prop) (s : entropy) : Prop := forall i, J (s i).

(** A pool of zero bytes, and one that turns to 0xff after the first 32
    bytes. *)
Definition pool_00 : entropy := fun _ => x00.

Definition pool_00_then_ff : entropy := fun i => if (i <? 32)%nat then x00 else xff.

(** ** The matrix *)

(** The coefficients of one matrix entry, read off its stream. *)
Definition entry_coeffs (stream : bytes) (nn : nat) (qq : Z) : list Z :=
  map (fun c => from_bytes_little (slice stream (3 * c) (3 * c + 3)) mod qq) (range nn).

(** The sampler as the specification words it, for comparison: the stream
    is cut into triples, each triple is read little-endian and masked to
    12 bits, and the values that are not below [qq] are dropped. *)
Fixpoint triples (stream : bytes) : list bytes :=
  match stream with
  | b0 :: b1 :: b2 :: rest => [b0; b1; b2] :: triples rest
  | _ => []
  end.

Definition uniform_rejection_spec (qq : Z) (stream : bytes) : list Z :=
  List.filter (fun v => v <? qq)
              (map (fun t => Z.land (from_bytes_little t) 4095) (triples stream)).

(** ** Ciphertexts *)

(** The length of the byte string [compress_ciphertext] builds, which is
    also what [decompress_ciphertext] reads. *)
Definition ciphertext_len (params : KyberParams) : nat :=
  (width (du params) * (k params * n params) + width (dv params) * n params)%nat.

(** The bytes [compress_ciphertext] appends for one polynomial. *)
Definition poly_bytes (d : nat) (q : Z) (p : Polynomial.t) : bytes :=
  flat_map (fun coeff => compressed_bytes d ((Z.shiftl coeff (Z.of_nat d) + q / 2) / q))
           (Polynomial.coeffs p).

(** The first entry of [u] before the noise is added: the accumulation
    [for j in range(k): u[0] += A[j][0] * r_poly] from zero.  It depends on
    the public key and the coins only. *)
Definition first_row_acc (params : KyberParams) (A : list (list Polynomial.t))
           (r_poly : Polynomial.t) : result Polynomial.t :=
  u <- for_ (range (k params))
         (fun j u => iadd_at u 0 (Aj <- item A j ;; Aji <- item Aj 0 ;;
                                  Polynomial.__mul__ Aji r_poly))
         (repeat (zero_poly params) (k params)) ;;
  item u 0.

(** The bytes stored for the first coefficient of [u[0]] when the
    accumulated value is [r] and the noise is [v], and the test that they
    change with the sign of the noise. *)
Definition head_bytes (d : nat) (r v : Z) : bytes :=
  compressed_bytes d ((Z.shiftl ((r + v) mod 3329) (Z.of_nat d) + 3329 / 2) / 3329).

Definition head_bytes_differ (d : nat) (eta : Z) (r : Z) : bool :=
  negb (bytes_eqb (head_bytes d r eta) (head_bytes d r (- eta))).

(** ** Compression and message bits *)

(** The distance of [r] from 0 modulo [qq], through the centred
    representative. *)
Definition centered_abs (qq r : Z) : Z := Z.min (r mod qq) (qq - r mod qq).

(** The ceiling of [qq / 2 ^ (d + 1)]. *)
Definition compression_bound (qq : Z) (d : nat) : Z :=
  (qq + 2 ^ (Z.of_nat d + 1) - 1) / 2 ^ (Z.of_nat d + 1).

(** Compress, store the bytes, read them back, decompress and compare
    with the bound. *)
Definition roundtrip_close (d : nat) (x : Z) : bool :=
  match compress_coeff d 3329 x with
  | Ok y =>
      match read_coeff d 3329 (compressed_bytes d y) 0, decompress_coeff d 3329 y with
      | Ok z', Ok z => (z' =? z) && (centered_abs 3329 (z - x) <=? compression_bound 3329 d)
      | _, _ => false
      end
  | Raise _ => false
  end.

(** The bit the specification's centred decoding would produce. *)
Definition centered_bit_spec (qq c : Z) : bool :=
  Z.min (c mod qq) (qq - c mod qq) <=? qq / 4.

(** ** Vocabulary of the further properties *)

(** The exception [ntt] ends with. *)
Definition ntt_error (p : Polynomial.t) : exn :=
  if negb (length (Polynomial.coeffs p) =? 256)%nat then ValueError
  else if Polynomial.q p =? 0 then ZeroDivisionError
  else IndexError.

(** Three lists of one length, the third congruent to the sum of the
    first two modulo [q], position by position. *)
Definition sum_mod (q : Z) (ra rb rc : list Z) : Prop :=
  length ra = length rb /\ length rb = length rc /\
  forall i x y z, ra !! i = Some x -> rb !! i = Some y -> rc !! i = Some z ->
                  z mod q = (x + y) mod q.

(** ** Products of polynomials *)

(** The sum of [f 0], ..., [f (m - 1)]. *)
Fixpoint sumZ (m : nat) (f : nat -> Z) : Z :=
  match m with
  | O => 0
  | S m' => sumZ m' f + f m'
  end.

(** Coefficient [i] of a polynomial. *)
Definition coeff (p : Polynomial.t) (i : nat) : Z := nth i (Polynomial.coeffs p) 0.

(** Coefficient [k] of the product of [a] and [b] as polynomials of degree
    below [nn] over the integers, and of their product modulo [x^nn + 1],
    where the power [x^(k + nn)] counts as [- x^k]. *)
Definition conv (nn : nat) (a b : Polynomial.t) (k : nat) : Z :=
  sumZ nn (fun i => sumZ nn (fun j =>
    if (i + j =? k)%nat then coeff a i * coeff b j else 0)).

Definition negacyclic (nn : nat) (a b : Polynomial.t) (k : nat) : Z :=
  conv nn a b k - conv nn a b (k + nn).

(** The polynomial [x^j0] of the ring given by [nn] and [qq]. *)
Definition monomial (nn : nat) (qq : Z) (j0 : nat) : Polynomial.t :=
  Polynomial.mk (map (fun j => if (j =? j0)%nat then 1 else 0) (range nn)) nn qq.

(** Two polynomials whose coefficients differ, modulo 3329, by at most the
    rounding error of a compression to [d] bits. *)
Definition coeffs_close (d : nat) (p p' : Polynomial.t) : Prop :=
  forall b, (b < 256)%nat ->
    centered_abs 3329 (coeff p' b - coeff p b) <= compression_bound 3329 d.

(** The eight coefficients that [decode_message] makes of one byte. *)
Definition byte_bits (b : byte) : list Z :=
  map (fun i => Z.land (Z.shiftr (Z_of_byte b) (Z.of_nat i)) 1) (range 8).

(** ** Noise *)

(** The coefficient that the two noise samplers make of [eta] bytes: one
    for every byte below 128, minus one for every other byte. *)
Definition sign_sum (eta : nat) (byte_at : nat -> byte) : Z :=
  sumZ eta (fun j => sign_of (byte_at j)).

(** The number of bytes that one encryption draws from the entropy pool:
    [eta1] for each coefficient of the [k] polynomials of [e1], [eta2] for
    each coefficient of [e2]. *)
Definition noise_bytes (params : KyberParams) : nat :=
  (256 * (k params * eta1 params + eta2 params))%nat.

(** The noise polynomials that [encrypt] draws, as functions of the
    pool: [e1] from its first [k * 256 * eta1] bytes, [e2] from the
    [256 * eta2] bytes that follow. *)
Definition noise_poly (eta : nat) (s : entropy) (start : nat) : Polynomial.t :=
  Polynomial.new
    (map (fun c => sign_sum eta (fun j => s (start + c * eta + j)%nat)) (range 256)).

Definition noise_e1 (params : KyberParams) (s : entropy) : list Polynomial.t :=
  map (fun i => noise_poly (eta1 params) s (i * (256 * eta1 params))) (range (k params)).

Definition noise_e2 (params : KyberParams) (s : entropy) : Polynomial.t :=
  noise_poly (eta2 params) s (k params * (256 * eta1 params)).

(** ** Instrumented runs and plain runs

    [erase] forgets the log of an instrumented run and, as the plain model
    does, the pool of a run that raised. *)
Definition erase {A} (m : Traced.T A) : M A :=
  fun s => match m s with
           | (Ok a, s', _) => Ok (a, s')
           | (Raise e, _, _) => Raise e
           end.

(** The instrumented computation [t] is the plain computation [m], with
    more to observe. *)
Definition refines {A} (t : Traced.T A) (m : M A) : Prop :=
  forall s, erase t s = m s.

(** Every run of [t] that returns has logged exactly [l]. *)
Definition logs {A} (t : Traced.T A) (l : list work) : Prop :=
  forall s, match t s with
            | (Ok _, _, l') => l' = l
            | (Raise _, _, _) => True
            end.

(** The work of a decapsulation that returns, in order. *)
Definition decapsulate_work (params : KyberParams) : list work :=
  repeat Multiplied (k params)                                 (* decrypt: s[i] * u[i] *)
  ++ [Hashed]                                                  (* hash_g(m_prime + h) *)
  ++ repeat Hashed (k params * k params)                       (* generate_matrix_A *)
  ++ [Hashed]                                                  (* sample_poly_from_seed *)
  ++ repeat Sampled (k params * (n params * eta1 params))      (* e1 *)
  ++ repeat Sampled (n params * eta2 params)                   (* e2 *)
  ++ repeat Multiplied (k params * k params)                   (* A[j][i] * r_poly *)
  ++ repeat Multiplied (k params)                              (* t[i] * r_poly *)
  ++ [Hashed]                                                  (* hash_h(c) *)
  ++ [Hashed].                                                 (* kdf *)
(** * Reasoning about computations that may raise *)

Lemma returns_Ok {A} (a : A) (P : A -> Prop) : P a -> returns (Ok a) P.
Proof. intros H. exact H. Qed.

Lemma returns_inv {A} (m : result A) (P : A -> Prop) :
  returns m P -> exists a, m = Ok a /\ P a.
Proof. destruct m as [a|e]; simpl; [eauto | tauto]. Qed.

Lemma returns_weaken {A} (m : result A) (P Q : A -> Prop) :
  returns m P -> (forall a, P a -> Q a) -> returns m Q.
Proof. destruct m; simpl; auto. Qed.

Lemma bind_Ok {A B} (a : A) (f : A -> result B) : bind (Ok a) f = f a.
Proof. reflexivity. Qed.

Lemma returns_bind {A B} (m : result A) (f : A -> result B) (P : A -> Prop)
      (Q : B -> Prop) :
  returns m P -> (forall a, P a -> returns (f a) Q) -> returns (bind m f) Q.
Proof. destruct m; simpl; [auto | tauto]. Qed.

Lemma raises_bind {A B} (m : result A) (f : A -> result B) (P : A -> Prop) (e : exn) :
  returns m P -> (forall a, P a -> f a = Raise e) -> bind m f = Raise e.
Proof. destruct m; simpl; [auto | tauto]. Qed.

Lemma returnsM_inv {A} (m : M A) s (P : A -> entropy -> Prop) :
  returnsM m s P -> exists a s', m s = Ok (a, s') /\ P a s'.
Proof.
  unfold returnsM. destruct (m s) as [[a s']|e]; [eauto | tauto].
Qed.

Lemma returnsM_weaken {A} (m : M A) s (P Q : A -> entropy -> Prop) :
  returnsM m s P -> (forall a s', P a s' -> Q a s') -> returnsM m s Q.
Proof. unfold returnsM. destruct (m s) as [[a s']|e]; auto. Qed.

Lemma returnsM_bind {A B} (m : M A) (f : A -> M B) s (P : A -> entropy -> Prop)
      (Q : B -> entropy -> Prop) :
  returnsM m s P -> (forall a s', P a s' -> returnsM (f a) s' Q) ->
  returnsM (bindM m f) s Q.
Proof.
  unfold returnsM, bindM. intros Hm Hf.
  destruct (m s) as [[a s']|e]; [apply Hf; exact Hm | contradiction].
Qed.

Lemma returnsM_ret {A} (a : A) s (P : A -> entropy -> Prop) :
  P a s -> returnsM (ret a) s P.
Proof. intros H. exact H. Qed.

Lemma returnsM_lift {A} (r : result A) s (P : A -> Prop) (Q : A -> entropy -> Prop) :
  returns r P -> (forall a, P a -> Q a s) -> returnsM (lift r) s Q.
Proof. unfold returnsM, lift. destruct r; simpl; [auto | tauto]. Qed.

Lemma raisesM_bind {A B} (m : M A) (f : A -> M B) s (P : A -> entropy -> Prop) e :
  returnsM m s P -> (forall a s', P a s' -> f a s' = Raise e) ->
  bindM m f s = Raise e.
Proof.
  unfold returnsM, bindM. intros Hm Hf.
  destruct (m s) as [[a s']|e']; [apply Hf; exact Hm | contradiction].
Qed.

Lemma for_cons {A S} (x : A) (xs : list A) (body : A -> S -> result S) (s : S) :
  for_ (x :: xs) body s = bind (body x s) (for_ xs body).
Proof. reflexivity. Qed.

Lemma for_single {A S} (x : A) (body : A -> S -> result S) (s : S) :
  for_ [x] body s = body x s.
Proof. simpl. destruct (body x s); reflexivity. Qed.

(** A loop keeps an invariant indexed by the number of iterations done. *)
Lemma returns_for {A S} (xs : list A) (body : A -> S -> result S)
      (I : nat -> S -> Prop) (s : S) :
  I O s ->
  (forall i x s, xs !! i = Some x -> I i s -> returns (body x s) (I (Datatypes.S i))) ->
  returns (for_ xs body s) (I (length xs)).
Proof.
  revert I s. induction xs as [|x xs IH]; intros I s H0 Hstep; simpl.
  - exact H0.
  - apply returns_bind with (P := I 1%nat).
    + apply (Hstep O x s); [reflexivity | exact H0].
    + intros s' Hs'. apply (IH (fun i => I (Datatypes.S i))); [exact Hs' |].
      intros i y s1 Hy Hs1. apply (Hstep (Datatypes.S i) y s1); assumption.
Qed.

Lemma returnsM_for {A S} (xs : list A) (body : A -> S -> M S)
      (I : nat -> S -> entropy -> Prop) (s : S) (e : entropy) :
  I O s e ->
  (forall i x s e, xs !! i = Some x -> I i s e ->
                   returnsM (body x s) e (I (Datatypes.S i))) ->
  returnsM (forM xs body s) e (I (length xs)).
Proof.
  revert I s e. induction xs as [|x xs IH]; intros I s e H0 Hstep; simpl.
  - exact H0.
  - apply returnsM_bind with (P := I 1%nat).
    + apply (Hstep O x s e); [reflexivity | exact H0].
    + intros s' e' Hs'. apply (IH (fun i => I (Datatypes.S i))); [exact Hs' |].
      intros i y s1 e1 Hy Hs1. apply (Hstep (Datatypes.S i) y s1 e1); assumption.
Qed.

Lemma returns_mapM {A B} (f : A -> result B) (xs : list A) (P : A -> B -> Prop) :
  (forall i x, xs !! i = Some x -> returns (f x) (P x)) ->
  returns (mapM f xs) (fun ys => Forall2 P xs ys).
Proof.
  induction xs as [|x xs IH]; intros H; simpl.
  - constructor.
  - apply returns_bind with (P := P x); [apply (H O); reflexivity |].
    intros y Hy. apply returns_bind with (P := fun ys => Forall2 P xs ys).
    + apply IH. intros i z Hz. apply (H (Datatypes.S i)). exact Hz.
    + intros ys Hys. simpl. constructor; assumption.
Qed.

Lemma returnsM_mapMM {A B} (f : A -> M B) (xs : list A) (P : B -> Prop)
      (I : entropy -> Prop) e :
  I e ->
  (forall x e, I e -> returnsM (f x) e (fun y e' => P y /\ I e')) ->
  returnsM (mapMM f xs) e (fun ys e' => Forall P ys /\ length ys = length xs /\ I e').
Proof.
  revert e. induction xs as [|x xs IH]; intros e He H; simpl.
  - apply returnsM_ret. repeat split; [constructor | exact He].
  - eapply returnsM_bind; [apply H; exact He |].
    intros y e1 [Hy He1]. eapply returnsM_bind; [apply IH; [exact He1 | exact H] |].
    intros ys e2 (Hys & Hlen & He2). apply returnsM_ret.
    repeat split; [constructor; assumption | simpl; congruence | exact He2].
Qed.

(** A list comprehension whose body never raises is a [map]. *)
Lemma mapM_map {A B} (f : A -> result B) (g : A -> B) (xs : list A) :
  (forall x, f x = Ok (g x)) -> mapM f xs = Ok (map g xs).
Proof.
  intros H. induction xs as [|x xs IH]; simpl; [reflexivity |].
  rewrite H, IH. reflexivity.
Qed.

Lemma mapM_map_In {A B} (f : A -> result B) (g : A -> B) (xs : list A) :
  (forall x, In x xs -> f x = Ok (g x)) -> mapM f xs = Ok (map g xs).
Proof.
  intros H. induction xs as [|x xs IH]; simpl; [reflexivity |].
  rewrite H by (left; reflexivity). rewrite IH by (intros y Hy; apply H; right; exact Hy).
  reflexivity.
Qed.

(** A comprehension whose body can only raise [e] raises [e] as soon as
    one element does. *)
Lemma mapM_cases {A B} (f : A -> result B) (xs : list A) (e : exn) :
  (forall x, (exists y, f x = Ok y) \/ f x = Raise e) ->
  (exists ys, mapM f xs = Ok ys /\ length ys = length xs) \/ mapM f xs = Raise e.
Proof.
  intros H. induction xs as [|x xs IH]; simpl.
  - left. exists []. split; reflexivity.
  - destruct (H x) as [[y ->] | ->]; [| right; reflexivity]. simpl.
    destruct IH as [(ys & -> & Hlen) | ->]; [| right; reflexivity].
    left. exists (y :: ys). split; [reflexivity | simpl; congruence].
Qed.

Lemma mapM_raises {A B} (f : A -> result B) (xs : list A) (e : exn) :
  (forall x, (exists y, f x = Ok y) \/ f x = Raise e) ->
  (exists x, In x xs /\ f x = Raise e) -> mapM f xs = Raise e.
Proof.
  intros H (x & Hin & Hx). induction xs as [|x' xs IH]; [contradiction |]. simpl.
  destruct (H x') as [[y Hy] | ->]; [| reflexivity]. rewrite Hy. simpl.
  destruct Hin as [-> | Hin]; [congruence |]. rewrite (IH Hin). reflexivity.
Qed.

Lemma mapM_ok_length {A B} (f : A -> result B) (xs : list A) :
  (forall x, In x xs -> exists y, f x = Ok y) ->
  exists ys, mapM f xs = Ok ys /\ length ys = length xs.
Proof.
  intros H. induction xs as [|x xs IH]; simpl.
  - exists []. split; reflexivity.
  - destruct (H x) as [y ->]; [left; reflexivity |]. simpl.
    destruct IH as (ys & -> & Hlen); [intros z Hz; apply H; right; exact Hz |].
    exists (y :: ys). split; [reflexivity | simpl; congruence].
Qed.

Lemma py_mod_Ok (a q : Z) : q <> 0 -> py_mod a q = Ok (a mod q).
Proof. intros H. unfold py_mod. destruct (Z.eqb_spec q 0); [contradiction | reflexivity]. Qed.

Lemma py_div_Ok (a b : Z) : b <> 0 -> py_div a b = Ok (a / b).
Proof. intros H. unfold py_div. destruct (Z.eqb_spec b 0); [contradiction | reflexivity]. Qed.

(** * Lists, ranges and bytes *)

Lemma lookup_map {A B} (f : A -> B) (l : list A) (i : nat) :
  map f l !! i = f <$> (l !! i).
Proof. exact (list_lookup_fmap f l i). Qed.

Lemma lookup_repeat {A} (x y : A) (m i : nat) :
  repeat x m !! i = Some y -> y = x /\ (i < m)%nat.
Proof.
  revert i. induction m as [|m IH]; intros [|i] H; simpl in H; try discriminate.
  - injection H as <-. split; [reflexivity | lia].
  - apply IH in H as [-> Hi]. split; [reflexivity | lia].
Qed.

Lemma Forall2_right {A B} (Q : B -> Prop) (xs : list A) (ys : list B) :
  Forall2 (fun _ y => Q y) xs ys -> Forall Q ys /\ length ys = length xs.
Proof.
  induction 1 as [|x y xs ys Hy _ [IH1 IH2]]; [split; [constructor | reflexivity] |].
  split; [constructor; assumption | simpl; congruence].
Qed.

Lemma item_lookup {A} (l : list A) (i : nat) (x : A) : l !! i = Some x -> item l i = Ok x.
Proof. unfold item. intros ->. reflexivity. Qed.

Lemma item_Ok_lookup {A} (l : list A) (i : nat) (x : A) : item l i = Ok x -> l !! i = Some x.
Proof. unfold item. destruct (l !! i); [intros [= ->]; reflexivity | discriminate]. Qed.

Lemma item_lt {A} (l : list A) (i : nat) :
  (i < length l)%nat -> exists x, l !! i = Some x /\ item l i = Ok x.
Proof.
  intros H. destruct (lookup_lt_is_Some_2 l i H) as [x Hx].
  exists x. split; [exact Hx | apply item_lookup; exact Hx].
Qed.

Lemma item_ge {A} (l : list A) (i : nat) :
  (length l <= i)%nat -> item l i = Raise IndexError.
Proof. intros H. unfold item. rewrite (lookup_ge_None_2 l i H). reflexivity. Qed.

Lemma range_lookup (m i x : nat) : range m !! i = Some x -> x = i /\ (i < m)%nat.
Proof. unfold range. intros H. apply lookup_seq in H. lia. Qed.

Lemma range2_lookup (a b i x : nat) :
  range2 a b !! i = Some x -> x = (a + i)%nat /\ (a + i < b)%nat.
Proof. unfold range2. intros H. apply lookup_seq in H. lia. Qed.

Lemma range3_lookup (a b step i x : nat) :
  range3 a b step !! i = Some x ->
  x = (a + i * step)%nat /\ (i < (b - a + step - 1) / step)%nat.
Proof.
  unfold range3. rewrite lookup_map. intros H.
  apply fmap_Some in H as (j & Hj & ->). apply lookup_seq in Hj. simpl in Hj.
  destruct Hj as [-> Hlt]. split; [reflexivity | exact Hlt].
Qed.

Lemma length_range m : length (range m) = m.
Proof. apply length_seq. Qed.

Lemma length_range3 (a b step : nat) :
  length (range3 a b step) = ((b - a + step - 1) / step)%nat.
Proof. unfold range3. rewrite length_map. apply length_seq. Qed.

Lemma In_range (m i : nat) : In i (range m) <-> (i < m)%nat.
Proof. unfold range. rewrite in_seq. lia. Qed.

Lemma range_head (m : nat) : (0 < m)%nat -> range m = 0%nat :: range2 1 m.
Proof.
  intros H. unfold range, range2. destruct m as [|m]; [lia |].
  simpl. rewrite Nat.sub_0_r. reflexivity.
Qed.

Lemma range2_single (a : nat) : range2 a (a + 1) = [a].
Proof. unfold range2. replace (a + 1 - a)%nat with 1%nat by lia. reflexivity. Qed.

Lemma length_flat_map_uniform {A B} (f : A -> list B) (w : nat) (l : list A) :
  (forall x, length (f x) = w) -> length (flat_map f l) = (w * length l)%nat.
Proof.
  intros H. induction l as [|x l IH]; simpl; [lia |].
  rewrite length_app, H, IH. lia.
Qed.

Lemma lookup_flat_map_uniform {A B} (f : A -> list B) (w : nat) (l : list A)
      (i j : nat) (x : A) (y : B) :
  (forall a, length (f a) = w) -> l !! i = Some x -> f x !! j = Some y ->
  flat_map f l !! (i * w + j)%nat = Some y.
Proof.
  intros Hw. revert i. induction l as [|a l IH]; intros i Hx Hy; [discriminate |].
  simpl flat_map. destruct i as [|i]; simpl in Hx.
  - injection Hx as ->. rewrite lookup_app_l; [exact Hy |].
    apply lookup_lt_Some in Hy. simpl. exact Hy.
  - rewrite lookup_app_r by (rewrite Hw; simpl; lia).
    rewrite Hw. replace (S i * w + j - w)%nat with (i * w + j)%nat by (simpl; lia).
    apply IH; assumption.
Qed.

Lemma take3_drop {A} (l : list A) (m : nat) (a b c : A) :
  l !! m = Some a -> l !! (m + 1)%nat = Some b -> l !! (m + 2)%nat = Some c ->
  take 3 (drop m l) = [a; b; c].
Proof.
  intros Ha Hb Hc. apply list_eq. intros i.
  destruct (Nat.lt_ge_cases i 3) as [Hi|Hi].
  - rewrite lookup_take_lt by exact Hi. rewrite lookup_drop.
    destruct i as [|[|[|i]]]; [| | | lia]; simpl.
    + rewrite Nat.add_0_r. exact Ha.
    + exact Hb.
    + exact Hc.
  - rewrite lookup_take_ge by exact Hi. symmetry. apply lookup_ge_None_2. simpl. lia.
Qed.

Lemma Z_of_byte_range (b : byte) : 0 <= Z_of_byte b < 256.
Proof.
  unfold Z_of_byte. pose proof (Byte.to_N_bounded b) as H. lia.
Qed.

Lemma Z_of_byte_of_Z (z : Z) : 0 <= z < 256 -> Z_of_byte (byte_of_Z z) = z.
Proof.
  intros Hz. unfold Z_of_byte, byte_of_Z. rewrite Z.mod_small by exact Hz.
  destruct (Byte.of_N (Z.to_N z)) as [b|] eqn:Hb.
  - apply Byte.to_of_N in Hb. rewrite Hb. lia.
  - apply Byte.of_N_None_iff in Hb. lia.
Qed.

Lemma bytes_eqb_refl (a : bytes) : bytes_eqb a a = true.
Proof.
  unfold bytes_eqb. rewrite Nat.eqb_refl. simpl.
  induction a as [|b a IH]; [reflexivity |]. simpl.
  rewrite IH, andb_true_r. apply Byte.byte_dec_lb. reflexivity.
Qed.

Lemma land_1_bit (x : Z) (j : nat) :
  Z.land (Z.shiftr x (Z.of_nat j)) 1 = Z.b2z (Z.testbit x (Z.of_nat j)).
Proof.
  change 1 with (Z.ones 1). rewrite Z.land_ones by lia.
  rewrite Z.shiftr_div_pow2 by lia. rewrite Z.testbit_spec' by lia.
  rewrite Z.pow_1_r. reflexivity.
Qed.

(** * The sponge *)

(** Known answers of [hashlib.shake_128]: the digest of the empty message,
    and the last bytes of a digest that needs two absorbed blocks and three
    squeezed ones. *)
Example shake_128_empty :
  map Z_of_byte (Keccak.shake_128 [] 32)
  = [0x7f; 0x9c; 0x2b; 0xa4; 0xe8; 0x8f; 0x82; 0x7d; 0x61; 0x60; 0x45; 0x50; 0x76; 0x05;
     0x85; 0x3e; 0xd7; 0x3b; 0x80; 0x93; 0xf6; 0xef; 0xbc; 0x88; 0xeb; 0x1a; 0x6e; 0xac;
     0xfa; 0x66; 0xef; 0x26].
Proof. vm_compute. reflexivity. Qed.

Example shake_128_long :
  map Z_of_byte (drop 392 (Keccak.shake_128 (repeat x61 200) 400))
  = [194; 241; 234; 234; 67; 84; 251; 169].
Proof. vm_compute. reflexivity. Qed.

Lemma length_squeeze nblocks st :
  length (Keccak.squeeze nblocks st) = (nblocks * Keccak.rate)%nat.
Proof.
  revert st. induction nblocks as [|m IH]; intros st; [reflexivity |].
  change (Keccak.squeeze (S m) st)
    with (map (Keccak.out_byte st) (seq 0 Keccak.rate) ++ Keccak.squeeze m (Keccak.keccak_f st)).
  rewrite length_app, length_map, length_seq, IH. unfold Keccak.rate. lia.
Qed.

Lemma length_shake_128 msg outlen : length (Keccak.shake_128 msg outlen) = outlen.
Proof.
  unfold Keccak.shake_128. rewrite length_take, length_squeeze. unfold Keccak.rate.
  pose proof (Nat.div_mod_eq outlen 168) as Hd.
  pose proof (Nat.mod_upper_bound outlen 168) as Hm. lia.
Qed.

Lemma length_kdf msg : length (kdf msg) = 32%nat.
Proof. apply length_shake_128. Qed.

(** * Polynomial arithmetic *)

Lemma init_full (cs : list Z) (nn : nat) (qq : Z) :
  length cs = nn -> Polynomial.__init__ cs nn qq = Polynomial.mk cs nn qq.
Proof.
  intros H. unfold Polynomial.__init__. destruct cs as [|c cs]; [|reflexivity].
  simpl in H. subst nn. reflexivity.
Qed.

Lemma wf_mk cs nn qq : length cs = nn -> wf nn qq (Polynomial.mk cs nn qq).
Proof. intros H. repeat split. exact H. Qed.

Lemma same_ring_wf nn qq a b : wf nn qq a -> wf nn qq b -> Polynomial.same_ring a b = true.
Proof.
  intros (_ & Ha & Ha') (_ & Hb & Hb'). unfold Polynomial.same_ring.
  rewrite Ha, Hb, Ha', Hb', Nat.eqb_refl, Z.eqb_refl. reflexivity.
Qed.

Lemma same_ring_false a b :
  Polynomial.n a <> Polynomial.n b \/ Polynomial.q a <> Polynomial.q b ->
  Polynomial.same_ring a b = false.
Proof.
  unfold Polynomial.same_ring. intros [H|H].
  - apply Nat.eqb_neq in H. rewrite H. reflexivity.
  - apply Z.eqb_neq in H. rewrite H. apply andb_false_r.
Qed.

Lemma length_pointwise op qq nn a b :
  wf nn qq a -> wf nn qq b -> length (pointwise op qq a b) = nn.
Proof.
  intros (Ha & _) (Hb & _). unfold pointwise.
  rewrite length_map, length_zip_with. lia.
Qed.

Lemma reduced_pointwise op qq a b :
  0 < qq -> Forall (fun x => 0 <= x < qq) (pointwise op qq a b).
Proof.
  intros Hq. unfold pointwise. apply List.Forall_map, List.Forall_forall.
  intros ab _. apply Z.mod_pos_bound. exact Hq.
Qed.

Lemma add_spec nn qq a b :
  wf nn qq a -> wf nn qq b -> qq <> 0 ->
  Polynomial.__add__ a b = Ok (Polynomial.mk (pointwise Z.add qq a b) nn qq).
Proof.
  intros Ha Hb Hq. unfold Polynomial.__add__.
  rewrite (same_ring_wf nn qq a b Ha Hb). simpl.
  destruct Ha as (Hla & Hna & Hqa). rewrite Hqa, Hna.
  rewrite (mapM_map _ (fun ab => (fst ab + snd ab) mod qq))
    by (intros ab; apply py_mod_Ok; exact Hq).
  simpl. f_equal. apply init_full.
  apply (length_pointwise Z.add qq nn a b); [repeat split; assumption | exact Hb].
Qed.

Lemma sub_spec nn qq a b :
  wf nn qq a -> wf nn qq b -> qq <> 0 ->
  Polynomial.__sub__ a b = Ok (Polynomial.mk (pointwise Z.sub qq a b) nn qq).
Proof.
  intros Ha Hb Hq. unfold Polynomial.__sub__.
  rewrite (same_ring_wf nn qq a b Ha Hb). simpl.
  destruct Ha as (Hla & Hna & Hqa). rewrite Hqa, Hna.
  rewrite (mapM_map _ (fun ab => (fst ab - snd ab) mod qq))
    by (intros ab; apply py_mod_Ok; exact Hq).
  simpl. f_equal. apply init_full.
  apply (length_pointwise Z.sub qq nn a b); [repeat split; assumption | exact Hb].
Qed.

Lemma add_wf nn qq a b :
  wf nn qq a -> wf nn qq b -> qq <> 0 -> returns (Polynomial.__add__ a b) (wf nn qq).
Proof.
  intros Ha Hb Hq. rewrite (add_spec nn qq a b Ha Hb Hq). simpl.
  apply wf_mk, (length_pointwise Z.add qq nn a b Ha Hb).
Qed.

Lemma sub_wf nn qq a b :
  wf nn qq a -> wf nn qq b -> qq <> 0 -> returns (Polynomial.__sub__ a b) (wf nn qq).
Proof.
  intros Ha Hb Hq. rewrite (sub_spec nn qq a b Ha Hb Hq). simpl.
  apply wf_mk, (length_pointwise Z.sub qq nn a b Ha Hb).
Qed.

Lemma mul_step_length nn qq a b i j res :
  wf nn qq a -> wf nn qq b -> qq <> 0 -> (i < nn)%nat -> (j < nn)%nat ->
  length res = (2 * nn)%nat ->
  returns (Polynomial.mul_step a b i j res) (fun res' => length res' = (2 * nn)%nat).
Proof.
  intros (Hla & Hna & Hqa) (Hlb & _) Hq Hi Hj Hres. unfold Polynomial.mul_step.
  destruct (item_lt res (i + j)) as (r & _ & ->); [lia |].
  destruct (item_lt (Polynomial.coeffs a) i) as (x & _ & ->); [lia |].
  destruct (item_lt (Polynomial.coeffs b) j) as (y & _ & ->); [lia |].
  simpl. rewrite Hqa, (py_mod_Ok _ qq Hq). simpl.
  rewrite length_insert. exact Hres.
Qed.

Lemma mul_rows_length nn qq a b :
  wf nn qq a -> wf nn qq b -> qq <> 0 ->
  returns (for_ (range nn) (fun i => for_ (range nn) (Polynomial.mul_step a b i))
                (repeat 0 (2 * nn)))
          (fun res => length res = (2 * nn)%nat).
Proof.
  intros Ha Hb Hq.
  apply returns_weaken with (P := (fun _ res => length res = (2 * nn)%nat) (length (range nn)));
    [| intros res H; exact H].
  apply returns_for with (I := fun _ res => length res = (2 * nn)%nat).
  - apply repeat_length.
  - intros i x res Hx Hres. apply range_lookup in Hx as [-> Hi].
    apply returns_weaken
      with (P := (fun _ res => length res = (2 * nn)%nat) (length (range nn)));
      [| intros r H; exact H].
    apply returns_for with (I := fun _ res => length res = (2 * nn)%nat); [exact Hres |].
    intros j y r Hy Hr. apply range_lookup in Hy as [-> Hj].
    apply (mul_step_length nn qq a b i j r Ha Hb Hq Hi Hj Hr).
Qed.

Lemma reduce_loop nn qq a res :
  wf nn qq a -> qq <> 0 -> length res = (2 * nn)%nat ->
  returns (for_ (range2 nn (2 * nn)) (Polynomial.reduce_step a) res)
          (reduced_prefix nn qq nn).
Proof.
  intros (Hla & Hna & Hqa) Hq Hres.
  assert (Hlen : length (range2 nn (2 * nn)) = nn)
    by (unfold range2; rewrite length_seq; lia).
  assert (H : returns (for_ (range2 nn (2 * nn)) (Polynomial.reduce_step a) res)
                      (reduced_prefix nn qq (length (range2 nn (2 * nn))))).
  2: { rewrite Hlen in H. exact H. }
  apply returns_for with (I := reduced_prefix nn qq).
  - split; [exact Hres | intros j Hj; lia].
  - intros t i r Hi (Hr & Hpre). apply range2_lookup in Hi as [-> Hi].
    unfold Polynomial.reduce_step. rewrite Hna, Hqa.
    replace (nn + t - nn)%nat with t by lia.
    destruct (item_lt r t) as (lo & _ & ->); [lia |].
    destruct (item_lt r (nn + t)) as (hi & _ & ->); [lia |].
    simpl. rewrite (py_mod_Ok _ qq Hq). simpl. split.
    + rewrite length_insert. exact Hr.
    + intros j Hj. destruct (decide (j = t)) as [->|Hne].
      * exists ((lo - hi) mod qq). split.
        -- apply list_lookup_insert_eq. lia.
        -- intros Hpos. apply Z.mod_pos_bound. exact Hpos.
      * rewrite list_lookup_insert_ne by congruence. apply Hpre. lia.
Qed.

Lemma mul_wf nn qq a b :
  wf nn qq a -> wf nn qq b -> qq <> 0 ->
  returns (Polynomial.__mul__ a b) (fun c => wf nn qq c /\ (0 < qq -> reduced qq c)).
Proof.
  intros Ha Hb Hq. unfold Polynomial.__mul__.
  rewrite (same_ring_wf nn qq a b Ha Hb). simpl.
  destruct Ha as (Hla & Hna & Hqa). rewrite Hna, Hqa.
  eapply returns_bind;
    [apply (mul_rows_length nn qq a b); [repeat split; assumption | exact Hb | exact Hq] |].
  intros res Hres. simpl.
  eapply returns_bind;
    [apply (reduce_loop nn qq a res); [repeat split; assumption | exact Hq | exact Hres] |].
  intros res' (Hlen & Hpre). simpl.
  assert (Htake : length (take nn res') = nn) by (rewrite length_take; lia).
  rewrite (init_full _ nn qq Htake). split; [apply wf_mk; exact Htake |].
  intros Hpos. unfold reduced. simpl. apply Forall_lookup_2.
  intros j x Hx. assert (Hj : (j < nn)%nat).
  { apply lookup_lt_Some in Hx. rewrite Htake in Hx. exact Hx. }
  rewrite lookup_take_lt in Hx by exact Hj.
  destruct (Hpre j Hj) as (y & Hy & Hrange). rewrite Hy in Hx. injection Hx as <-.
  apply Hrange. exact Hpos.
Qed.

(** C10, the claim refuted.  Two polynomials built from three
    coefficients have the default [n = 256] and [q = 3329]; their sum has
    three coefficients, not 256, and their product raises [IndexError]. *)
Lemma polynomial_sum_of_short_lists :
  let a := Polynomial.new [1; 2; 3] in
  let b := Polynomial.new [4; 5; 6] in
  Polynomial.n a = Polynomial.n b /\ Polynomial.q a = Polynomial.q b /\
  (exists c, Polynomial.__add__ a b = Ok c /\
             length (Polynomial.coeffs c) = 3%nat /\ Polynomial.n c = 256%nat) /\
  Polynomial.__mul__ a b = Raise IndexError.
Proof.
  split; [reflexivity |]. split; [reflexivity |]. split.
  - eexists. split; [vm_compute; reflexivity |]. split; reflexivity.
  - vm_compute. reflexivity.
Qed.

(** C10, amended.  When both operands carry the same [n] and the same
    positive [q] and both coefficient lists have exactly [n] entries
    (arbitrary integers), the sum, the difference and the product have
    exactly [n] coefficients, each in [0, q); when [n] or [q] differ, the
    three operations raise [ValueError]. *)
Theorem polynomial_ops_closed (a b : Polynomial.t) :
  (Polynomial.n a = Polynomial.n b -> Polynomial.q a = Polynomial.q b ->
   0 < Polynomial.q a ->
   length (Polynomial.coeffs a) = Polynomial.n a ->
   length (Polynomial.coeffs b) = Polynomial.n b ->
   let good := fun c => length (Polynomial.coeffs c) = Polynomial.n a /\
                        reduced (Polynomial.q a) c in
   returns (Polynomial.__add__ a b) good /\
   returns (Polynomial.__sub__ a b) good /\
   returns (Polynomial.__mul__ a b) good) /\
  (Polynomial.n a <> Polynomial.n b \/ Polynomial.q a <> Polynomial.q b ->
   Polynomial.__add__ a b = Raise ValueError /\
   Polynomial.__sub__ a b = Raise ValueError /\
   Polynomial.__mul__ a b = Raise ValueError).
Proof.
  split.
  - intros Hn Hq Hpos Hla Hlb good.
    assert (Ha : wf (Polynomial.n a) (Polynomial.q a) a) by (repeat split; assumption).
    assert (Hb : wf (Polynomial.n a) (Polynomial.q a) b)
      by (repeat split; congruence).
    assert (Hnz : Polynomial.q a <> 0) by lia.
    split; [| split].
    + rewrite (add_spec _ _ a b Ha Hb Hnz). simpl. split.
      * apply (length_pointwise Z.add _ _ a b Ha Hb).
      * apply reduced_pointwise. exact Hpos.
    + rewrite (sub_spec _ _ a b Ha Hb Hnz). simpl. split.
      * apply (length_pointwise Z.sub _ _ a b Ha Hb).
      * apply reduced_pointwise. exact Hpos.
    + eapply returns_weaken; [apply (mul_wf _ _ a b Ha Hb Hnz) |].
      intros c [(Hc & _) Hred]. split; [exact Hc | apply Hred; exact Hpos].
  - intros Hdiff. unfold Polynomial.__add__, Polynomial.__sub__, Polynomial.__mul__.
    rewrite (same_ring_false a b Hdiff). simpl. repeat split.
Qed.

Lemma polynomial_ops_closed_witness :
  let a := Polynomial.mk [-1; 5] 2 7 in
  let b := Polynomial.mk [3; -20] 2 7 in
  let good := fun c => length (Polynomial.coeffs c) = 2%nat /\ reduced 7 c in
  returns (Polynomial.__add__ a b) good /\
  returns (Polynomial.__sub__ a b) good /\
  returns (Polynomial.__mul__ a b) good.
Proof.
  intros a b good.
  apply (proj1 (polynomial_ops_closed a b)); [reflexivity | reflexivity | | reflexivity ..].
  simpl. lia.
Defined.

(** ** The ring of the parameter sets: 256 coefficients modulo 3329 *)

Lemma q_nonzero : 3329 <> 0.
Proof. discriminate. Qed.

Lemma new_wf (cs : list Z) : length cs = 256%nat -> wf 256 3329 (Polynomial.new cs).
Proof.
  intros H. unfold Polynomial.new. rewrite (init_full cs 256 3329 H).
  apply wf_mk. exact H.
Qed.

Lemma new_coeffs (cs : list Z) :
  length cs = 256%nat -> Polynomial.coeffs (Polynomial.new cs) = cs.
Proof.
  intros H. unfold Polynomial.new. rewrite (init_full cs 256 3329 H). reflexivity.
Qed.

Lemma const_poly_wf v : wf 256 3329 (const_poly v).
Proof. apply new_wf, repeat_length. Qed.

Lemma copy_wf p : wf 256 3329 p -> wf 256 3329 (Polynomial.copy p).
Proof.
  intros (Hl & Hn & Hq). unfold Polynomial.copy. rewrite Hn, Hq.
  rewrite (init_full _ 256 3329 Hl). apply wf_mk. exact Hl.
Qed.

Lemma add_ok a b :
  wf 256 3329 a -> wf 256 3329 b -> returns (Polynomial.__add__ a b) (wf 256 3329).
Proof. intros Ha Hb. apply (add_wf 256 3329 a b Ha Hb q_nonzero). Qed.

Lemma sub_ok a b :
  wf 256 3329 a -> wf 256 3329 b -> returns (Polynomial.__sub__ a b) (wf 256 3329).
Proof. intros Ha Hb. apply (sub_wf 256 3329 a b Ha Hb q_nonzero). Qed.

Lemma mul_ok a b :
  wf 256 3329 a -> wf 256 3329 b -> returns (Polynomial.__mul__ a b) (wf 256 3329).
Proof.
  intros Ha Hb. eapply returns_weaken; [apply (mul_wf 256 3329 a b Ha Hb q_nonzero) |].
  intros c [Hc _]. exact Hc.
Qed.

Lemma polys_ok_lookup kk ps i :
  polys_ok kk ps -> (i < kk)%nat -> exists p, ps !! i = Some p /\ wf 256 3329 p.
Proof.
  intros [Hlen Hall] Hi. destruct (lookup_lt_is_Some_2 ps i) as [p Hp]; [lia |].
  exists p. split; [exact Hp |]. exact (proj1 (Forall_lookup _ _) Hall i p Hp).
Qed.

Lemma polys_ok_item kk ps i :
  polys_ok kk ps -> (i < kk)%nat -> returns (item ps i) (wf 256 3329).
Proof.
  intros Hps Hi. destruct (polys_ok_lookup kk ps i Hps Hi) as (p & Hp & Hwf).
  rewrite (item_lookup ps i p Hp). exact Hwf.
Qed.

Lemma polys_ok_insert kk ps i p :
  polys_ok kk ps -> wf 256 3329 p -> polys_ok kk (<[i := p]> ps).
Proof.
  intros [Hlen Hall] Hp. split; [rewrite length_insert; exact Hlen |].
  apply Forall_insert; assumption.
Qed.

Lemma polys_ok_repeat kk p : wf 256 3329 p -> polys_ok kk (repeat p kk).
Proof.
  intros Hp. split; [apply repeat_length |].
  apply Forall_lookup_2. intros i x Hx. apply lookup_repeat in Hx as [-> _]. exact Hp.
Qed.

Lemma polys_ok_map {A} (f : A -> list Z) (xs : list A) :
  (forall x, length (f x) = 256%nat) ->
  polys_ok (length xs) (map (fun x => Polynomial.new (f x)) xs).
Proof.
  intros H. split; [apply length_map |].
  apply List.Forall_map, List.Forall_forall. intros x _. apply new_wf, H.
Qed.

Lemma iadd_at_spec xs i rhs x p :
  xs !! i = Some x -> rhs = Ok p -> wf 256 3329 x -> wf 256 3329 p ->
  iadd_at xs i rhs = Ok (<[i := Polynomial.mk (pointwise Z.add 3329 x p) 256 3329]> xs).
Proof.
  intros Hx -> Hwx Hwp. unfold iadd_at. rewrite (item_lookup xs i x Hx). simpl.
  rewrite (add_spec 256 3329 x p Hwx Hwp q_nonzero). reflexivity.
Qed.

Lemma iadd_at_ok kk xs i rhs :
  polys_ok kk xs -> (i < kk)%nat -> returns rhs (wf 256 3329) ->
  returns (iadd_at xs i rhs) (polys_ok kk).
Proof.
  intros Hxs Hi Hrhs.
  destruct (polys_ok_lookup kk xs i Hxs Hi) as (x & Hx & Hwx).
  apply returns_inv in Hrhs as (p & Hp & Hwp).
  rewrite (iadd_at_spec xs i rhs x p Hx Hp Hwx Hwp). simpl.
  apply polys_ok_insert; [exact Hxs |].
  apply wf_mk, (length_pointwise Z.add 3329 256 x p Hwx Hwp).
Qed.

(** [xs[i] += p] leaves the other entries alone. *)
Lemma iadd_at_frame kk xs i rhs :
  polys_ok kk xs -> (i < kk)%nat -> returns rhs (wf 256 3329) ->
  returns (iadd_at xs i rhs)
          (fun xs' => polys_ok kk xs' /\ forall j, j <> i -> xs' !! j = xs !! j).
Proof.
  intros Hxs Hi Hrhs.
  destruct (polys_ok_lookup kk xs i Hxs Hi) as (x & Hx & Hwx).
  apply returns_inv in Hrhs as (p & Hp & Hwp).
  rewrite (iadd_at_spec xs i rhs x p Hx Hp Hwx Hwp). simpl. split.
  - apply polys_ok_insert; [exact Hxs |].
    apply wf_mk, (length_pointwise Z.add 3329 256 x p Hwx Hwp).
  - intros j Hj. apply list_lookup_insert_ne. congruence.
Qed.

Lemma matrix_ok_entry kk A i j :
  matrix_ok kk A -> (i < kk)%nat -> (j < kk)%nat ->
  returns (Ai <- item A i ;; item Ai j) (wf 256 3329).
Proof.
  intros [Hlen Hall] Hi Hj.
  destruct (item_lt A i) as (row & Hrow & ->); [lia |]. simpl.
  destruct (proj1 (Forall_lookup _ _) Hall i row Hrow) as [Hrl Hrw].
  apply (polys_ok_item kk row j); [split; assumption | exact Hj].
Qed.

(** * The forward transform runs off the end of [ZETAS] *)

Lemma length_ZETAS : length ZETAS = 128%nat.
Proof. reflexivity. Qed.

Lemma getitem_ZETAS (i : Z) : 0 <= i < 128 -> exists zeta, getitem ZETAS i = Ok zeta.
Proof.
  intros Hi. unfold getitem. destruct (Z.ltb_spec i 0) as [Hn|_]; [lia |].
  destruct (Z.ltb_spec i 0) as [Hn|_]; [lia |].
  destruct (item_lt ZETAS (Z.to_nat i)) as (z & _ & Hz); [rewrite length_ZETAS; lia |].
  exists z. exact Hz.
Qed.

Lemma getitem_ZETAS_128 : getitem ZETAS 128 = Raise IndexError.
Proof. reflexivity. Qed.

Lemma ntt_butterfly_length q zeta distance j res :
  q <> 0 -> (j + distance < length res)%nat ->
  returns (ntt_butterfly q zeta distance j res) (fun res' => length res' = length res).
Proof.
  intros Hq Hj. unfold ntt_butterfly.
  destruct (item_lt res (j + distance)) as (hi & _ & ->); [lia |]. simpl.
  rewrite (py_mod_Ok _ q Hq). simpl.
  destruct (item_lt res j) as (lo & _ & ->); [lia |]. simpl.
  rewrite (py_mod_Ok _ q Hq). simpl.
  destruct (item_lt (<[(j + distance)%nat := (lo - zeta * hi mod q) mod q]> res) j)
    as (lo' & _ & ->); [rewrite length_insert; lia |]. simpl.
  rewrite (py_mod_Ok _ q Hq). simpl.
  rewrite !length_insert. reflexivity.
Qed.

(** Level 0 pairs neighbours: 128 groups, one table entry each. *)
Lemma ntt_level_0 q (cs : list Z) :
  q <> 0 -> length cs = 256%nat ->
  returns (ntt_level q 0 (cs, 0))
          (fun st => length (fst st) = 256%nat /\ snd st = 128).
Proof.
  intros Hq Hcs. unfold ntt_level.
  change (Nat.shiftl 1 0) with 1%nat. change (Nat.shiftl 1 1) with 2%nat.
  assert (Hlen : length (range3 0 256 2) = 128%nat) by reflexivity.
  pose (I := fun (t : nat) (st : list Z * Z) =>
               length (fst st) = 256%nat /\ snd st = Z.of_nat t).
  assert (H : returns (for_ (range3 0 256 2) (ntt_group q 1) (cs, 0))
                      (I (length (range3 0 256 2)))).
  2: { rewrite Hlen in H. exact H. }
  apply returns_for with (I := I).
  - split; [exact Hcs | reflexivity].
  - intros t start [res k] Hstart [Hres Hk]. simpl in Hres, Hk. subst k.
    apply range3_lookup in Hstart as [-> Ht].
    change ((256 - 0 + 2 - 1) / 2)%nat with 128%nat in Ht.
    unfold ntt_group. simpl fst. simpl snd.
    destruct (getitem_ZETAS (Z.of_nat t)) as (zeta & ->); [lia |]. simpl bind.
    rewrite range2_single, for_single.
    eapply returns_bind; [apply ntt_butterfly_length; [exact Hq | lia] |].
    intros res' Hres'. simpl in Hres'. unfold I. simpl. split; [congruence | lia].
Qed.

(** Level 1 asks for [ZETAS[128]] before it touches the coefficients. *)
Lemma ntt_level_1 q (res : list Z) : ntt_level q 1 (res, 128) = Raise IndexError.
Proof.
  unfold ntt_level.
  change (range3 0 256 (Nat.shiftl (Nat.shiftl 1 1) 1)) with (0%nat :: range3 4 256 4).
  rewrite for_cons. unfold ntt_group at 1. simpl snd.
  rewrite getitem_ZETAS_128. reflexivity.
Qed.

Lemma ntt_raises (p : Polynomial.t) :
  length (Polynomial.coeffs p) = 256%nat -> Polynomial.q p <> 0 ->
  ntt p = Raise IndexError.
Proof.
  intros Hlen Hq. unfold ntt. rewrite Hlen. simpl negb. cbv iota.
  change (range 7) with (0%nat :: 1%nat :: range2 2 7).
  rewrite for_cons.
  match goal with
  | |- bind (bind ?m ?f) ?g = _ =>
      assert (Hm : bind m f = Raise IndexError); [| rewrite Hm; reflexivity]
  end.
  eapply raises_bind; [apply ntt_level_0; [exact Hq | exact Hlen] |].
  intros [res k] [_ Hk]. simpl in Hk. subst k.
  rewrite for_cons, ntt_level_1. reflexivity.
Qed.

(** C3 (as the code behaves).  For every polynomial with 256 coefficients
    in [0, q), q = 3329, [ntt] raises [IndexError], so [invntt(ntt(p))]
    yields no polynomial at all. *)
Theorem ntt_then_invntt_raises (p : Polynomial.t) :
  length (Polynomial.coeffs p) = 256%nat -> Polynomial.q p = 3329 ->
  Forall (fun x => 0 <= x < 3329) (Polynomial.coeffs p) ->
  (y <- ntt p ;; invntt y) = Raise IndexError.
Proof.
  intros Hlen Hq _. rewrite (ntt_raises p Hlen); [reflexivity |].
  rewrite Hq. exact q_nonzero.
Qed.

Lemma ntt_then_invntt_raises_witness :
  let p := ntt_Polynomial ([1; 1; 1] ++ repeat 0 253) 3329 in
  length (Polynomial.coeffs p) = 256%nat /\ Polynomial.q p = 3329 /\
  Forall (fun x => 0 <= x < 3329) (Polynomial.coeffs p) /\
  (y <- ntt p ;; invntt y) = Raise IndexError.
Proof.
  assert (Hr : Forall (fun x => 0 <= x < 3329) ([1; 1; 1] ++ repeat 0 253)).
  { apply Forall_app. split; [repeat constructor; lia |].
    apply Forall_lookup_2. intros i x Hx. apply lookup_repeat in Hx as [-> _]. lia. }
  split; [reflexivity |]. split; [reflexivity |]. split; [exact Hr |].
  apply (ntt_then_invntt_raises (ntt_Polynomial ([1; 1; 1] ++ repeat 0 253) 3329));
    [reflexivity | reflexivity | exact Hr].
Defined.

(** * Compression of coefficients *)

Lemma roundtrip_close_all :
  forallb (fun d => forallb (fun i => roundtrip_close d (Z.of_nat i)) (seq 0 3329))
          [1; 4; 5; 10; 11]%nat = true.
Proof. vm_compute. reflexivity. Qed.

(** C4.  For d in {1, 4, 5, 10, 11} and x in [0, 3329), compressing with
    [((x << d) + q // 2) // q] and decompressing with
    [(y * q + (1 << (d - 1))) >> d] gives a value whose centred difference
    from x modulo q is at most the ceiling of q / 2^(d+1) in absolute
    value; the bytes stored in the ciphertext for the compressed value
    decompress to the same value. *)
Theorem compress_decompress_close (d : nat) (x : Z) :
  In d [1; 4; 5; 10; 11]%nat -> 0 <= x < 3329 ->
  exists y z, compress_coeff d 3329 x = Ok y /\ decompress_coeff d 3329 y = Ok z /\
              read_coeff d 3329 (compressed_bytes d y) 0 = Ok z /\
              centered_abs 3329 (z - x) <= compression_bound 3329 d.
Proof.
  intros Hd Hx. pose proof roundtrip_close_all as H.
  rewrite forallb_forall in H. specialize (H d Hd).
  rewrite forallb_forall in H. specialize (H (Z.to_nat x)).
  rewrite Z2Nat.id in H by lia.
  assert (Hin : In (Z.to_nat x) (seq 0 3329)) by (apply in_seq; lia).
  specialize (H Hin). unfold roundtrip_close in H.
  destruct (compress_coeff d 3329 x) as [y|] eqn:Hy; [| discriminate].
  destruct (read_coeff d 3329 (compressed_bytes d y) 0) as [z'|] eqn:Hz'; [| discriminate].
  destruct (decompress_coeff d 3329 y) as [z|] eqn:Hz; [| discriminate].
  apply andb_true_iff in H as [Heq Hle]. apply Z.eqb_eq in Heq. subst z'.
  exists y, z. split; [reflexivity |]. split; [exact Hz |]. split; [exact Hz' |].
  apply Z.leb_le. exact Hle.
Qed.

Lemma compress_decompress_close_witness :
  In 10%nat [1; 4; 5; 10; 11]%nat /\ 0 <= 3328 < 3329 /\
  exists y z, compress_coeff 10 3329 3328 = Ok y /\ decompress_coeff 10 3329 y = Ok z /\
              read_coeff 10 3329 (compressed_bytes 10 y) 0 = Ok z /\
              centered_abs 3329 (z - 3328) <= compression_bound 3329 10.
Proof.
  assert (Hd : In 10%nat [1; 4; 5; 10; 11]%nat) by (simpl; tauto).
  split; [exact Hd |]. split; [lia |].
  apply (compress_decompress_close 10 3328 Hd). lia.
Defined.

Lemma width_pos d : (1 <= width d <= 2)%nat.
Proof. unfold width. destruct (d <=? 8)%nat; lia. Qed.

Lemma length_compressed_bytes d y : length (compressed_bytes d y) = width d.
Proof.
  unfold compressed_bytes, width.
  destruct (Nat.ltb_spec 8 d), (Nat.leb_spec d 8); simpl; lia.
Qed.

Lemma length_poly_bytes d q p :
  length (poly_bytes d q p) = (width d * length (Polynomial.coeffs p))%nat.
Proof.
  unfold poly_bytes. apply length_flat_map_uniform.
  intros x. apply length_compressed_bytes.
Qed.

Lemma compress_poly_app d q p c :
  q <> 0 -> compress_poly d q p c = Ok (c ++ poly_bytes d q p).
Proof.
  intros Hq. unfold compress_poly, poly_bytes.
  revert c. induction (Polynomial.coeffs p) as [|x xs IH]; intros c.
  - simpl. rewrite app_nil_r. reflexivity.
  - rewrite for_cons. unfold compress_coeff at 1. rewrite (py_div_Ok _ q Hq).
    simpl bind. rewrite IH. simpl flat_map. rewrite <- app_assoc. reflexivity.
Qed.

(** Reading one coefficient needs [width d] bytes at the cursor. *)
Lemma read_coeff_ok d q c pos :
  (0 < d)%nat -> (pos + width d <= length c)%nat ->
  exists z, read_coeff d q c pos = Ok z.
Proof.
  intros Hd Hpos. unfold read_coeff, decompress_coeff, width in *.
  destruct (Nat.eqb_spec d 0) as [->|_]; [lia |].
  destruct (Nat.leb_spec d 8).
  - destruct (item_lt c pos) as (b & _ & ->); [lia |]. simpl. eauto.
  - destruct (item_lt c pos) as (lo & _ & ->); [lia |].
    destruct (item_lt c (pos + 1)) as (hi & _ & ->); [lia |]. simpl. eauto.
Qed.

Lemma read_coeff_short d q c pos :
  (length c < pos + width d)%nat -> read_coeff d q c pos = Raise IndexError.
Proof.
  intros Hpos. unfold read_coeff, width in *.
  destruct (Nat.leb_spec d 8).
  - rewrite item_ge by lia. reflexivity.
  - destruct (Nat.le_gt_cases (length c) pos) as [Hle|Hgt].
    + rewrite item_ge by lia. reflexivity.
    + destruct (item_lt c pos) as (lo & _ & ->); [lia |].
      rewrite item_ge by lia. reflexivity.
Qed.

Lemma read_coeff_cases d q c pos :
  (0 < d)%nat -> (exists z, read_coeff d q c pos = Ok z)
                 \/ read_coeff d q c pos = Raise IndexError.
Proof.
  intros Hd. destruct (Nat.le_gt_cases (pos + width d) (length c)) as [H|H].
  - left. apply read_coeff_ok; assumption.
  - right. apply read_coeff_short. exact H.
Qed.

Lemma read_row_cases d q c (g : nat -> nat) (m : nat) :
  (0 < d)%nat ->
  (exists p, (coeffs <- mapM (fun b => read_coeff d q c (g b)) (range m) ;;
              Ok (Polynomial.new coeffs)) = Ok p)
  \/ (coeffs <- mapM (fun b => read_coeff d q c (g b)) (range m) ;;
      Ok (Polynomial.new coeffs)) = Raise IndexError.
Proof.
  intros Hd.
  destruct (mapM_cases (fun b => read_coeff d q c (g b)) (range m) IndexError)
    as [(ys & -> & _) | ->].
  - intros b. apply read_coeff_cases. exact Hd.
  - left. simpl. eauto.
  - right. reflexivity.
Qed.

Lemma head_bytes_differ_all :
  forallb (fun de => forallb (fun i => head_bytes_differ (fst de) (snd de) (Z.of_nat i))
                             (seq 0 3329))
          [(10%nat, 3); (10%nat, 2); (11%nat, 2)] = true.
Proof. vm_compute. reflexivity. Qed.

Lemma head_bytes_mod d r v : head_bytes d (r mod 3329) v = head_bytes d r v.
Proof. unfold head_bytes. rewrite Zplus_mod_idemp_l. reflexivity. Qed.

Lemma length_head_bytes d r v : length (head_bytes d r v) = width d.
Proof. apply length_compressed_bytes. Qed.

Lemma poly_bytes_head d (acc : Polynomial.t) :
  wf 256 3329 acc ->
  exists a, forall v, exists rest,
    poly_bytes d 3329 (Polynomial.mk (pointwise Z.add 3329 acc (const_poly v)) 256 3329)
    = head_bytes d a v ++ rest.
Proof.
  intros (Hl & _). unfold poly_bytes, pointwise, const_poly.
  destruct (Polynomial.coeffs acc) as [|a cs] eqn:Hcs; [discriminate |].
  exists a. intros v. rewrite new_coeffs by apply repeat_length. cbn [Polynomial.coeffs].
  change (repeat v 256) with (v :: repeat v 255).
  eexists. simpl zip_with. simpl map. simpl flat_map. reflexivity.
Qed.

Lemma head_bytes_neq params (a : Z) :
  valid_params params ->
  head_bytes (du params) a (1 * Z.of_nat (eta1 params))
  <> head_bytes (du params) a (-1 * Z.of_nat (eta1 params)).
Proof.
  intros Hv Heq. pose proof head_bytes_differ_all as H.
  rewrite forallb_forall in H.
  specialize (H (du params, Z.of_nat (eta1 params))).
  assert (Hin : In (du params, Z.of_nat (eta1 params))
                   [(10%nat, 3); (10%nat, 2); (11%nat, 2)]).
  { destruct Hv as [-> | [-> | ->]]; simpl; tauto. }
  specialize (H Hin). rewrite forallb_forall in H.
  specialize (H (Z.to_nat (a mod 3329))).
  assert (Hr : 0 <= a mod 3329 < 3329) by (apply Z.mod_pos_bound; lia).
  rewrite Z2Nat.id in H by lia.
  specialize (H ltac:(apply in_seq; lia)).
  unfold head_bytes_differ in H. cbn [fst snd] in H.
  rewrite !head_bytes_mod in H.
  replace (1 * Z.of_nat (eta1 params)) with (Z.of_nat (eta1 params)) in Heq by lia.
  replace (-1 * Z.of_nat (eta1 params)) with (- Z.of_nat (eta1 params)) in Heq by lia.
  rewrite Heq, bytes_eqb_refl in H. discriminate.
Qed.

(** * Messages and polynomials *)

Lemma decode_message_wf (m : bytes) :
  length m = 32%nat -> wf 256 3329 (decode_message m 256).
Proof.
  intros H. unfold decode_message. apply new_wf.
  rewrite length_take, (length_flat_map_uniform _ 8%nat) by (intros b; reflexivity).
  rewrite H. reflexivity.
Qed.

(** C5, the claim refuted.  The message whose first byte is 1 gives a
    polynomial whose coefficient 0 is 1: neither 0 nor 1665. *)
Lemma decode_message_coefficient_is_bit :
  length (x01 :: repeat x00 31) = 32%nat /\
  Polynomial.coeffs (decode_message (x01 :: repeat x00 31) 256) !! 0%nat = Some 1 /\
  1 <> 0 /\ 1 <> 1665.
Proof. repeat split; try discriminate; vm_compute; reflexivity. Qed.

(** C5, amended.  A 32-byte message becomes a polynomial with exactly
    256 coefficients, each 0 or 1; coefficient [i * 8 + j] is bit [j]
    (least significant first) of byte [i] of the message. *)
Theorem decode_message_bits (msg : bytes) :
  length msg = 32%nat ->
  length (Polynomial.coeffs (decode_message msg 256)) = 256%nat /\
  Forall (fun c => c = 0 \/ c = 1) (Polynomial.coeffs (decode_message msg 256)) /\
  forall (i j : nat) (b : byte),
    msg !! i = Some b -> (j < 8)%nat ->
    Polynomial.coeffs (decode_message msg 256) !! (i * 8 + j)%nat
    = Some (Z.b2z (Z.testbit (Z_of_byte b) (Z.of_nat j))).
Proof.
  intros Hlen. pose proof (decode_message_wf msg Hlen) as (Hcs & _).
  split; [exact Hcs |]. unfold decode_message in *.
  set (bits := fun byte : byte =>
                 map (fun i => Z.land (Z.shiftr (Z_of_byte byte) (Z.of_nat i)) 1) (range 8))
    in *.
  assert (Hfull : length (flat_map bits msg) = 256%nat).
  { rewrite (length_flat_map_uniform bits 8) by (intros b; reflexivity).
    rewrite Hlen. reflexivity. }
  rewrite new_coeffs by (rewrite length_take; lia).
  rewrite take_ge by lia. split.
  - apply List.Forall_forall. intros c Hc. apply in_flat_map in Hc as (b & _ & Hc).
    unfold bits in Hc. apply in_map_iff in Hc as (j & <- & _).
    rewrite land_1_bit. destruct (Z.testbit (Z_of_byte b) (Z.of_nat j)); simpl; tauto.
  - intros i j b Hb Hj.
    apply (lookup_flat_map_uniform bits 8 msg i j b); [reflexivity | exact Hb |].
    unfold bits. rewrite lookup_map. unfold range.
    rewrite (lookup_seq_lt 0 8 j Hj). simpl. rewrite land_1_bit. reflexivity.
Qed.

Lemma decode_message_bits_witness :
  length (x01 :: repeat x00 31) = 32%nat /\
  length (Polynomial.coeffs (decode_message (x01 :: repeat x00 31) 256)) = 256%nat.
Proof.
  split; [reflexivity |].
  apply (decode_message_bits (x01 :: repeat x00 31)). reflexivity.
Defined.

Lemma length_encode_message (p : Polynomial.t) :
  length (Polynomial.coeffs p) = 256%nat -> length (encode_message p 256) = 32%nat.
Proof.
  intros H. unfold encode_message. rewrite length_map, length_range3, length_map.
  rewrite length_take, H. reflexivity.
Qed.

(** C6, the claim refuted.  In a polynomial with coefficients in [0, q),
    the coefficient 0 is decoded to bit 0 although
    [min(c mod q, q - c mod q) <= q / 4] holds for it, and the coefficient
    1 is decoded to bit 1 although it is closer to 0 than to q / 2. *)
Lemma encode_message_is_not_centered :
  let p := Polynomial.new (0 :: 1 :: repeat 0 254) in
  Forall (fun c => 0 <= c < 3329) (Polynomial.coeffs p) /\
  exists b, encode_message p 256 !! 0%nat = Some b /\
            Z.testbit (Z_of_byte b) 0 = false /\ centered_bit_spec 3329 0 = true /\
            Z.testbit (Z_of_byte b) 1 = true /\ Z.abs (1 - 0) < Z.abs (1 - 3329 / 2).
Proof.
  split.
  - apply List.Forall_forall. intros c Hc. vm_compute in Hc.
    repeat (destruct Hc as [<- | Hc]; [lia |]). contradiction.
  - exists x02. repeat split; vm_compute; reflexivity.
Qed.

(** One byte of [encode_message], from the eight bits it packs. *)
Lemma pack_byte_bits (bits : list Z) (s : nat) (b0 b1 b2 b3 b4 b5 b6 b7 : bool) :
  bits !! (s + 0)%nat = Some (Z.b2z b0) -> bits !! (s + 1)%nat = Some (Z.b2z b1) ->
  bits !! (s + 2)%nat = Some (Z.b2z b2) -> bits !! (s + 3)%nat = Some (Z.b2z b3) ->
  bits !! (s + 4)%nat = Some (Z.b2z b4) -> bits !! (s + 5)%nat = Some (Z.b2z b5) ->
  bits !! (s + 6)%nat = Some (Z.b2z b6) -> bits !! (s + 7)%nat = Some (Z.b2z b7) ->
  forall j, (j < 8)%nat ->
    Z.testbit (Z_of_byte (byte_of_Z (pack_byte bits s))) (Z.of_nat j)
    = nth j [b0; b1; b2; b3; b4; b5; b6; b7] false.
Proof.
  intros H0 H1 H2 H3 H4 H5 H6 H7 j Hj. unfold pack_byte, range. simpl fold_left.
  rewrite H0, H1, H2, H3, H4, H5, H6, H7.
  do 8 (destruct j as [|j]; [destruct b0, b1, b2, b3, b4, b5, b6, b7; reflexivity |]).
  lia.
Qed.

(** C6, amended.  [encode_message] turns a polynomial of 256 integer
    coefficients into 32 bytes; bit [j] of byte [i] is 1 exactly when
    coefficient [i * 8 + j] is greater than 0. *)
Theorem encode_message_bits (poly : Polynomial.t) :
  length (Polynomial.coeffs poly) = 256%nat ->
  length (encode_message poly 256) = 32%nat /\
  forall (i j : nat) (c : Z),
    (i < 32)%nat -> (j < 8)%nat ->
    Polynomial.coeffs poly !! (i * 8 + j)%nat = Some c ->
    exists b, encode_message poly 256 !! i = Some b /\
              Z.testbit (Z_of_byte b) (Z.of_nat j) = (0 <? c).
Proof.
  intros Hlen. split; [apply length_encode_message; exact Hlen |].
  intros i j c Hi Hj Hc. unfold encode_message.
  rewrite take_ge by lia.
  set (bits := map (fun coeff => if 0 <? coeff then 1 else 0) (Polynomial.coeffs poly)).
  assert (Hbl : length bits = 256%nat) by (unfold bits; rewrite length_map; exact Hlen).
  eexists. split.
  { rewrite Hbl, lookup_map. unfold range3.
    rewrite lookup_map, (lookup_seq_lt 0 _ i) by (simpl; lia). reflexivity. }
  assert (Hbit : forall t, (t < 8)%nat ->
            exists ct, Polynomial.coeffs poly !! (i * 8 + t)%nat = Some ct /\
                       bits !! (0 + i * 8 + t)%nat = Some (Z.b2z (0 <? ct))).
  { intros t Ht. destruct (lookup_lt_is_Some_2 (Polynomial.coeffs poly) (i * 8 + t))
      as [ct Hct]; [lia |].
    exists ct. split; [exact Hct |]. unfold bits. rewrite lookup_map.
    simpl. rewrite Hct. reflexivity. }
  destruct (Hbit 0%nat) as (c0 & Hc0 & Hb0); [lia |].
  destruct (Hbit 1%nat) as (c1 & Hc1 & Hb1); [lia |].
  destruct (Hbit 2%nat) as (c2 & Hc2 & Hb2); [lia |].
  destruct (Hbit 3%nat) as (c3 & Hc3 & Hb3); [lia |].
  destruct (Hbit 4%nat) as (c4 & Hc4 & Hb4); [lia |].
  destruct (Hbit 5%nat) as (c5 & Hc5 & Hb5); [lia |].
  destruct (Hbit 6%nat) as (c6 & Hc6 & Hb6); [lia |].
  destruct (Hbit 7%nat) as (c7 & Hc7 & Hb7); [lia |].
  change (0 + (0 + i) * 8)%nat with (0 + i * 8)%nat.
  rewrite (pack_byte_bits bits (0 + i * 8) _ _ _ _ _ _ _ _ Hb0 Hb1 Hb2 Hb3 Hb4 Hb5 Hb6 Hb7 j Hj).
  do 8 (destruct j as [|j]; [simpl; congruence |]). lia.
Qed.

Lemma encode_message_bits_witness :
  length (Polynomial.coeffs (Polynomial.new (0 :: 1 :: repeat 0 254))) = 256%nat /\
  length (encode_message (Polynomial.new (0 :: 1 :: repeat 0 254)) 256) = 32%nat.
Proof.
  split; [reflexivity |].
  apply (encode_message_bits (Polynomial.new (0 :: 1 :: repeat 0 254))). reflexivity.
Defined.

(** * Sampling *)

Lemma urandom_spec len s :
  urandom len s = Ok (map s (seq 0 len), fun i => s (len + i)%nat).
Proof. reflexivity. Qed.

Lemma urandom_returns len s (J : byte -> Prop) :
  pool J s ->
  returnsM (urandom len) s (fun bs s' => bs = map s (seq 0 len) /\ pool J s').
Proof.
  intros Hs. unfold returnsM. rewrite urandom_spec. split; [reflexivity |].
  intros i. apply Hs.
Qed.

Lemma pool_True s : pool (fun _ => True) s.
Proof. intros i. exact I. Qed.

Lemma noise_coeff_spec (J : byte -> Prop) (sgn : Z) eta s :
  pool J s ->
  returnsM (noise_coeff eta) s
           (fun v s' => pool J s' /\ ((forall b, J b -> sign_of b = sgn) ->
                                      v = sgn * Z.of_nat eta)).
Proof.
  intros Hs. unfold noise_coeff.
  pose (I := fun (t : nat) (acc : Z) (s' : entropy) =>
               pool J s' /\ ((forall b, J b -> sign_of b = sgn) -> acc = sgn * Z.of_nat t)).
  assert (H : returnsM (forM (range eta)
                          (fun _ acc => b <~ urandom 1 ;; b0 <~ lift (item b 0) ;;
                                        ret (acc + (if Z_of_byte b0 <? 128 then 1 else -1)))
                          0) s (I (length (range eta)))).
  2: { rewrite length_range in H. exact H. }
  apply returnsM_for with (I := I).
  - split; [exact Hs | intros _; lia].
  - intros t x acc e _ [He Hacc]. unfold returnsM, bindM. rewrite urandom_spec.
    simpl. split.
    + intros i. apply He.
    + intros Hsgn. rewrite (Hacc Hsgn). specialize (Hsgn (e O) (He O)).
      unfold sign_of in Hsgn. rewrite Hsgn. lia.
Qed.

Lemma sample_noise_poly_spec (J : byte -> Prop) (sgn : Z) eta s :
  pool J s ->
  returnsM (sample_noise_poly eta 256) s
           (fun p s' => pool J s' /\ wf 256 3329 p /\
                        ((forall b, J b -> sign_of b = sgn) ->
                         p = Polynomial.new (repeat (sgn * Z.of_nat eta) 256))).
Proof.
  intros Hs. unfold sample_noise_poly.
  eapply returnsM_bind.
  - apply returnsM_mapMM
      with (P := fun v => (forall b, J b -> sign_of b = sgn) -> v = sgn * Z.of_nat eta)
           (I := pool J); [exact Hs |].
    intros _ e He. eapply returnsM_weaken; [apply (noise_coeff_spec J sgn eta e He) |].
    intros v e' [He' Hv]. split; assumption.
  - intros cs s' (Hall & Hlen & Hs'). rewrite length_range in Hlen.
    apply returnsM_ret. split; [exact Hs' |]. split; [apply new_wf; exact Hlen |].
    intros Hsgn. f_equal. apply list_eq_same_length with (n := 256%nat);
      [apply repeat_length | exact Hlen |].
    intros i x y Hi Hx Hy. apply lookup_repeat in Hy as [-> _]. 
    eapply (proj1 (Forall_lookup _ _) Hall); eassumption.
Qed.

Lemma sample_noise_list_spec (J : byte -> Prop) (sgn : Z) eta kk s :
  pool J s ->
  returnsM (mapMM (fun _ : nat => sample_noise_poly eta 256) (range kk)) s
           (fun ps s' => pool J s' /\ length ps = kk /\ Forall (wf 256 3329) ps /\
                         ((forall b, J b -> sign_of b = sgn) ->
                          ps = repeat (Polynomial.new (repeat (sgn * Z.of_nat eta) 256)) kk)).
Proof.
  intros Hs. eapply returnsM_weaken.
  - apply returnsM_mapMM
      with (P := fun p => wf 256 3329 p /\
                          ((forall b, J b -> sign_of b = sgn) ->
                           p = Polynomial.new (repeat (sgn * Z.of_nat eta) 256)))
           (I := pool J); [exact Hs |].
    intros _ e He. eapply returnsM_weaken; [apply (sample_noise_poly_spec J sgn eta e He) |].
    intros p e' (He' & Hwf & Hp). split; [split; [exact Hwf | exact Hp] | exact He'].
  - intros ps s' (Hall & Hlen & Hs'). rewrite length_range in Hlen.
    split; [exact Hs' |]. split; [exact Hlen |]. split.
    + eapply Forall_impl; [exact Hall | intros p [Hp _]; exact Hp].
    + intros Hsgn. apply list_eq_same_length with (n := kk);
        [apply repeat_length | exact Hlen |].
      intros i x y Hi Hx Hy. apply lookup_repeat in Hy as [-> _].
      destruct (proj1 (Forall_lookup _ _) Hall i x Hx) as [_ Hp]. apply Hp. exact Hsgn.
Qed.

Lemma sample_poly_from_seed_wf seed eta : wf 256 3329 (sample_poly_from_seed seed eta 256).
Proof.
  unfold sample_poly_from_seed. apply new_wf. rewrite length_map. apply length_range.
Qed.

Lemma bytes_of_ints_pair (i j : nat) :
  (i < 256)%nat -> (j < 256)%nat ->
  bytes_of_ints [i; j] = Ok [byte_of_Z (Z.of_nat i); byte_of_Z (Z.of_nat j)].
Proof.
  intros Hi Hj. unfold bytes_of_ints. simpl.
  apply Nat.ltb_lt in Hi, Hj. rewrite Hi, Hj. reflexivity.
Qed.

Lemma length_entry_coeffs stream nn qq : length (entry_coeffs stream nn qq) = nn.
Proof. unfold entry_coeffs. rewrite length_map. apply length_range. Qed.

Lemma entry_coeffs_lookup stream nn qq c :
  (c < nn)%nat ->
  entry_coeffs stream nn qq !! c
  = Some (from_bytes_little (slice stream (3 * c) (3 * c + 3)) mod qq).
Proof.
  intros Hc. unfold entry_coeffs. rewrite lookup_map. unfold range.
  rewrite lookup_seq_lt by exact Hc. reflexivity.
Qed.

Lemma matrix_entry_closed rho params i j :
  (i < 256)%nat -> (j < 256)%nat -> q params <> 0 ->
  matrix_entry rho params i j =
  Ok (Polynomial.new
        (entry_coeffs (prf (rho ++ [byte_of_Z (Z.of_nat i); byte_of_Z (Z.of_nat j)])
                           (n params * 3))
                      (n params) (q params))).
Proof.
  intros Hi Hj Hq. unfold matrix_entry. rewrite (bytes_of_ints_pair i j Hi Hj). simpl bind.
  rewrite (mapM_map _ (fun c => from_bytes_little
                                  (slice (prf (rho ++ [byte_of_Z (Z.of_nat i);
                                                       byte_of_Z (Z.of_nat j)])
                                              (n params * 3))
                                         (3 * c) (3 * c + 3)) mod q params))
    by (intros c; apply py_mod_Ok; exact Hq).
  reflexivity.
Qed.

(** * Accumulation loops of key generation and encryption *)

(** The accumulation [for j in range(k): t[i] += A[i][j] * s[j]]. *)
Lemma keygen_row_ok kk A s t i :
  matrix_ok kk A -> polys_ok kk s -> polys_ok kk t -> (i < kk)%nat ->
  returns (for_ (range kk)
             (fun j t => iadd_at t i (Ai <- item A i ;; Aij <- item Ai j ;;
                                      sj <- item s j ;; Polynomial.__mul__ Aij sj))
             t)
          (polys_ok kk).
Proof.
  intros HA Hs Ht Hi.
  eapply returns_weaken;
    [apply returns_for with (I := fun _ t => polys_ok kk t); [exact Ht |] | auto].
  intros j x t' Hx Ht'. apply range_lookup in Hx as [-> Hj].
  apply (iadd_at_ok kk t' i); [exact Ht' | exact Hi |].
  pose proof (matrix_ok_entry kk A i j HA Hi Hj) as Hent.
  destruct (item A i) as [Ai|]; [simpl in * | contradiction].
  eapply returns_bind; [exact Hent |]. intros Aij HAij.
  eapply returns_bind; [apply (polys_ok_item kk s j Hs Hj) |]. intros sj Hsj.
  apply mul_ok; assumption.
Qed.

(** The accumulation [for j in range(k): u[i] += A[j][i] * r_poly]. *)
Lemma encrypt_row_ok kk A r_poly u i :
  matrix_ok kk A -> wf 256 3329 r_poly -> polys_ok kk u -> (i < kk)%nat ->
  returns (for_ (range kk)
             (fun j u => iadd_at u i (Aj <- item A j ;; Aji <- item Aj i ;;
                                      Polynomial.__mul__ Aji r_poly))
             u)
          (fun u' => polys_ok kk u' /\ forall j, j <> i -> u' !! j = u !! j).
Proof.
  intros HA Hr Hu Hi.
  eapply returns_weaken;
    [apply returns_for
       with (I := fun _ u' => polys_ok kk u' /\ forall j, j <> i -> u' !! j = u !! j);
     [split; [exact Hu | reflexivity] |] | auto].
  intros j x u' Hx [Hu' Hfr]. apply range_lookup in Hx as [-> Hj].
  eapply returns_weaken.
  - apply (iadd_at_frame kk u' i); [exact Hu' | exact Hi |].
    pose proof (matrix_ok_entry kk A j i HA Hj Hi) as Hent.
    destruct (item A j) as [Aj|]; [simpl in * | contradiction].
    eapply returns_bind; [exact Hent |]. intros Aji HAji.
    apply mul_ok; assumption.
  - intros u2 [Hu2 Hfr2]. split; [exact Hu2 |].
    intros j' Hj'. rewrite (Hfr2 j' Hj'). apply Hfr. exact Hj'.
Qed.

Lemma encrypt_v_ok kk t r_poly v0 :
  polys_ok kk t -> wf 256 3329 r_poly -> wf 256 3329 v0 ->
  returns (for_ (range kk)
             (fun i v => ti <- item t i ;; p <- Polynomial.__mul__ ti r_poly ;;
                         Polynomial.__add__ v p)
             v0)
          (wf 256 3329).
Proof.
  intros Ht Hr Hv0.
  eapply returns_weaken;
    [apply returns_for with (I := fun _ v => wf 256 3329 v); [exact Hv0 |] | auto].
  intros i x v Hx Hv. apply range_lookup in Hx as [-> Hi].
  eapply returns_bind; [apply (polys_ok_item kk t i Ht Hi) |]. intros ti Hti.
  eapply returns_bind; [apply (mul_ok ti r_poly Hti Hr) |]. intros p Hp.
  apply (add_ok v p Hv Hp).
Qed.

(** * The encryption layer on a parameter set *)

Lemma valid_params_shape params :
  valid_params params ->
  n params = 256%nat /\ q params = 3329 /\ (0 < k params <= 256)%nat /\
  (0 < du params)%nat /\ (0 < dv params)%nat.
Proof.
  intros [-> | [-> | ->]]; simpl; repeat split; lia.
Qed.

Section ParameterSet.

(** What the lemmas below use of a parameter set; the three sets of
    [kyber/params.py] satisfy it ([valid_params_shape]). *)
Variable params : KyberParams.
Hypothesis Hn : n params = 256%nat.
Hypothesis Hq : q params = 3329.
Hypothesis Hk : (0 < k params)%nat.
Hypothesis Hk' : (k params <= 256)%nat.
Hypothesis Hdu : (0 < du params)%nat.
Hypothesis Hdv : (0 < dv params)%nat.

Lemma q_params_nonzero : q params <> 0.
Proof. rewrite Hq. exact q_nonzero. Qed.

Lemma zero_poly_wf : wf 256 3329 (zero_poly params).
Proof. unfold zero_poly. apply new_wf. rewrite repeat_length. exact Hn. Qed.

(** ** The matrix *)

Lemma generate_matrix_A_closed rho :
  generate_matrix_A rho params =
  Ok (map (fun i =>
             map (fun j =>
                    Polynomial.new
                      (entry_coeffs
                         (prf (rho ++ [byte_of_Z (Z.of_nat i); byte_of_Z (Z.of_nat j)]) 768)
                         256 3329))
                 (range (k params)))
          (range (k params))).
Proof.
  unfold generate_matrix_A.
  apply mapM_map_In. intros i Hi. apply In_range in Hi.
  apply mapM_map_In. intros j Hj. apply In_range in Hj.
  rewrite matrix_entry_closed by first [lia | exact q_params_nonzero].
  rewrite Hn, Hq. reflexivity.
Qed.

Lemma generate_matrix_A_ok rho :
  returns (generate_matrix_A rho params) (matrix_ok (k params)).
Proof.
  rewrite generate_matrix_A_closed. simpl. split; [rewrite length_map; apply length_range |].
  apply List.Forall_map, List.Forall_forall. intros i _.
  split; [rewrite length_map; apply length_range |].
  apply List.Forall_map, List.Forall_forall. intros j _.
  apply new_wf, length_entry_coeffs.
Qed.

(** ** Key generation stops in [ntt] *)

Lemma keygen_loop_raises A s e :
  matrix_ok (k params) A -> polys_ok (k params) s -> polys_ok (k params) e ->
  for_ (range (k params))
    (fun i t =>
       t <- for_ (range (k params))
              (fun j t => iadd_at t i (Ai <- item A i ;; Aij <- item Ai j ;;
                                       sj <- item s j ;; Polynomial.__mul__ Aij sj))
              t ;;
       t <- iadd_at t i (item e i) ;;
       ti <- item t i ;;
       ti <- ntt ti ;;
       Ok (<[i := ti]> t))
    (repeat (zero_poly params) (k params)) = Raise IndexError.
Proof.
  intros HA Hs He.
  rewrite (range_head (k params) Hk) at 1. rewrite for_cons.
  match goal with
  | |- bind ?m ?f = _ => assert (Hm : m = Raise IndexError); [| rewrite Hm; reflexivity]
  end.
  eapply raises_bind.
  { apply (keygen_row_ok (k params) A s _ 0%nat HA Hs); [| exact Hk].
    apply polys_ok_repeat, zero_poly_wf. }
  intros t1 Ht1. eapply raises_bind.
  { apply (iadd_at_ok (k params) t1 0%nat); [exact Ht1 | exact Hk |].
    apply (polys_ok_item (k params) e 0%nat He Hk). }
  intros t2 Ht2. eapply raises_bind; [apply (polys_ok_item (k params) t2 0%nat Ht2 Hk) |].
  intros ti (Hlen & _ & Hqt). rewrite (ntt_raises ti Hlen); [reflexivity |].
  rewrite Hqt. exact q_nonzero.
Qed.

Lemma keygen_raises s : keygen params s = Raise IndexError.
Proof.
  unfold keygen.
  eapply raisesM_bind; [apply (urandom_returns 32 s _ (pool_True s)) |].
  intros rho s1 [_ Hs1].
  assert (HA := generate_matrix_A_ok rho).
  apply returns_inv in HA as (A & -> & HA). unfold bindM at 1. simpl lift.
  rewrite Hn.
  eapply raisesM_bind;
    [apply (sample_noise_list_spec _ 0 (eta1 params) (k params) s1 Hs1) |].
  intros sv s2 (Hs2 & Hsl & Hsw & _).
  eapply raisesM_bind;
    [apply (sample_noise_list_spec _ 0 (eta1 params) (k params) s2 Hs2) |].
  intros ev s3 (Hs3 & Hel & Hew & _).
  rewrite (keygen_loop_raises A sv ev HA); [reflexivity | split; assumption ..].
Qed.

(** ** Keys and ciphertexts as bytes *)

Lemma decode_sk_ok sk : polys_ok (k params) (decode_sk sk params).
Proof.
  unfold decode_sk. rewrite <- (length_range (k params)) at 1.
  apply polys_ok_map with (f := fun a => map _ (range (n params))).
  intros a. rewrite length_map, length_range. exact Hn.
Qed.

Lemma decode_pk_ok pk : polys_ok (k params) (fst (decode_pk pk params)).
Proof.
  unfold decode_pk. simpl fst. rewrite <- (length_range (k params)) at 1.
  apply polys_ok_map with (f := fun a => map _ (range (n params))).
  intros a. rewrite length_map, length_range. exact Hn.
Qed.

Lemma compress_ciphertext_closed u v :
  compress_ciphertext u v params =
  Ok (flat_map (poly_bytes (du params) (q params)) u ++ poly_bytes (dv params) (q params) v).
Proof.
  pose proof q_params_nonzero as Hnz. unfold compress_ciphertext.
  assert (H : forall c, for_ u (compress_poly (du params) (q params)) c
                        = Ok (c ++ flat_map (poly_bytes (du params) (q params)) u)).
  { induction u as [|p u IH]; intros c.
    - simpl. rewrite app_nil_r. reflexivity.
    - rewrite for_cons, (compress_poly_app _ _ _ _ Hnz). simpl bind.
      rewrite IH. simpl flat_map. rewrite <- app_assoc. reflexivity. }
  rewrite H. simpl bind. rewrite (compress_poly_app _ _ _ _ Hnz). reflexivity.
Qed.

Lemma length_compress_ciphertext u v :
  polys_ok (k params) u -> wf 256 3329 v ->
  returns (compress_ciphertext u v params) (fun c => length c = ciphertext_len params).
Proof.
  intros [Hlen Hall] (Hv & _). rewrite (compress_ciphertext_closed u v).
  simpl. rewrite length_app, length_poly_bytes, Hv. unfold ciphertext_len. rewrite Hn.
  assert (H : length (flat_map (poly_bytes (du params) (q params)) u)
              = (width (du params) * 256 * length u)%nat).
  { clear Hlen. induction Hall as [|p u (Hp & _) _ IH]; [simpl; lia |].
    simpl flat_map. rewrite length_app, length_poly_bytes, Hp, IH. simpl length. lia. }
  rewrite H, Hlen. lia.
Qed.

Lemma decompress_ciphertext_ok c :
  (ciphertext_len params <= length c)%nat ->
  returns (decompress_ciphertext c params)
          (fun uv => polys_ok (k params) (fst uv) /\ wf 256 3329 (snd uv)).
Proof.
  intros Hlen. unfold decompress_ciphertext. unfold ciphertext_len in Hlen.
  rewrite Hn in Hlen |- *. pose proof (width_pos (du params)) as Hwu.
  pose proof (width_pos (dv params)) as Hwv.
  eapply returns_bind.
  - apply returns_mapM with (P := fun (_ : nat) p => wf 256 3329 p).
    intros i a Ha. apply range_lookup in Ha as [-> Ha].
    destruct (mapM_ok_length
                (fun b => read_coeff (du params) (q params) c
                            (width (du params) * (i * 256 + b))) (range 256))
      as (cs & -> & Hcs).
    + intros b Hb. apply In_range in Hb. apply read_coeff_ok; [exact Hdu | nia].
    + simpl. apply new_wf. rewrite Hcs. apply length_range.
  - intros u Hu. apply Forall2_right in Hu as [Hall Hul]. rewrite length_range in Hul.
    destruct (mapM_ok_length
                (fun b => read_coeff (dv params) (q params) c
                            (width (du params) * (k params * 256) + width (dv params) * b))
                (range 256)) as (cs & -> & Hcs).
    + intros b Hb. apply In_range in Hb. apply read_coeff_ok; [exact Hdv | nia].
    + simpl. split; [split; assumption |]. apply new_wf. rewrite Hcs. apply length_range.
Qed.

Lemma decompress_ciphertext_short c :
  (length c < ciphertext_len params)%nat ->
  decompress_ciphertext c params = Raise IndexError.
Proof.
  intros Hlen. unfold decompress_ciphertext. unfold ciphertext_len in Hlen.
  rewrite Hn in Hlen |- *. pose proof (width_pos (du params)) as Hwu.
  pose proof (width_pos (dv params)) as Hwv.
  set (row := fun a => coeffs <- mapM (fun b => read_coeff (du params) (q params) c
                                         (width (du params) * (a * 256 + b))) (range 256) ;;
                       Ok (Polynomial.new coeffs)).
  assert (Hrow : forall a, (exists p, row a = Ok p) \/ row a = Raise IndexError).
  { intros a. apply (read_row_cases (du params) (q params) c
                       (fun b => (width (du params) * (a * 256 + b))%nat) 256 Hdu). }
  destruct (Nat.le_gt_cases (width (du params) * (k params * 256)) (length c)) as [Hu|Hu].
  - (* the part for u is there, the part for v is cut short *)
    destruct (mapM_ok_length row (range (k params))) as (u & -> & _).
    { intros a Ha. apply In_range in Ha. unfold row.
      destruct (mapM_ok_length
                  (fun b => read_coeff (du params) (q params) c
                              (width (du params) * (a * 256 + b))) (range 256))
        as (cs & -> & _); [| simpl; eauto].
      intros b Hb. apply In_range in Hb. apply read_coeff_ok; [exact Hdu | nia]. }
    rewrite bind_Ok.
    rewrite (mapM_raises _ (range 256) IndexError); [reflexivity | |].
    + intros b. apply read_coeff_cases. exact Hdv.
    + exists 255%nat. split; [apply In_range; lia |]. apply read_coeff_short. lia.
  - (* the part for u is cut short: its last coefficient cannot be read *)
    rewrite (mapM_raises row (range (k params)) IndexError Hrow); [reflexivity |].
    exists (k params - 1)%nat. split; [apply In_range; lia |]. unfold row.
    rewrite (mapM_raises _ (range 256) IndexError); [reflexivity | |].
    + intros b. apply read_coeff_cases. exact Hdu.
    + exists 255%nat. split; [apply In_range; lia |]. apply read_coeff_short. nia.
Qed.

(** ** Decryption *)

Lemma decrypt_ok sk c :
  (ciphertext_len params <= length c)%nat ->
  returns (decrypt sk c params) (fun m => length m = 32%nat).
Proof.
  intros Hlen. unfold decrypt.
  eapply returns_bind; [apply (decompress_ciphertext_ok c Hlen) |].
  intros [u v] [Hu Hv]. simpl fst in *. simpl snd in *.
  eapply returns_bind.
  - apply returns_for with (I := fun _ p => wf 256 3329 p); [apply copy_wf, Hv |].
    intros t i p Hi Hp. apply range_lookup in Hi as [-> Hi].
    eapply returns_bind; [apply (polys_ok_item _ _ t (decode_sk_ok sk) Hi) |].
    intros si Hsi. eapply returns_bind; [apply (polys_ok_item _ _ t Hu Hi) |].
    intros ui Hui. eapply returns_bind; [apply (mul_ok si ui Hsi Hui) |].
    intros pr Hpr. apply (sub_ok p pr Hp Hpr).
  - intros m_poly (Hm & _). simpl. rewrite Hn. apply length_encode_message. exact Hm.
Qed.

Lemma decrypt_short sk c :
  (length c < ciphertext_len params)%nat -> decrypt sk c params = Raise IndexError.
Proof.
  intros Hlen. unfold decrypt.
  rewrite (decompress_ciphertext_short c Hlen). reflexivity.
Qed.

(** ** Encryption *)

Lemma encrypt_u_ok A r_poly e1 :
  matrix_ok (k params) A -> wf 256 3329 r_poly -> polys_ok (k params) e1 ->
  returns (for_ (range (k params))
             (fun i u =>
                u <- for_ (range (k params))
                       (fun j u => iadd_at u i (Aj <- item A j ;; Aji <- item Aj i ;;
                                                Polynomial.__mul__ Aji r_poly))
                       u ;;
                iadd_at u i (item e1 i))
             (repeat (zero_poly params) (k params)))
          (polys_ok (k params)).
Proof.
  intros HA Hr He1.
  eapply returns_weaken;
    [apply returns_for with (I := fun _ u => polys_ok (k params) u);
     [apply polys_ok_repeat, zero_poly_wf |] | auto].
  intros i x u Hx Hu. apply range_lookup in Hx as [-> Hi].
  eapply returns_bind; [apply (encrypt_row_ok (k params) A r_poly u i HA Hr Hu Hi) |].
  intros u1 [Hu1 _]. apply (iadd_at_ok (k params) u1 i _ Hu1 Hi).
  apply (polys_ok_item (k params) e1 i He1 Hi).
Qed.

(** The steps of [encrypt_uv] after [u]: [v], the message and the
    compression. *)
Lemma encrypt_tail_ok t r_poly e2 m u (Q : bytes -> Prop) :
  polys_ok (k params) t -> wf 256 3329 r_poly -> wf 256 3329 e2 -> length m = 32%nat ->
  (forall v, wf 256 3329 v -> returns (compress_ciphertext u v params) Q) ->
  returns (v <- for_ (range (k params))
                  (fun i v => ti <- item t i ;;
                              p <- Polynomial.__mul__ ti r_poly ;;
                              Polynomial.__add__ v p)
                  (zero_poly params) ;;
           em <- Polynomial.__add__ e2 (decode_message m (n params)) ;;
           v <- Polynomial.__add__ v em ;;
           compress_ciphertext u v params)
          Q.
Proof.
  intros Ht Hr He2 Hm HQ.
  eapply returns_bind; [apply (encrypt_v_ok (k params) t r_poly _ Ht Hr zero_poly_wf) |].
  intros v Hv. rewrite Hn.
  eapply returns_bind; [apply (add_ok e2 _ He2 (decode_message_wf m Hm)) |].
  intros em Hem. eapply returns_bind; [apply (add_ok v em Hv Hem) |].
  intros v' Hv'. apply HQ. exact Hv'.
Qed.

Lemma encrypt_uv_ok A t r_poly e1 e2 m :
  matrix_ok (k params) A -> polys_ok (k params) t -> wf 256 3329 r_poly ->
  polys_ok (k params) e1 -> wf 256 3329 e2 -> length m = 32%nat ->
  returns (encrypt_uv params A t r_poly e1 e2 m)
          (fun c => length c = ciphertext_len params).
Proof.
  intros HA Ht Hr He1 He2 Hm. unfold encrypt_uv.
  eapply returns_bind; [apply (encrypt_u_ok A r_poly e1 HA Hr He1) |].
  intros u Hu. apply (encrypt_tail_ok t r_poly e2 m u _ Ht Hr He2 Hm).
  intros v Hv. apply length_compress_ciphertext; assumption.
Qed.

(** The sampling steps of [encrypt], on a pool whose bytes satisfy [J]. *)
Lemma encrypt_sampling (J : byte -> Prop) (sgn : Z) pk m r s (Q : bytes -> Prop) :
  pool J s ->
  (forall A e1 e2,
      generate_matrix_A (snd (decode_pk pk params)) params = Ok A ->
      matrix_ok (k params) A -> polys_ok (k params) e1 -> wf 256 3329 e2 ->
      ((forall b, J b -> sign_of b = sgn) ->
       e1 = repeat (const_poly (sgn * Z.of_nat (eta1 params))) (k params)) ->
      returns (encrypt_uv params A (fst (decode_pk pk params))
                 (sample_poly_from_seed r (eta1 params) 256) e1 e2 m) Q) ->
  returnsM (encrypt pk m r params) s (fun c _ => Q c).
Proof.
  intros Hs HQ. unfold encrypt.
  destruct (returns_inv _ _ (generate_matrix_A_ok (snd (decode_pk pk params))))
    as (A & HAeq & HA).
  eapply returnsM_bind with (P := fun A' s' => A' = A /\ s' = s).
  { unfold returnsM, lift. rewrite HAeq. split; reflexivity. }
  intros A' s1 [-> ->]. rewrite Hn.
  eapply returnsM_bind;
    [apply (sample_noise_list_spec J sgn (eta1 params) (k params) s Hs) |].
  intros e1 s2 (Hs2 & He1l & He1w & He1).
  eapply returnsM_bind; [apply (sample_noise_poly_spec J sgn (eta2 params) s2 Hs2) |].
  intros e2 s3 (_ & He2 & _).
  eapply returnsM_lift; [| intros c Hc; exact Hc].
  apply (HQ A e1 e2 HAeq HA); [split; assumption | exact He2 | exact He1].
Qed.

Lemma encrypt_ok pk m r s :
  length m = 32%nat ->
  returnsM (encrypt pk m r params) s (fun c _ => length c = ciphertext_len params).
Proof.
  intros Hm. apply (encrypt_sampling (fun _ => True) 0 pk m r s); [apply pool_True |].
  intros A e1 e2 _ HA He1 He2 _.
  apply encrypt_uv_ok; try assumption;
    [apply decode_pk_ok | apply sample_poly_from_seed_wf].
Qed.

(** ** The first bytes of a ciphertext *)

Lemma first_row_acc_ok A r_poly :
  matrix_ok (k params) A -> wf 256 3329 r_poly ->
  returns (first_row_acc params A r_poly) (wf 256 3329).
Proof.
  intros HA Hr. unfold first_row_acc.
  eapply returns_bind.
  - apply (encrypt_row_ok (k params) A r_poly _ 0%nat HA Hr); [| exact Hk].
    apply polys_ok_repeat, zero_poly_wf.
  - intros u [Hu _]. apply (polys_ok_item (k params) u 0%nat Hu Hk).
Qed.

Lemma encrypt_u_head A r_poly e1 acc e :
  matrix_ok (k params) A -> wf 256 3329 r_poly -> polys_ok (k params) e1 ->
  first_row_acc params A r_poly = Ok acc -> e1 !! 0%nat = Some e ->
  returns (for_ (range (k params))
             (fun i u =>
                u <- for_ (range (k params))
                       (fun j u => iadd_at u i (Aj <- item A j ;; Aji <- item Aj i ;;
                                                Polynomial.__mul__ Aji r_poly))
                       u ;;
                iadd_at u i (item e1 i))
             (repeat (zero_poly params) (k params)))
          (fun u => polys_ok (k params) u /\
                    u !! 0%nat = Some (Polynomial.mk (pointwise Z.add 3329 acc e) 256 3329)).
Proof.
  intros HA Hr He1 Hacc He.
  set (W := Polynomial.mk (pointwise Z.add 3329 acc e) 256 3329).
  pose proof (first_row_acc_ok A r_poly HA Hr) as Hwacc.
  rewrite Hacc in Hwacc. simpl in Hwacc.
  assert (Hwe : wf 256 3329 e).
  { destruct He1 as [_ Hall]. exact (proj1 (Forall_lookup _ _) Hall 0%nat e He). }
  rewrite (range_head (k params) Hk) at 1. rewrite for_cons.
  unfold first_row_acc in Hacc.
  pose proof (encrypt_row_ok (k params) A r_poly (repeat (zero_poly params) (k params)) 0%nat
                HA Hr (polys_ok_repeat _ _ zero_poly_wf) Hk) as Hrow.
  destruct (for_ (range (k params))
              (fun j u => iadd_at u 0 (Aj <- item A j ;; Aji <- item Aj 0 ;;
                                       Polynomial.__mul__ Aji r_poly))
              (repeat (zero_poly params) (k params))) as [u1|]; [| discriminate].
  rewrite bind_Ok in Hacc. apply item_Ok_lookup in Hacc. simpl in Hrow.
  destruct Hrow as [Hu1 _]. rewrite bind_Ok.
  rewrite (iadd_at_spec u1 0 (item e1 0) acc e Hacc (item_lookup e1 0 e He) Hwacc Hwe).
  rewrite bind_Ok. fold W.
  assert (HW : wf 256 3329 W)
    by (apply wf_mk, (length_pointwise Z.add 3329 256 acc e Hwacc Hwe)).
  eapply returns_weaken.
  - apply returns_for
      with (I := fun _ u => polys_ok (k params) u /\ u !! 0%nat = Some W).
    + split; [apply polys_ok_insert; assumption |].
      apply list_lookup_insert_eq. destruct Hu1 as [Hl _]. lia.
    + intros t i u Hi [Hu Hu0]. apply range2_lookup in Hi as [-> Hi].
      eapply returns_bind;
        [apply (encrypt_row_ok (k params) A r_poly u (1 + t) HA Hr Hu Hi) |].
      intros u2 [Hu2 Hfr2]. eapply returns_weaken.
      * apply (iadd_at_frame (k params) u2 (1 + t) _ Hu2 Hi).
        apply (polys_ok_item (k params) e1 (1 + t) He1 Hi).
      * intros u3 [Hu3 Hfr3]. split; [exact Hu3 |].
        rewrite Hfr3 by lia. rewrite Hfr2 by lia. exact Hu0.
  - intros u Hu. exact Hu.
Qed.

(** The ciphertext starts with the bytes of [u[0]], the sum of the
    accumulated product and the noise [e1[0]]. *)
Lemma encrypt_uv_head A t r_poly e1 e2 m acc e :
  matrix_ok (k params) A -> polys_ok (k params) t -> wf 256 3329 r_poly ->
  polys_ok (k params) e1 -> wf 256 3329 e2 -> length m = 32%nat ->
  first_row_acc params A r_poly = Ok acc -> e1 !! 0%nat = Some e ->
  returns (encrypt_uv params A t r_poly e1 e2 m)
          (fun c => exists rest,
             c = poly_bytes (du params) 3329
                   (Polynomial.mk (pointwise Z.add 3329 acc e) 256 3329) ++ rest).
Proof.
  intros HA Ht Hr He1 He2 Hm Hacc He. unfold encrypt_uv.
  eapply returns_bind; [apply (encrypt_u_head A r_poly e1 acc e HA Hr He1 Hacc He) |].
  intros u [Hu Hu0]. apply (encrypt_tail_ok t r_poly e2 m u _ Ht Hr He2 Hm).
  intros v Hv. rewrite compress_ciphertext_closed.
  simpl. destruct u as [|u0 u]; [discriminate |]. simpl in Hu0. injection Hu0 as ->.
  simpl flat_map. rewrite Hq, <- app_assoc. eexists. reflexivity.
Qed.

Lemma encrypt_signed (J : byte -> Prop) (sgn : Z) pk m r s A acc :
  length m = 32%nat -> pool J s -> (forall b, J b -> sign_of b = sgn) ->
  generate_matrix_A (snd (decode_pk pk params)) params = Ok A ->
  first_row_acc params A (sample_poly_from_seed r (eta1 params) 256) = Ok acc ->
  returnsM (encrypt pk m r params) s
           (fun c _ => exists rest,
              c = poly_bytes (du params) 3329
                    (Polynomial.mk
                       (pointwise Z.add 3329 acc
                                  (const_poly (sgn * Z.of_nat (eta1 params))))
                       256 3329) ++ rest).
Proof.
  intros Hm Hs Hsgn HAeq Hacc. apply (encrypt_sampling J sgn pk m r s); [exact Hs |].
  intros A' e1 e2 HAeq' HA He1 He2 He1c.
  assert (A' = A) as -> by congruence.
  apply (encrypt_uv_head A _ _ e1 e2 m acc (const_poly (sgn * Z.of_nat (eta1 params))) HA
           (decode_pk_ok pk) (sample_poly_from_seed_wf _ _) He1 He2 Hm Hacc).
  rewrite (He1c Hsgn). destruct (k params); [lia | reflexivity].
Qed.

(** ** Encapsulation and decapsulation *)

Lemma decapsulate_ok c sk s :
  (ciphertext_len params <= length c)%nat ->
  returnsM (KyberKEM.decapsulate params c sk) s (fun K _ => length K = 32%nat).
Proof.
  intros Hlen. unfold KyberKEM.decapsulate.
  eapply returnsM_bind.
  { eapply returnsM_lift; [apply (decrypt_ok _ c Hlen) |].
    intros m Hm. exact Hm. }
  intros m s1 Hm.
  eapply returnsM_bind; [apply (encrypt_ok _ m _ s1 Hm) |].
  intros c' s2 _.
  destruct (bytes_eqb c c'); apply returnsM_ret, length_kdf.
Qed.

Lemma decapsulate_short c sk s :
  (length c < ciphertext_len params)%nat ->
  KyberKEM.decapsulate params c sk s = Raise IndexError.
Proof.
  intros Hlen. unfold KyberKEM.decapsulate, bindM, lift.
  rewrite (decrypt_short _ c Hlen). reflexivity.
Qed.

(** The ciphertexts that [encapsulate] returns have [ciphertext_len] bytes,
    and the shared secret has 32. *)
Lemma encapsulate_lengths pk s :
  returnsM (KyberKEM.encapsulate params pk) s
           (fun cK _ => length (fst cK) = ciphertext_len params /\ length (snd cK) = 32%nat).
Proof.
  unfold KyberKEM.encapsulate.
  eapply returnsM_bind; [apply (urandom_returns 32 s _ (pool_True s)) |].
  intros m s1 [-> _].
  eapply returnsM_bind.
  - apply (encrypt_ok pk _ _ s1). rewrite length_map. apply length_seq.
  - intros c s2 Hc. apply returnsM_ret. cbn [fst snd]. split; [exact Hc | apply length_kdf].
Qed.

End ParameterSet.

(** * The key encapsulation mechanism *)

(** The facts of [valid_params_shape], named as in the section above. *)
Ltac unpack_params Hv :=
  destruct (valid_params_shape _ Hv) as (Hn & Hq & [Hk Hk'] & Hdu & Hdv).

(** C1 (as the code behaves).  For every parameter set and every content
    of the entropy pool, [KyberKEM.keypair] raises [IndexError]: key
    generation calls [ntt], whose second level indexes [ZETAS] out of
    range.  No key pair is ever produced, so the round trip that
    [tests/test_basic.py] asserts cannot be run. *)
Theorem keypair_raises_IndexError params s :
  valid_params params -> KyberKEM.keypair params s = Raise IndexError.
Proof.
  intros Hv. unpack_params Hv.
  unfold KyberKEM.keypair, bindM.
  rewrite keygen_raises by assumption. reflexivity.
Qed.

Lemma keypair_raises_IndexError_witness :
  valid_params KYBER512 /\ KyberKEM.keypair KYBER512 (fun _ => x00) = Raise IndexError.
Proof.
  split; [left; reflexivity |].
  apply (keypair_raises_IndexError KYBER512 (fun _ => x00)). left. reflexivity.
Defined.

(** C2.  For every parameter set, every byte string [sk] (whatever its
    origin) and every byte string [c] of the ciphertext length,
    [KyberKEM.decapsulate] returns normally, with a value of exactly 32
    bytes; no exception is raised for a malformed ciphertext. *)
Theorem decapsulate_returns_32_bytes params c sk s :
  valid_params params -> length c = ciphertext_len params ->
  exists K s', KyberKEM.decapsulate params c sk s = Ok (K, s') /\ length K = 32%nat.
Proof.
  intros Hv Hlen. unpack_params Hv.
  apply returnsM_inv. apply decapsulate_ok; try assumption. rewrite Hlen. reflexivity.
Qed.

Lemma decapsulate_returns_32_bytes_witness :
  valid_params KYBER512 /\
  length (repeat x00 1280) = ciphertext_len KYBER512 /\
  exists K s', KyberKEM.decapsulate KYBER512 (repeat x00 1280) (repeat xff 2656)
                 (fun _ => x00) = Ok (K, s') /\ length K = 32%nat.
Proof.
  split; [left; reflexivity |]. split; [vm_compute; reflexivity |].
  apply (decapsulate_returns_32_bytes KYBER512 (repeat x00 1280) (repeat xff 2656)
           (fun _ => x00)); [left; reflexivity | vm_compute; reflexivity].
Defined.

(** ** Instrumented runs *)

Lemma refines_ret {A} (a : A) : refines (Traced.ret a) (ret a).
Proof. intros s. reflexivity. Qed.

Lemma refines_lift {A} (r : result A) : refines (Traced.lift r) (lift r).
Proof. intros s. unfold erase, Traced.lift, lift. destruct r; reflexivity. Qed.

Lemma refines_bind {A B} (t : Traced.T A) (m : M A) (f : A -> Traced.T B) (g : A -> M B) :
  refines t m -> (forall a, refines (f a) (g a)) ->
  refines (Traced.bindT t f) (bindM m g).
Proof.
  intros Ht Hf s. specialize (Ht s). unfold erase, Traced.bindT, bindM in *.
  destruct (t s) as [[[a | e] s1] l1]; rewrite <- Ht; [| reflexivity].
  specialize (Hf a s1). unfold erase in Hf.
  destruct (f a s1) as [[r s2] l2]. exact Hf.
Qed.

(** A step that only computes a value, whatever it logs. *)
Lemma refines_value_bind {A B} (t : Traced.T A) (a : A) (l : list work)
      (f : A -> Traced.T B) (m : M B) :
  (forall s, t s = (Ok a, s, l)) -> refines (f a) m ->
  refines (Traced.bindT t f) m.
Proof.
  intros Ht Hf s. specialize (Hf s). unfold erase, Traced.bindT in *.
  rewrite Ht. destruct (f a s) as [[r s2] l2]. exact Hf.
Qed.

Lemma refines_eq {A} (t : Traced.T A) (m m' : M A) :
  refines t m -> (forall s, m s = m' s) -> refines t m'.
Proof. intros Ht E s. rewrite <- E. apply Ht. Qed.

Lemma refines_bind_pure {A B} (t : Traced.T A) (r : result A)
      (f : A -> Traced.T B) (g : A -> result B) :
  refines t (lift r) -> (forall a, refines (f a) (lift (g a))) ->
  refines (Traced.bindT t f) (lift (bind r g)).
Proof.
  intros Ht Hf. eapply refines_eq; [apply (refines_bind _ _ _ _ Ht Hf) |].
  intros s. unfold bindM, lift, bind. destruct r; reflexivity.
Qed.

Lemma refines_forT {A S} (xs : list A) (body : A -> S -> Traced.T S)
      (body' : A -> S -> M S) (s0 : S) :
  (forall x a, refines (body x a) (body' x a)) ->
  refines (Traced.forT xs body s0) (forM xs body' s0).
Proof.
  intros Hb. revert s0. induction xs as [| x xs IH]; intros s0; cbn [Traced.forT forM].
  - apply refines_ret.
  - apply refines_bind; [apply Hb | exact IH].
Qed.

Lemma refines_mapT {A B} (f : A -> Traced.T B) (g : A -> M B) (xs : list A) :
  (forall x, refines (f x) (g x)) ->
  refines (Traced.mapT f xs) (mapMM g xs).
Proof.
  intros Hf. induction xs as [| x xs IH]; cbn [Traced.mapT mapMM].
  - apply refines_ret.
  - apply refines_bind; [apply Hf |]. intros y.
    apply refines_bind; [exact IH |]. intros ys. apply refines_ret.
Qed.

Lemma refines_forT_pure {A S} (xs : list A) (body : A -> S -> Traced.T S)
      (body' : A -> S -> result S) (s0 : S) :
  (forall x a, refines (body x a) (lift (body' x a))) ->
  refines (Traced.forT xs body s0) (lift (for_ xs body' s0)).
Proof.
  intros Hb. revert s0. induction xs as [| x xs IH]; intros s0; cbn [Traced.forT for_].
  - apply (refines_lift (Ok s0)).
  - apply refines_bind_pure; [apply Hb | exact IH].
Qed.

Lemma refines_mapT_pure {A B} (f : A -> Traced.T B) (g : A -> result B) (xs : list A) :
  (forall x, refines (f x) (lift (g x))) ->
  refines (Traced.mapT f xs) (lift (mapM g xs)).
Proof.
  intros Hf. induction xs as [| x xs IH]; cbn [Traced.mapT mapM].
  - apply (refines_lift (Ok [])).
  - apply refines_bind_pure; [apply Hf |]. intros y.
    apply refines_bind_pure; [exact IH |]. intros ys. apply (refines_lift (Ok (y :: ys))).
Qed.

Lemma refines_urandom (len : nat) : refines (Traced.urandom len) (urandom len).
Proof. intros s. reflexivity. Qed.

Lemma shake_128_value (msg : bytes) (outlen : nat) (s : entropy) :
  Traced.shake_128 msg outlen s = (Ok (Keccak.shake_128 msg outlen), s, [Hashed]).
Proof. reflexivity. Qed.

Lemma refines_mul (a b : Polynomial.t) :
  refines (Traced.__mul__ a b) (lift (Polynomial.__mul__ a b)).
Proof.
  intros s. unfold erase, Traced.__mul__, Traced.bindT, Traced.tick, Traced.lift, lift.
  destruct (Polynomial.__mul__ a b); reflexivity.
Qed.

Lemma refines_generate_matrix_A (rho : bytes) (params : KyberParams) :
  refines (Traced.generate_matrix_A rho params) (lift (generate_matrix_A rho params)).
Proof.
  unfold Traced.generate_matrix_A, generate_matrix_A.
  apply refines_mapT_pure. intros i. apply refines_mapT_pure. intros j.
  unfold Traced.matrix_entry, matrix_entry.
  apply refines_bind_pure; [apply refines_lift |]. intros ij.
  eapply refines_value_bind; [intros s; apply shake_128_value |].
  apply refines_bind_pure; [apply refines_lift |]. intros coeffs.
  apply (refines_lift (Ok (Polynomial.new coeffs))).
Qed.

Lemma refines_sample_noise_poly (eta n : nat) :
  refines (Traced.sample_noise_poly eta n) (sample_noise_poly eta n).
Proof.
  unfold Traced.sample_noise_poly, sample_noise_poly.
  apply refines_bind; [| intros coeffs; apply refines_ret].
  apply refines_mapT. intros _.
  unfold Traced.noise_coeff, noise_coeff.
  apply refines_forT. intros _ acc.
  apply refines_bind; [apply refines_urandom |]. intros b.
  apply refines_bind; [apply refines_lift |]. intros b0. apply refines_ret.
Qed.

Lemma refines_iadd_at (xs : list Polynomial.t) (i : nat) (rhs : Traced.T Polynomial.t)
      (rhs' : result Polynomial.t) :
  refines rhs (lift rhs') ->
  refines (Traced.iadd_at xs i rhs) (lift (iadd_at xs i rhs')).
Proof.
  intros Hr. unfold Traced.iadd_at, iadd_at.
  apply refines_bind_pure; [apply refines_lift |]. intros x.
  apply refines_bind_pure; [exact Hr |]. intros p.
  apply refines_bind_pure; [apply refines_lift |]. intros y.
  apply (refines_lift (Ok (<[i := y]> xs))).
Qed.

Lemma refines_encrypt (pk m r : bytes) (params : KyberParams) :
  refines (Traced.encrypt pk m r params) (encrypt pk m r params).
Proof.
  unfold Traced.encrypt, encrypt.
  apply refines_bind; [apply refines_generate_matrix_A |]. intros A.
  eapply refines_value_bind; [intros s; unfold Traced.sample_poly_from_seed, Traced.prf,
                                Traced.bindT; rewrite shake_128_value; reflexivity |].
  apply refines_bind; [apply refines_mapT; intros _; apply refines_sample_noise_poly |].
  intros e1.
  apply refines_bind; [apply refines_sample_noise_poly |]. intros e2.
  unfold encrypt_uv.
  apply refines_bind_pure.
  { apply refines_forT_pure. intros i u.
    apply refines_bind_pure.
    - apply refines_forT_pure. intros j u'.
      apply refines_iadd_at.
      apply refines_bind_pure; [apply refines_lift |]. intros Aj.
      apply refines_bind_pure; [apply refines_lift |]. intros Aji.
      apply refines_mul.
    - intros u'. apply refines_iadd_at. apply refines_lift. }
  intros u.
  apply refines_bind_pure.
  { apply refines_forT_pure. intros i v.
    apply refines_bind_pure; [apply refines_lift |]. intros ti.
    apply refines_bind_pure; [apply refines_mul |]. intros p.
    apply refines_lift. }
  intros v.
  apply refines_bind_pure; [apply refines_lift |]. intros em.
  apply refines_bind_pure; [apply refines_lift |]. intros v'.
  apply refines_lift.
Qed.

Lemma refines_decrypt (sk c : bytes) (params : KyberParams) :
  refines (Traced.decrypt sk c params) (lift (decrypt sk c params)).
Proof.
  unfold Traced.decrypt, decrypt.
  apply refines_bind_pure; [apply refines_lift |]. intros uv.
  apply refines_bind_pure.
  { apply refines_forT_pure. intros i m_poly.
    apply refines_bind_pure; [apply refines_lift |]. intros si.
    apply refines_bind_pure; [apply refines_lift |]. intros ui.
    apply refines_bind_pure; [apply refines_mul |]. intros p.
    apply refines_lift. }
  intros m_poly. apply (refines_lift (Ok (encode_message m_poly (n params)))).
Qed.

(** Forgetting the log and the pool of a failed run, the instrumented
    decapsulation is [KyberKEM.decapsulate]. *)
Lemma refines_decapsulate (params : KyberParams) (c sk : bytes) :
  refines (Traced.decapsulate params c sk) (KyberKEM.decapsulate params c sk).
Proof.
  unfold Traced.decapsulate, KyberKEM.decapsulate.
  apply refines_bind; [apply refines_decrypt |]. intros m_prime.
  eapply refines_value_bind; [intros s; apply shake_128_value |].
  apply refines_bind; [apply refines_encrypt |]. intros c_prime.
  eapply refines_value_bind; [intros s; apply shake_128_value |].
  destruct (bytes_eqb c c_prime); intros s; reflexivity.
Qed.

(** *** The log of a run that returns *)

Lemma logs_eq {A} (t : Traced.T A) (l l' : list work) : logs t l -> l = l' -> logs t l'.
Proof. intros H <-. exact H. Qed.

Lemma logs_ret {A} (a : A) : logs (Traced.ret a) [].
Proof. intros s. reflexivity. Qed.

Lemma logs_lift {A} (r : result A) : logs (Traced.lift r) [].
Proof. intros s. unfold Traced.lift. destruct r; reflexivity. Qed.

Lemma logs_bind {A B} (t : Traced.T A) (f : A -> Traced.T B) (l1 l2 : list work) :
  logs t l1 -> (forall a, logs (f a) l2) -> logs (Traced.bindT t f) (l1 ++ l2).
Proof.
  intros Ht Hf s. specialize (Ht s). unfold Traced.bindT.
  destruct (t s) as [[[a | e] s1] l1']; [| exact I].
  specialize (Hf a s1). destruct (f a s1) as [[[b | e] s2] l2']; [| exact I].
  subst. reflexivity.
Qed.

Lemma logs_forT {A S} (xs : list A) (body : A -> S -> Traced.T S) (w : work) (m : nat)
      (s0 : S) :
  (forall x a, logs (body x a) (repeat w m)) ->
  logs (Traced.forT xs body s0) (repeat w (length xs * m)).
Proof.
  intros Hb. revert s0. induction xs as [| x xs IH]; intros s0; cbn [Traced.forT length].
  - apply logs_ret.
  - eapply logs_eq; [apply logs_bind; [apply Hb | exact IH] |].
    rewrite <- repeat_app. reflexivity.
Qed.

Lemma logs_mapT {A B} (f : A -> Traced.T B) (xs : list A) (w : work) (m : nat) :
  (forall x, logs (f x) (repeat w m)) ->
  logs (Traced.mapT f xs) (repeat w (length xs * m)).
Proof.
  intros Hf. induction xs as [| x xs IH]; cbn [Traced.mapT length].
  - apply logs_ret.
  - eapply logs_eq.
    + apply logs_bind; [apply Hf |]. intros y.
      apply logs_bind; [exact IH |]. intros ys. apply logs_ret.
    + rewrite app_nil_r, <- repeat_app. reflexivity.
Qed.

Lemma logs_shake_128 (msg : bytes) (outlen : nat) :
  logs (Traced.shake_128 msg outlen) [Hashed].
Proof. intros s. reflexivity. Qed.

Lemma logs_urandom (len : nat) : logs (Traced.urandom len) [Sampled].
Proof. intros s. reflexivity. Qed.

Lemma logs_mul (a b : Polynomial.t) : logs (Traced.__mul__ a b) [Multiplied].
Proof.
  intros s. unfold Traced.__mul__, Traced.bindT, Traced.tick, Traced.lift.
  destruct (Polynomial.__mul__ a b); reflexivity.
Qed.

Lemma logs_generate_matrix_A (rho : bytes) (params : KyberParams) :
  logs (Traced.generate_matrix_A rho params) (repeat Hashed (k params * k params)).
Proof.
  unfold Traced.generate_matrix_A.
  eapply logs_eq.
  - apply (logs_mapT _ _ Hashed (k params * 1)). intros i.
    eapply logs_eq; [apply (logs_mapT _ _ Hashed 1) | rewrite length_range; reflexivity].
    intros j. unfold Traced.matrix_entry.
    eapply logs_eq.
    + apply logs_bind; [apply logs_lift |]. intros ij.
      apply logs_bind; [apply logs_shake_128 |]. intros stream.
      apply logs_bind; [apply logs_lift |]. intros coeffs. apply logs_ret.
    + reflexivity.
  - rewrite length_range, Nat.mul_1_r. reflexivity.
Qed.

Lemma logs_sample_noise_poly (eta n : nat) :
  logs (Traced.sample_noise_poly eta n) (repeat Sampled (n * eta)).
Proof.
  unfold Traced.sample_noise_poly.
  eapply logs_eq.
  - apply logs_bind; [| intros coeffs; apply logs_ret].
    apply (logs_mapT _ _ Sampled (eta * 1)). intros _. unfold Traced.noise_coeff.
    eapply logs_eq; [apply (logs_forT _ _ Sampled 1) | rewrite length_range; reflexivity].
    intros _ acc.
    eapply logs_eq.
    + apply logs_bind; [apply logs_urandom |]. intros b.
      apply logs_bind; [apply logs_lift |]. intros b0. apply logs_ret.
    + reflexivity.
  - rewrite app_nil_r, length_range, Nat.mul_1_r. reflexivity.
Qed.

Lemma logs_iadd_at (xs : list Polynomial.t) (i : nat) (rhs : Traced.T Polynomial.t)
      (l : list work) :
  logs rhs l -> logs (Traced.iadd_at xs i rhs) l.
Proof.
  intros Hr. unfold Traced.iadd_at.
  eapply logs_eq.
  - apply logs_bind; [apply logs_lift |]. intros x.
    apply logs_bind; [exact Hr |]. intros p.
    apply logs_bind; [apply logs_lift |]. intros y. apply logs_ret.
  - cbn [app]. apply app_nil_r.
Qed.

Lemma logs_encrypt (pk m r : bytes) (params : KyberParams) :
  logs (Traced.encrypt pk m r params)
       (repeat Hashed (k params * k params)
        ++ [Hashed]
        ++ repeat Sampled (k params * (n params * eta1 params))
        ++ repeat Sampled (n params * eta2 params)
        ++ repeat Multiplied (k params * k params)
        ++ repeat Multiplied (k params)).
Proof.
  unfold Traced.encrypt.
  apply logs_bind; [apply logs_generate_matrix_A |]. intros A.
  apply logs_bind.
  { unfold Traced.sample_poly_from_seed, Traced.prf.
    eapply logs_eq; [apply logs_bind; [apply logs_shake_128 | intros stream; apply logs_ret]
                    | reflexivity]. }
  intros r_poly.
  apply logs_bind.
  { eapply logs_eq; [apply (logs_mapT _ _ Sampled (n params * eta1 params)); intros _;
                     apply logs_sample_noise_poly
                    | rewrite length_range; reflexivity]. }
  intros e1.
  apply logs_bind; [apply logs_sample_noise_poly |]. intros e2.
  apply logs_bind.
  { eapply logs_eq; [apply (logs_forT _ _ Multiplied (k params * 1))
                    | rewrite length_range, Nat.mul_1_r; reflexivity].
    intros i u.
    eapply logs_eq.
    - apply logs_bind.
      + eapply logs_eq; [apply (logs_forT _ _ Multiplied 1)
                        | rewrite length_range; reflexivity].
        intros j u'. apply logs_iadd_at.
        eapply logs_eq.
        * apply logs_bind; [apply logs_lift |]. intros Aj.
          apply logs_bind; [apply logs_lift |]. intros Aji. apply logs_mul.
        * reflexivity.
      + intros u'. apply logs_iadd_at. apply logs_lift.
    - apply app_nil_r. }
  intros u.
  eapply logs_eq.
  - apply logs_bind.
    + eapply logs_eq; [apply (logs_forT _ _ Multiplied 1)
                      | rewrite length_range, Nat.mul_1_r; reflexivity].
      intros i v.
      eapply logs_eq.
      * apply logs_bind; [apply logs_lift |]. intros ti.
        apply logs_bind; [apply logs_mul |]. intros p. apply logs_lift.
      * reflexivity.
    + intros v.
      apply logs_bind; [apply logs_lift |]. intros em.
      apply logs_bind; [apply logs_lift |]. intros v'. apply logs_lift.
  - cbn [app]. apply app_nil_r.
Qed.

Lemma logs_decrypt (sk c : bytes) (params : KyberParams) :
  logs (Traced.decrypt sk c params) (repeat Multiplied (k params)).
Proof.
  unfold Traced.decrypt.
  eapply logs_eq.
  - apply logs_bind; [apply logs_lift |]. intros uv.
    apply logs_bind; [| intros m_poly; apply logs_ret].
    eapply logs_eq; [apply (logs_forT _ _ Multiplied 1)
                    | rewrite length_range, Nat.mul_1_r; reflexivity].
    intros i m_poly.
    eapply logs_eq.
    + apply logs_bind; [apply logs_lift |]. intros si.
      apply logs_bind; [apply logs_lift |]. intros ui.
      apply logs_bind; [apply logs_mul |]. intros p. apply logs_lift.
    + reflexivity.
  - cbn [app]. apply app_nil_r.
Qed.

Lemma logs_decapsulate (params : KyberParams) (c sk : bytes) :
  logs (Traced.decapsulate params c sk) (decapsulate_work params).
Proof.
  unfold Traced.decapsulate, decapsulate_work.
  apply logs_bind; [apply logs_decrypt |]. intros m_prime.
  apply logs_bind; [apply logs_shake_128 |]. intros K_r_prime.
  rewrite !app_assoc. rewrite <- !app_assoc.
  replace (repeat Hashed (k params * k params) ++ [Hashed]
           ++ repeat Sampled (k params * (n params * eta1 params))
           ++ repeat Sampled (n params * eta2 params)
           ++ repeat Multiplied (k params * k params)
           ++ repeat Multiplied (k params) ++ [Hashed] ++ [Hashed])
    with ((repeat Hashed (k params * k params) ++ [Hashed]
           ++ repeat Sampled (k params * (n params * eta1 params))
           ++ repeat Sampled (n params * eta2 params)
           ++ repeat Multiplied (k params * k params)
           ++ repeat Multiplied (k params)) ++ [Hashed] ++ [Hashed])
    by (rewrite <- !app_assoc; reflexivity).
  apply logs_bind; [apply logs_encrypt |]. intros c_prime.
  apply logs_bind; [apply logs_shake_128 |]. intros h_c.
  destruct (bytes_eqb c c_prime); apply logs_shake_128.
Qed.

(** A run that [KyberKEM.decapsulate] completes is a run of the
    instrumented function with the same value and the same pool, and its
    log is [decapsulate_work]. *)
Lemma traced_decapsulate_returns (params : KyberParams) (c sk : bytes) (s : entropy)
      (K : bytes) (s' : entropy) :
  KyberKEM.decapsulate params c sk s = Ok (K, s') ->
  Traced.decapsulate params c sk s = (Ok K, s', decapsulate_work params).
Proof.
  intros E. pose proof (refines_decapsulate params c sk s) as R.
  pose proof (logs_decapsulate params c sk s) as L.
  unfold erase in R. rewrite E in R.
  destruct (Traced.decapsulate params c sk s) as [[[K0 | e] s0] l0]; [| discriminate].
  inversion R. subst. reflexivity.
Qed.

(** A ciphertext that [decompress_ciphertext] refuses ends the run there:
    the pool is untouched and the log is empty. *)
Lemma traced_decapsulate_refused (params : KyberParams) (c sk : bytes) (s : entropy)
      (e : exn) :
  decompress_ciphertext c params = Raise e ->
  Traced.decapsulate params c sk s = (Raise e, s, []).
Proof.
  intros E. unfold Traced.decapsulate, Traced.decrypt, Traced.bindT, Traced.lift.
  rewrite E. reflexivity.
Qed.

(** C7, the claim refuted.  A byte string one byte longer than a
    ciphertext is not rejected: decapsulation returns a 32-byte secret.
    One byte shorter, the exception is the [IndexError] of a list access. *)
Lemma decapsulate_wrong_length_not_rejected :
  length (repeat x00 1281) <> ciphertext_len KYBER512 /\
  (exists K s', KyberKEM.decapsulate KYBER512 (repeat x00 1281) (repeat xff 2656)
                  (fun _ => x00) = Ok (K, s') /\ length K = 32%nat) /\
  length (repeat x00 1279) <> ciphertext_len KYBER512 /\
  KyberKEM.decapsulate KYBER512 (repeat x00 1279) (repeat xff 2656) (fun _ => x00)
  = Raise IndexError.
Proof.
  destruct (valid_params_shape KYBER512) as (Hn & Hq & [Hk Hk'] & Hdu & Hdv);
    [left; reflexivity |].
  split; [vm_compute; discriminate |]. split.
  - apply returnsM_inv. apply decapsulate_ok; try assumption. vm_compute. lia.
  - split; [vm_compute; discriminate |].
    apply decapsulate_short; try assumption. vm_compute. lia.
Qed.

(** C7, amended.  For every parameter set, a byte string shorter than a
    ciphertext makes decapsulation raise [IndexError].  The exception comes
    from [decompress_ciphertext], the first step of decryption once the
    secret key is parsed, before anything is hashed, sampled or multiplied:
    the instrumented run ends with the entropy pool untouched and an empty
    log, no call of [hashlib.shake_128], [os.urandom] or
    [Polynomial.__mul__] having been made.  A byte string longer than a
    ciphertext is not rejected: decapsulation returns 32 bytes, and the
    instrumented run returns them after the whole work of a decapsulation.
    With its log forgotten, the instrumented function is
    [KyberKEM.decapsulate] on every input. *)
Theorem decapsulate_wrong_length params c sk s :
  valid_params params ->
  ((length c < ciphertext_len params)%nat ->
   decompress_ciphertext c params = Raise IndexError /\
   KyberKEM.decapsulate params c sk s = Raise IndexError /\
   Traced.decapsulate params c sk s = (Raise IndexError, s, [])) /\
  ((ciphertext_len params < length c)%nat ->
   exists K s', KyberKEM.decapsulate params c sk s = Ok (K, s') /\ length K = 32%nat /\
                Traced.decapsulate params c sk s = (Ok K, s', decapsulate_work params)) /\
  refines (Traced.decapsulate params c sk) (KyberKEM.decapsulate params c sk).
Proof.
  intros Hv. unpack_params Hv.
  split; [| split].
  - intros Hlen.
    assert (E : decompress_ciphertext c params = Raise IndexError)
      by (apply decompress_ciphertext_short; assumption).
    split; [exact E |].
    split; [apply decapsulate_short; assumption | apply traced_decapsulate_refused, E].
  - intros Hlen.
    assert (H : exists K s', KyberKEM.decapsulate params c sk s = Ok (K, s')
                             /\ length K = 32%nat).
    { apply returnsM_inv. apply decapsulate_ok; try assumption. lia. }
    destruct H as (K & s' & E & HK). exists K, s'.
    split; [exact E |]. split; [exact HK | apply traced_decapsulate_returns, E].
  - apply refines_decapsulate.
Qed.

Lemma decapsulate_wrong_length_witness :
  valid_params KYBER512 /\
  (length (repeat x00 1279) < ciphertext_len KYBER512)%nat /\
  KyberKEM.decapsulate KYBER512 (repeat x00 1279) (repeat xff 2656) (fun _ => x00)
  = Raise IndexError /\
  Traced.decapsulate KYBER512 (repeat x00 1279) (repeat xff 2656) (fun _ => x00)
  = (Raise IndexError, fun _ => x00, []).
Proof.
  assert (Hv : valid_params KYBER512) by (left; reflexivity).
  assert (Hlen : (length (repeat x00 1279) < ciphertext_len KYBER512)%nat)
    by (vm_compute; lia).
  split; [exact Hv |]. split; [exact Hlen |].
  apply (proj1 (decapsulate_wrong_length KYBER512 (repeat x00 1279) (repeat xff 2656)
                  (fun _ => x00) Hv) Hlen).
Defined.

Lemma stream_00_facts :
  let stream := prf (repeat x00 32 ++ [x00; x00]) 768 in
  entry_coeffs stream 256 3329 !! 0%nat = Some 392 /\
  take 3 stream = [x49; xdf; xd9] /\
  nth 0 (uniform_rejection_spec 3329 stream) 0 = 2944 /\
  length (uniform_rejection_spec 3329 stream) = 202%nat.
Proof. vm_compute. repeat split; reflexivity. Qed.

(** C8, the claim refuted.  For the all-zero seed, the first three bytes
    of the stream of entry (0, 0) are 49 df d9.  Masked to 12 bits they
    give 3913, which is not below q and would be rejected; the code instead
    reduces the 24-bit value and stores 392 as coefficient 0, where
    rejection sampling would store 2944.  The 768 bytes that the code
    requests hold only 202 acceptable 12-bit values, too few for 256
    coefficients. *)
Lemma generate_matrix_A_reduces_modulo_q :
  let rho := repeat x00 32 in
  let stream := prf (rho ++ [x00; x00]) 768 in
  (exists A row p, generate_matrix_A rho KYBER512 = Ok A /\
                   A !! 0%nat = Some row /\ row !! 0%nat = Some p /\
                   Polynomial.coeffs p !! 0%nat = Some 392) /\
  take 3 stream = [x49; xdf; xd9] /\
  Z.land (from_bytes_little [x49; xdf; xd9]) 4095 = 3913 /\ 3329 <= 3913 /\
  from_bytes_little [x49; xdf; xd9] mod 3329 = 392 /\
  nth 0 (uniform_rejection_spec 3329 stream) 0 = 2944 /\
  (length (uniform_rejection_spec 3329 stream) < 256)%nat.
Proof.
  intros rho stream. pose proof stream_00_facts as H. cbv zeta in H.
  fold rho in H. fold stream in H.
  destruct H as (H1 & H2 & H3 & H4). split; [| split; [exact H2 |]].
  - destruct (valid_params_shape KYBER512) as (Hn & Hq & [Hk Hk'] & Hdu & Hdv);
      [left; reflexivity |].
    rewrite generate_matrix_A_closed by assumption.
    do 3 eexists. split; [reflexivity |].
    split; [rewrite lookup_map; unfold range; rewrite lookup_seq_lt by (simpl; lia);
            reflexivity |].
    split; [rewrite lookup_map; unfold range; rewrite lookup_seq_lt by (simpl; lia);
            reflexivity |].
    rewrite new_coeffs by apply length_entry_coeffs. exact H1.
  - split; [reflexivity |]. split; [lia |]. split; [reflexivity |].
    split; [exact H3 | rewrite H4; lia].
Qed.

(** C8, amended.  For each entry (i, j) of the matrix, exactly 768 bytes
    of the SHAKE-128 stream of [rho + bytes([i, j])] are requested; triple
    [c] of the stream, read as a 24-bit little-endian integer and reduced
    modulo q, is coefficient [c] of the entry; no value is masked or
    rejected, and the 256 triples fill the 256 coefficients. *)
Theorem generate_matrix_A_entries rho params :
  valid_params params ->
  exists A, generate_matrix_A rho params = Ok A /\
    forall i j, (i < k params)%nat -> (j < k params)%nat ->
      exists stream row p,
        stream = prf (rho ++ [byte_of_Z (Z.of_nat i); byte_of_Z (Z.of_nat j)]) 768 /\
        length stream = 768%nat /\
        A !! i = Some row /\ row !! j = Some p /\
        length (Polynomial.coeffs p) = 256%nat /\
        forall c, (c < 256)%nat ->
          exists b0 b1 b2,
            stream !! (3 * c)%nat = Some b0 /\ stream !! (3 * c + 1)%nat = Some b1 /\
            stream !! (3 * c + 2)%nat = Some b2 /\
            Polynomial.coeffs p !! c
            = Some ((Z_of_byte b0 + 256 * Z_of_byte b1 + 65536 * Z_of_byte b2) mod 3329).
Proof.
  intros Hv. unpack_params Hv.
  eexists. split; [apply generate_matrix_A_closed; assumption |].
  intros i j Hi Hj.
  set (stream := prf (rho ++ [byte_of_Z (Z.of_nat i); byte_of_Z (Z.of_nat j)]) 768).
  assert (Hsl : length stream = 768%nat) by apply length_shake_128.
  exists stream. do 2 eexists. split; [reflexivity |]. split; [exact Hsl |].
  split; [rewrite lookup_map; unfold range; rewrite lookup_seq_lt by exact Hi;
          reflexivity |].
  split; [rewrite lookup_map; unfold range; rewrite lookup_seq_lt by exact Hj;
          reflexivity |].
  rewrite new_coeffs by apply length_entry_coeffs.
  split; [apply length_entry_coeffs |].
  intros c Hc.
  destruct (lookup_lt_is_Some_2 stream (3 * c)) as [b0 Hb0]; [lia |].
  destruct (lookup_lt_is_Some_2 stream (3 * c + 1)) as [b1 Hb1]; [lia |].
  destruct (lookup_lt_is_Some_2 stream (3 * c + 2)) as [b2 Hb2]; [lia |].
  exists b0, b1, b2. repeat (split; [assumption |]).
  change (0 + i)%nat with i. change (0 + j)%nat with j. fold stream.
  rewrite (entry_coeffs_lookup stream 256 3329 c Hc). f_equal.
  unfold slice. replace (3 * c + 3 - 3 * c)%nat with 3%nat by lia.
  rewrite (take3_drop stream (3 * c) b0 b1 b2 Hb0 Hb1 Hb2).
  cbn [from_bytes_little]. f_equal. lia.
Qed.

Lemma generate_matrix_A_entries_witness :
  valid_params KYBER512 /\
  exists A, generate_matrix_A (repeat x00 32) KYBER512 = Ok A.
Proof.
  split; [left; reflexivity |].
  destruct (generate_matrix_A_entries (repeat x00 32) KYBER512) as (A & HA & _);
    [left; reflexivity |].
  exists A. exact HA.
Defined.

(** C9 (as the code behaves).  For every parameter set and every public
    key, two entropy pools that agree on the 32 bytes drawn as [m] (all
    zero) and differ afterwards (0x00 against 0xff) make [encapsulate]
    return different ciphertexts: [encrypt] draws the noise [e1], [e2] from
    [os.urandom] and not from the coins derived from [m]. *)
Theorem encapsulate_depends_on_entropy_after_m params pk :
  valid_params params ->
  map pool_00 (seq 0 32) = map pool_00_then_ff (seq 0 32) /\
  exists c1 K1 s1' c2 K2 s2',
    KyberKEM.encapsulate params pk pool_00 = Ok ((c1, K1), s1') /\
    KyberKEM.encapsulate params pk pool_00_then_ff = Ok ((c2, K2), s2') /\
    c1 <> c2.
Proof.
  intros Hv. set (s1 := pool_00). set (s2 := pool_00_then_ff).
  unpack_params Hv.
  assert (Hm : map s1 (seq 0 32) = map s2 (seq 0 32)) by reflexivity.
  split; [exact Hm |].
  set (m := map s1 (seq 0 32)).
  assert (Hml : length m = 32%nat) by reflexivity.
  set (r := drop 32 (hash_g (m ++ hash_h pk))).
  destruct (returns_inv (generate_matrix_A (snd (decode_pk pk params)) params)
                        (matrix_ok (k params))) as (A & HAeq & HA);
    [apply generate_matrix_A_ok; assumption |].
  destruct (returns_inv (first_row_acc params A (sample_poly_from_seed r (eta1 params) 256))
                        (wf 256 3329)) as (acc & Hacc & Hwacc);
    [apply first_row_acc_ok; try assumption; apply sample_poly_from_seed_wf |].
  destruct (poly_bytes_head (du params) acc Hwacc) as (a & Ha).
  assert (H1 : returnsM (encrypt pk m r params) (fun i => s1 (32 + i)%nat)
                 (fun c _ => exists rest,
                    c = poly_bytes (du params) 3329
                          (Polynomial.mk
                             (pointwise Z.add 3329 acc
                                        (const_poly (1 * Z.of_nat (eta1 params))))
                             256 3329) ++ rest)).
  { apply encrypt_signed with (J := fun b => b = x00) (A := A); try assumption.
    - intros i. reflexivity.
    - intros b ->. reflexivity. }
  assert (H2 : returnsM (encrypt pk m r params) (fun i => s2 (32 + i)%nat)
                 (fun c _ => exists rest,
                    c = poly_bytes (du params) 3329
                          (Polynomial.mk
                             (pointwise Z.add 3329 acc
                                        (const_poly (-1 * Z.of_nat (eta1 params))))
                             256 3329) ++ rest)).
  { apply encrypt_signed with (J := fun b => b = xff) (A := A); try assumption.
    - intros i. reflexivity.
    - intros b ->. reflexivity. }
  apply returnsM_inv in H1 as (c1 & s1' & Hc1 & rest1 & Hr1).
  apply returnsM_inv in H2 as (c2 & s2' & Hc2 & rest2 & Hr2).
  exists c1, (kdf (take 32 (hash_g (m ++ hash_h pk)) ++ hash_h c1)), s1',
         c2, (kdf (take 32 (hash_g (m ++ hash_h pk)) ++ hash_h c2)), s2'.
  split; [| split].
  - unfold KyberKEM.encapsulate, bindM. rewrite urandom_spec. fold m. fold r.
    rewrite Hc1. reflexivity.
  - unfold KyberKEM.encapsulate, bindM. rewrite urandom_spec. rewrite <- Hm. fold m. fold r.
    rewrite Hc2. reflexivity.
  - intros Heq. destruct (Ha (1 * Z.of_nat (eta1 params))) as (t1 & Ht1).
    destruct (Ha (-1 * Z.of_nat (eta1 params))) as (t2 & Ht2).
    rewrite Hr1, Hr2, Ht1, Ht2, <- !app_assoc in Heq.
    apply app_inj_1 in Heq as [Heq _]; [| rewrite !length_head_bytes; reflexivity].
    exact (head_bytes_neq params a Hv Heq).
Qed.

Lemma encapsulate_depends_on_entropy_after_m_witness :
  valid_params KYBER512 /\
  exists c1 K1 s1' c2 K2 s2',
    KyberKEM.encapsulate KYBER512 (repeat x00 1568) pool_00 = Ok ((c1, K1), s1') /\
    KyberKEM.encapsulate KYBER512 (repeat x00 1568) pool_00_then_ff = Ok ((c2, K2), s2') /\
    c1 <> c2.
Proof.
  split; [left; reflexivity |].
  apply (encapsulate_depends_on_entropy_after_m KYBER512 (repeat x00 1568)).
  left. reflexivity.
Defined.
(** * Loops that raise *)

Lemma mapM_ext_eq {A B} (f g : A -> result B) (xs : list A) :
  (forall x, f x = g x) -> mapM f xs = mapM g xs.
Proof.
  intros H. induction xs as [|x xs IH]; [reflexivity |].
  cbn [mapM]. rewrite H, IH. reflexivity.
Qed.

(** A loop whose passes keep an invariant or raise [e], and one of whose
    passes is bound to raise [e], raises [e]. *)
Lemma for_raises {A S} (xs : list A) (body : A -> S -> result S) (I : S -> Prop)
      (e : exn) (s : S) :
  I s ->
  (forall x s, In x xs -> I s -> returns (body x s) I \/ body x s = Raise e) ->
  (exists x, In x xs /\ forall s, I s -> body x s = Raise e) ->
  for_ xs body s = Raise e.
Proof.
  revert s. induction xs as [|x xs IH]; intros s Hs Hstep (x0 & Hin & Hx0).
  - destruct Hin.
  - rewrite for_cons. destruct Hin as [<- | Hin].
    + rewrite (Hx0 s Hs). reflexivity.
    + destruct (Hstep x s (or_introl eq_refl) Hs) as [Hok | Hraise].
      * apply returns_inv in Hok as (s' & -> & Hs'). rewrite bind_Ok.
        apply IH; [exact Hs' | | eauto].
        intros y t Hy Ht. apply Hstep; [right; exact Hy | exact Ht].
      * rewrite Hraise. reflexivity.
Qed.

Lemma for_cases {A S} (xs : list A) (body : A -> S -> result S) (I : S -> Prop)
      (e : exn) (s : S) :
  I s ->
  (forall x s, In x xs -> I s -> returns (body x s) I \/ body x s = Raise e) ->
  returns (for_ xs body s) I \/ for_ xs body s = Raise e.
Proof.
  revert s. induction xs as [|x xs IH]; intros s Hs Hstep.
  - left. exact Hs.
  - rewrite for_cons.
    destruct (Hstep x s (or_introl eq_refl) Hs) as [Hok | Hraise].
    + apply returns_inv in Hok as (s' & -> & Hs'). rewrite bind_Ok.
      apply IH; [exact Hs' |].
      intros y t Hy Ht. apply Hstep; [right; exact Hy | exact Ht].
    + right. rewrite Hraise. reflexivity.
Qed.

(** * The transforms on every input *)

(** With a zero modulus the first butterfly of [ntt] divides by zero. *)
Lemma ntt_level_0_zero_modulus (cs : list Z) :
  (2 <= length cs)%nat -> ntt_level 0 0 (cs, 0) = Raise ZeroDivisionError.
Proof.
  intros H. destruct cs as [|c0 [|c1 rest]]; simpl in H; try lia.
  reflexivity.
Qed.

(** X1.  [ntt], and with it the method [to_ntt], returns for no input:
    a list that does not have 256 coefficients is refused with
    [ValueError], a zero modulus stops the first butterfly with
    [ZeroDivisionError], and in every other case the second level reads
    [ZETAS[128]] and raises [IndexError]. *)
Theorem ntt_always_raises (p : Polynomial.t) :
  ntt p = Raise (ntt_error p) /\ to_ntt p = Raise (ntt_error p).
Proof.
  assert (H : ntt p = Raise (ntt_error p)); [| split; exact H].
  unfold ntt_error.
  destruct (Nat.eqb_spec (length (Polynomial.coeffs p)) 256) as [Hlen | Hlen].
  - simpl negb. cbv iota.
    destruct (Z.eqb_spec (Polynomial.q p) 0) as [Hq | Hq].
    + unfold ntt. rewrite Hlen, Hq. simpl negb. cbv iota.
      change (range 7) with (0%nat :: range2 1 7).
      rewrite for_cons, ntt_level_0_zero_modulus by lia. reflexivity.
    + apply ntt_raises; assumption.
  - unfold ntt. destruct (Nat.eqb_spec (length (Polynomial.coeffs p)) 256); [contradiction |].
    reflexivity.
Qed.

Lemma invntt_butterfly_length q zeta distance j res :
  q <> 0 -> (j + distance < length res)%nat ->
  returns (invntt_butterfly q zeta distance j res) (fun res' => length res' = length res).
Proof.
  intros Hq Hj. unfold invntt_butterfly.
  destruct (item_lt res j) as (temp & _ & ->); [lia |]. rewrite bind_Ok.
  destruct (item_lt res (j + distance)) as (hi & _ & ->); [lia |]. rewrite bind_Ok.
  rewrite (py_mod_Ok _ q Hq), bind_Ok. cbv zeta.
  destruct (item_lt (<[j := (temp + hi) mod q]> res) (j + distance))
    as (hi' & _ & ->); [rewrite length_insert; lia |]. rewrite bind_Ok.
  rewrite (py_mod_Ok _ q Hq), bind_Ok.
  simpl. rewrite !length_insert. reflexivity.
Qed.

(** A table index between -128 and 127 is served: a negative one counts
    from the end of the table. *)
Lemma getitem_ZETAS_wrap (i : Z) : -128 <= i < 128 -> exists zeta, getitem ZETAS i = Ok zeta.
Proof.
  intros Hi. unfold getitem. rewrite length_ZETAS.
  destruct (Z.ltb_spec i 0) as [Hneg | Hpos].
  - destruct (Z.ltb_spec (i + Z.of_nat 128) 0); [lia |].
    destruct (item_lt ZETAS (Z.to_nat (i + Z.of_nat 128))) as (z & _ & ->);
      [rewrite length_ZETAS; lia | eauto].
  - destruct (Z.ltb_spec i 0); [lia |].
    destruct (item_lt ZETAS (Z.to_nat i)) as (z & _ & ->);
      [rewrite length_ZETAS; lia | eauto].
Qed.

Lemma invntt_group_length q distance start res k :
  q <> 0 -> -128 <= k < 128 -> (start + 2 * distance <= length res)%nat ->
  returns (invntt_group q distance start (res, k))
          (fun st => length (fst st) = length res /\ snd st = k - 1).
Proof.
  intros Hq Hk Hlen. unfold invntt_group. cbn [fst snd].
  destruct (getitem_ZETAS_wrap k Hk) as (zeta & ->). rewrite bind_Ok. cbv zeta.
  pose (I := fun (_ : nat) (r : list Z) => length r = length res).
  eapply returns_bind.
  - apply returns_for with (I := I); [reflexivity |].
    intros i j r Hj Hr. apply range2_lookup in Hj as [-> Hj]. unfold I in *.
    eapply returns_weaken; [apply invntt_butterfly_length; [exact Hq | lia] |].
    intros r' Hr'. simpl in Hr'. congruence.
  - intros r Hr. unfold I in Hr. simpl. split; [exact Hr | reflexivity].
Qed.

(** One level of [invntt] runs [2 ^ (7 - level)] groups and moves the table
    index down by as many. *)
Lemma invntt_level_length q level res k :
  q <> 0 -> (level <= 6)%nat -> (256 <= length res)%nat ->
  -128 <= k - (2 ^ (7 - Z.of_nat level) - 1) -> k < 128 ->
  returns (invntt_level q level (res, k))
          (fun st => length (fst st) = length res /\
                     snd st = k - 2 ^ (7 - Z.of_nat level)).
Proof.
  intros Hq Hlevel Hres Hlo Hhi. unfold invntt_level.
  pose (I := fun (g : nat) (st : list Z * Z) =>
               length (fst st) = length res /\ snd st = k - Z.of_nat g).
  set (distance := Nat.shiftl 1 level).
  set (groups := Z.to_nat (2 ^ (7 - Z.of_nat level))).
  assert (Hshape : length (range3 0 256 (Nat.shiftl distance 1)) = groups /\
                   (groups * (2 * distance) = 256)%nat /\
                   Nat.shiftl distance 1 = (2 * distance)%nat /\
                   Z.of_nat groups = 2 ^ (7 - Z.of_nat level)).
  { subst distance groups.
    do 7 (destruct level as [|level]; [vm_compute; auto |]). lia. }
  destruct Hshape as (Hgroups & Hmul & Hstep & HG).
  assert (H : returns (for_ (range3 0 256 (Nat.shiftl distance 1))
                            (invntt_group q distance) (res, k))
                      (I (length (range3 0 256 (Nat.shiftl distance 1))))).
  2: { rewrite Hgroups in H. eapply returns_weaken; [exact H |].
       intros st [H1 H2]. split; [exact H1 | lia]. }
  apply returns_for with (I := I).
  - split; [reflexivity | simpl; lia].
  - intros g start [r kk] Hstart [Hr Hkk]. cbn [fst snd] in Hr, Hkk. subst kk.
    assert (Hg : (g < groups)%nat).
    { apply lookup_lt_Some in Hstart. rewrite Hgroups in Hstart. exact Hstart. }
    apply range3_lookup in Hstart as [-> _]. rewrite Hstep.
    eapply returns_weaken;
      [apply invntt_group_length; [exact Hq | lia | rewrite Hr; nia] |].
    intros [r' k'] [Hr' Hk']. cbn [fst snd] in *. unfold I. cbn [fst snd].
    split; [congruence | lia].
Qed.

Lemma invntt_good (p : Polynomial.t) :
  (256 <= length (Polynomial.coeffs p))%nat -> Polynomial.q p <> 0 ->
  returns (invntt p)
          (fun r => length (Polynomial.coeffs r) = length (Polynomial.coeffs p) /\
                    Polynomial.n r = 256%nat /\ Polynomial.q r = Polynomial.q p /\
                    (0 < Polynomial.q p -> reduced (Polynomial.q p) r)).
Proof.
  intros Hlen Hq.
  unfold invntt.
  pose (I := fun (i : nat) (st : list Z * Z) =>
               length (fst st) = length (Polynomial.coeffs p) /\
               snd st = 129 - 2 ^ (Z.of_nat i + 1)).
  eapply returns_bind.
  - apply returns_for with (I := I).
    + split; reflexivity.
    + intros i level [res k] Hlevel [Hres Hk]. cbn [fst snd] in Hres, Hk. subst k.
      assert (Hi : (i < 7)%nat).
      { apply lookup_lt_Some in Hlevel. exact Hlevel. }
      assert (Hl : level = (6 - i)%nat).
      { do 7 (destruct i as [|i]; [injection Hlevel as <-; reflexivity |]). lia. }
      subst level.
      assert (Hpow : 2 ^ (7 - Z.of_nat (6 - i)) = 2 ^ (Z.of_nat i + 1)).
      { f_equal. lia. }
      assert (Hrange : 2 <= 2 ^ (Z.of_nat i + 1) <= 128).
      { do 7 (destruct i as [|i]; [vm_compute; split; discriminate |]). lia. }
      eapply returns_weaken;
        [apply invntt_level_length; [exact Hq | lia | lia | rewrite Hpow; lia | lia] |].
      intros [res' k'] [Hres' Hk']. cbn [fst snd] in *. unfold I. cbn [fst snd].
      split; [congruence |].
      rewrite Hk', Hpow.
      replace (Z.of_nat (S i) + 1) with (Z.succ (Z.of_nat i + 1)) by lia.
      rewrite Z.pow_succ_r by lia. lia.
  - intros [res k] [Hres _]. cbn [fst snd] in *.
    rewrite (mapM_map _ (fun x => (x * 1441) mod Polynomial.q p))
      by (intros x; apply py_mod_Ok; exact Hq).
    rewrite bind_Ok. unfold ntt_Polynomial. cbn.
    rewrite length_map. repeat split; [exact Hres |].
    intros Hpos. unfold reduced. cbn. apply List.Forall_forall. intros y Hy.
    apply in_map_iff in Hy as (x & <- & _). apply Z.mod_pos_bound. exact Hpos.
Qed.

(** X2.  [invntt], and with it the method [to_normal], has no length check
    and never runs off its table: for a list of at least 256 coefficients
    and a modulus other than zero it returns a polynomial with as many
    coefficients as it was given, each in [0, q) when q is positive.  The
    table index starts at 127 and is decremented 254 times, down to -127;
    the negative indices are served from the end of [ZETAS]. *)
Theorem invntt_returns (p : Polynomial.t) :
  (256 <= length (Polynomial.coeffs p))%nat -> Polynomial.q p <> 0 ->
  let good := fun r => length (Polynomial.coeffs r) = length (Polynomial.coeffs p) /\
                       Polynomial.n r = 256%nat /\ Polynomial.q r = Polynomial.q p /\
                       (0 < Polynomial.q p -> reduced (Polynomial.q p) r) in
  returns (invntt p) good /\ returns (to_normal p) good.
Proof.
  intros Hlen Hq good.
  assert (H : returns (invntt p) good) by (apply invntt_good; assumption).
  split; exact H.
Qed.

Lemma invntt_returns_witness :
  let p := ntt_Polynomial (repeat 1 256) 3329 in
  (256 <= length (Polynomial.coeffs p))%nat /\ Polynomial.q p <> 0 /\
  returns (invntt p) (fun r => length (Polynomial.coeffs r) = 256%nat).
Proof.
  assert (Hlen : (256 <= length (Polynomial.coeffs (ntt_Polynomial (repeat 1%Z 256) 3329%Z)))%nat).
  { unfold ntt_Polynomial. cbn [Polynomial.coeffs]. rewrite repeat_length. lia. }
  split; [exact Hlen |]. split; [discriminate |].
  destruct (invntt_returns (ntt_Polynomial (repeat 1 256) 3329) Hlen) as [H _].
  - discriminate.
  - eapply returns_weaken; [exact H |]. intros r (Hr & _). rewrite Hr.
    unfold ntt_Polynomial. cbn [Polynomial.coeffs]. apply repeat_length.
Defined.

(** A butterfly of [invntt] needs both of its positions. *)
Lemma invntt_butterfly_cases q zeta distance j res :
  q <> 0 ->
  returns (invntt_butterfly q zeta distance j res) (fun res' => length res' = length res)
  \/ invntt_butterfly q zeta distance j res = Raise IndexError.
Proof.
  intros Hq. destruct (Nat.lt_ge_cases (j + distance) (length res)) as [Hj | Hj].
  - left. apply invntt_butterfly_length; assumption.
  - right. unfold invntt_butterfly.
    destruct (Nat.lt_ge_cases j (length res)) as [Hj' | Hj'].
    + destruct (item_lt res j Hj') as (temp & _ & ->). rewrite bind_Ok.
      rewrite (item_ge res (j + distance) Hj). reflexivity.
    + rewrite (item_ge res j Hj'). reflexivity.
Qed.

Lemma invntt_butterfly_short q zeta distance j res :
  (length res <= j + distance)%nat ->
  invntt_butterfly q zeta distance j res = Raise IndexError.
Proof.
  intros Hj. unfold invntt_butterfly.
  destruct (Nat.lt_ge_cases j (length res)) as [Hj' | Hj'].
  - destruct (item_lt res j Hj') as (temp & _ & ->). rewrite bind_Ok.
    rewrite (item_ge res (j + distance) Hj). reflexivity.
  - rewrite (item_ge res j Hj'). reflexivity.
Qed.

Lemma invntt_group_cases q distance start res k :
  q <> 0 ->
  returns (invntt_group q distance start (res, k))
          (fun st => length (fst st) = length res /\ snd st = k - 1)
  \/ invntt_group q distance start (res, k) = Raise IndexError.
Proof.
  intros Hq. unfold invntt_group. cbn [fst snd].
  assert (Hz : (exists zeta, getitem ZETAS k = Ok zeta) \/ getitem ZETAS k = Raise IndexError).
  { unfold getitem.
    destruct (_ <? 0); [right; reflexivity |]. unfold item.
    destruct (ZETAS !! _); [left; eauto | right; reflexivity]. }
  destruct Hz as [(zeta & ->) | ->]; [| right; reflexivity].
  rewrite bind_Ok. cbv zeta.
  destruct (for_cases (range2 start (start + distance)) (invntt_butterfly q zeta distance)
              (fun r => length r = length res) IndexError res eq_refl) as [Hok | ->].
  - intros j r _ Hr. rewrite <- Hr. apply invntt_butterfly_cases. exact Hq.
  - left. apply returns_inv in Hok as (r & -> & Hr). split; [exact Hr | reflexivity].
  - right. reflexivity.
Qed.

(** A group whose last butterfly reaches past the end of the list. *)
Lemma invntt_group_short q distance start res k :
  q <> 0 -> (0 < distance)%nat -> (length res < start + 2 * distance)%nat ->
  invntt_group q distance start (res, k) = Raise IndexError.
Proof.
  intros Hq Hd Hlen. unfold invntt_group. cbn [fst snd].
  destruct (getitem ZETAS k) as [zeta | e] eqn:Hz.
  2: { revert Hz. unfold getitem. destruct (_ <? 0); [intros [= <-]; reflexivity |].
       unfold item. destruct (ZETAS !! _); [discriminate | intros [= <-]; reflexivity]. }
  rewrite bind_Ok. cbv zeta.
  rewrite (for_raises (range2 start (start + distance)) (invntt_butterfly q zeta distance)
             (fun r => length r = length res) IndexError res eq_refl); [reflexivity | |].
  - intros j r _ Hr. rewrite <- Hr. apply invntt_butterfly_cases. exact Hq.
  - exists (start + distance - 1)%nat. split.
    + unfold range2. apply in_seq. lia.
    + intros r Hr. apply invntt_butterfly_short. lia.
Qed.

(** The first level works on the two halves of 256 positions. *)
Lemma invntt_level_6_short q res k :
  q <> 0 -> (length res < 256)%nat -> invntt_level q 6 (res, k) = Raise IndexError.
Proof.
  intros Hq Hlen. unfold invntt_level.
  change (Nat.shiftl 1 6) with 64%nat.
  change (range3 0 256 (Nat.shiftl 64 1)) with [0%nat; 128%nat].
  rewrite for_cons.
  destruct (invntt_group_cases q 64 0 res k Hq) as [Hok | ->]; [| reflexivity].
  apply returns_inv in Hok as ([r k'] & -> & Hr & _). cbn [fst] in Hr.
  rewrite bind_Ok, for_single.
  apply invntt_group_short; [exact Hq | lia | lia].
Qed.

(** [invntt] starts with the butterfly of positions 0 and 64, with the
    last entry of the table. *)
Lemma invntt_first_butterfly (p : Polynomial.t) (e : exn) :
  invntt_butterfly (Polynomial.q p) 1628 64 0 (Polynomial.coeffs p) = Raise e ->
  invntt p = Raise e.
Proof.
  intros H. unfold invntt.
  change (rev (range 7)) with (6%nat :: rev (range 6)).
  rewrite for_cons. unfold invntt_level at 1.
  change (Nat.shiftl 1 6) with 64%nat.
  change (range3 0 256 (Nat.shiftl 64 1)) with [0%nat; 128%nat].
  rewrite for_cons. unfold invntt_group at 1. cbn [fst snd].
  change (getitem ZETAS 127) with (@Ok Z 1628). rewrite bind_Ok.
  change (range2 0 (0 + 64)) with (0%nat :: range2 1 64).
  rewrite for_cons, H. reflexivity.
Qed.

(** X3.  What [invntt] does with the inputs it cannot transform, having no
    check of its own: up to 64 coefficients, the first butterfly misses a
    position and raises [IndexError]; with more than 64 coefficients and a
    zero modulus, the first butterfly raises [ZeroDivisionError]; with
    fewer than 256 coefficients and a modulus other than zero, the first
    level raises [IndexError] on the first position that is missing. *)
Theorem invntt_raises (p : Polynomial.t) :
  ((length (Polynomial.coeffs p) <= 64)%nat -> invntt p = Raise IndexError) /\
  ((64 < length (Polynomial.coeffs p))%nat -> Polynomial.q p = 0 ->
   invntt p = Raise ZeroDivisionError) /\
  ((length (Polynomial.coeffs p) < 256)%nat -> Polynomial.q p <> 0 ->
   invntt p = Raise IndexError).
Proof.
  split; [| split].
  - intros Hlen. apply invntt_first_butterfly, invntt_butterfly_short. lia.
  - intros Hlen Hq. apply invntt_first_butterfly. unfold invntt_butterfly.
    destruct (item_lt (Polynomial.coeffs p) 0) as (temp & _ & ->); [lia |].
    rewrite bind_Ok.
    destruct (item_lt (Polynomial.coeffs p) (0 + 64)) as (hi & _ & ->); [lia |].
    rewrite bind_Ok, Hq. reflexivity.
  - intros Hlen Hq. unfold invntt.
    change (rev (range 7)) with (6%nat :: rev (range 6)).
    rewrite for_cons, invntt_level_6_short by assumption. reflexivity.
Qed.

Lemma invntt_raises_witness :
  let p := ntt_Polynomial [1; 2; 3] 3329 in
  (length (Polynomial.coeffs p) < 256)%nat /\ Polynomial.q p <> 0 /\
  invntt p = Raise IndexError.
Proof.
  intros p.
  assert (Hlen : (length (Polynomial.coeffs p) < 256)%nat) by (simpl; lia).
  assert (Hq : Polynomial.q p <> 0) by discriminate.
  split; [exact Hlen |]. split; [exact Hq |].
  exact (proj2 (proj2 (invntt_raises p)) Hlen Hq).
Defined.

(** ** [invntt] is additive *)

(** Three runs of a loop, side by side. *)
Lemma for_lockstep {A S} (xs : list A) (body : A -> S -> result S)
      (R : S -> S -> S -> Prop) (a b c a' b' c' : S) :
  R a b c ->
  (forall x a b c a' b' c', In x xs -> R a b c ->
     body x a = Ok a' -> body x b = Ok b' -> body x c = Ok c' -> R a' b' c') ->
  for_ xs body a = Ok a' -> for_ xs body b = Ok b' -> for_ xs body c = Ok c' ->
  R a' b' c'.
Proof.
  revert a b c. induction xs as [|x xs IH]; intros a b c HR Hstep Ha Hb Hc.
  - cbn in Ha, Hb, Hc. injection Ha as <-. injection Hb as <-. injection Hc as <-. exact HR.
  - rewrite for_cons in Ha, Hb, Hc.
    destruct (body x a) as [a1|] eqn:Ea; [| discriminate].
    destruct (body x b) as [b1|] eqn:Eb; [| discriminate].
    destruct (body x c) as [c1|] eqn:Ec; [| discriminate].
    rewrite bind_Ok in Ha, Hb, Hc.
    apply (IH a1 b1 c1); try assumption.
    + apply (Hstep x a b c a1 b1 c1 (or_introl eq_refl) HR Ea Eb Ec).
    + intros y a0 b0 c0 a0' b0' c0' Hy. apply Hstep. right. exact Hy.
Qed.

(** What a butterfly of [invntt] stores, when it returns. *)
Lemma invntt_butterfly_value q zeta distance j res res' :
  (0 < distance)%nat -> invntt_butterfly q zeta distance j res = Ok res' ->
  exists t h, res !! j = Some t /\ res !! (j + distance)%nat = Some h /\ q <> 0 /\
              res' = <[(j + distance)%nat := ((t - h) * zeta) mod q]>
                       (<[j := (t + h) mod q]> res).
Proof.
  intros Hd. unfold invntt_butterfly.
  destruct (item res j) as [t|] eqn:Et; [| discriminate]. rewrite bind_Ok.
  destruct (item res (j + distance)) as [h|] eqn:Eh; [| discriminate]. rewrite bind_Ok.
  apply item_Ok_lookup in Et, Eh.
  unfold py_mod. destruct (Z.eqb_spec q 0) as [Hq | Hq]; [discriminate |].
  rewrite !bind_Ok. cbv zeta.
  rewrite (item_lookup _ _ h) by (rewrite list_lookup_insert_ne by lia; exact Eh).
  rewrite bind_Ok. destruct (Z.eqb_spec q 0); [contradiction |].
  rewrite bind_Ok. intros [= <-]. exists t, h. auto.
Qed.

Lemma sum_mod_butterfly q zeta distance j ra rb rc ra' rb' rc' :
  (0 < distance)%nat -> sum_mod q ra rb rc ->
  invntt_butterfly q zeta distance j ra = Ok ra' ->
  invntt_butterfly q zeta distance j rb = Ok rb' ->
  invntt_butterfly q zeta distance j rc = Ok rc' ->
  sum_mod q ra' rb' rc'.
Proof.
  intros Hd (Hab & Hbc & Hsum) Ha Hb Hc.
  destruct (invntt_butterfly_value _ _ _ _ _ _ Hd Ha) as (ta & ha & Hta & Hha & Hq & ->).
  destruct (invntt_butterfly_value _ _ _ _ _ _ Hd Hb) as (tb & hb & Htb & Hhb & _ & ->).
  destruct (invntt_butterfly_value _ _ _ _ _ _ Hd Hc) as (tc & hc & Htc & Hhc & _ & ->).
  pose proof (Hsum _ _ _ _ Hta Htb Htc) as Ht.
  pose proof (Hsum _ _ _ _ Hha Hhb Hhc) as Hh.
  assert (Hlo : ((tc + hc) mod q) mod q = ((ta + ha) mod q + (tb + hb) mod q) mod q).
  { rewrite Zmod_mod, <- Zplus_mod.
    rewrite (Zplus_mod tc hc), Ht, Hh, <- Zplus_mod. f_equal. lia. }
  assert (Hhi : (((tc - hc) * zeta) mod q) mod q
                = (((ta - ha) * zeta) mod q + ((tb - hb) * zeta) mod q) mod q).
  { rewrite Zmod_mod, <- Zplus_mod.
    rewrite (Zmult_mod (tc - hc)), (Zminus_mod tc hc), Ht, Hh, <- Zminus_mod, <- Zmult_mod.
    f_equal. lia. }
  split; [rewrite !length_insert; exact Hab |].
  split; [rewrite !length_insert; exact Hbc |].
  intros i x y z Hx Hy Hz.
  apply lookup_lt_Some in Hha as Hla. apply lookup_lt_Some in Hhb as Hlb.
  apply lookup_lt_Some in Hhc as Hlc.
  destruct (Nat.eq_dec i (j + distance)%nat) as [-> | Hne1].
  - rewrite list_lookup_insert_eq in Hx, Hy, Hz by (rewrite length_insert; assumption).
    injection Hx as <-. injection Hy as <-. injection Hz as <-. exact Hhi.
  - rewrite list_lookup_insert_ne in Hx, Hy, Hz by congruence.
    destruct (Nat.eq_dec i j) as [-> | Hne2].
    + rewrite list_lookup_insert_eq in Hx, Hy, Hz by lia.
      injection Hx as <-. injection Hy as <-. injection Hz as <-. exact Hlo.
    + rewrite list_lookup_insert_ne in Hx, Hy, Hz by congruence.
      apply (Hsum i x y z Hx Hy Hz).
Qed.

Lemma sum_mod_group q distance start (sa sb sc sa' sb' sc' : list Z * Z) :
  (0 < distance)%nat ->
  sum_mod q (fst sa) (fst sb) (fst sc) /\ snd sa = snd sb /\ snd sb = snd sc ->
  invntt_group q distance start sa = Ok sa' ->
  invntt_group q distance start sb = Ok sb' ->
  invntt_group q distance start sc = Ok sc' ->
  sum_mod q (fst sa') (fst sb') (fst sc') /\ snd sa' = snd sb' /\ snd sb' = snd sc'.
Proof.
  intros Hd (HR & Hk1 & Hk2). unfold invntt_group. rewrite <- Hk2, <- Hk1.
  destruct (getitem ZETAS (snd sa)) as [zeta|]; [| discriminate]. rewrite !bind_Ok.
  cbv zeta.
  destruct (for_ _ _ (fst sa)) as [ra|] eqn:Ea; [| discriminate].
  destruct (for_ _ _ (fst sb)) as [rb|] eqn:Eb; [| discriminate].
  destruct (for_ _ _ (fst sc)) as [rc|] eqn:Ec; [| discriminate].
  rewrite !bind_Ok. intros [= <-] [= <-] [= <-]. cbn [fst snd].
  split; [| split; reflexivity].
  eapply (for_lockstep _ _ (sum_mod q)); [exact HR | | exact Ea | exact Eb | exact Ec].
  intros j a b c a' b' c' _ HR'. apply sum_mod_butterfly; assumption.
Qed.

Lemma shiftl_1_pos (level : nat) : (0 < Nat.shiftl 1 level)%nat.
Proof. rewrite Nat.shiftl_1_l. apply Nat.neq_0_lt_0. apply Nat.pow_nonzero. discriminate. Qed.

Lemma sum_mod_levels q (levels : list nat) (sa sb sc sa' sb' sc' : list Z * Z) :
  sum_mod q (fst sa) (fst sb) (fst sc) /\ snd sa = snd sb /\ snd sb = snd sc ->
  for_ levels (invntt_level q) sa = Ok sa' ->
  for_ levels (invntt_level q) sb = Ok sb' ->
  for_ levels (invntt_level q) sc = Ok sc' ->
  sum_mod q (fst sa') (fst sb') (fst sc') /\ snd sa' = snd sb' /\ snd sb' = snd sc'.
Proof.
  intros HR.
  apply (for_lockstep levels (invntt_level q)
           (fun sa sb sc => sum_mod q (fst sa) (fst sb) (fst sc) /\
                            snd sa = snd sb /\ snd sb = snd sc)); [exact HR |].
  intros level a b c a' b' c' _ HR'. unfold invntt_level.
  apply (for_lockstep _ _
           (fun sa sb sc => sum_mod q (fst sa) (fst sb) (fst sc) /\
                            snd sa = snd sb /\ snd sb = snd sc)); [exact HR' |].
  intros start a0 b0 c0 a0' b0' c0' _ HR0.
  apply sum_mod_group; [apply shiftl_1_pos | exact HR0].
Qed.

Lemma invntt_value (p r : Polynomial.t) :
  Polynomial.q p <> 0 -> invntt p = Ok r ->
  exists st, for_ (rev (range 7)) (invntt_level (Polynomial.q p))
               (Polynomial.coeffs p, 127) = Ok st /\
             Polynomial.coeffs r = map (fun x => (x * 1441) mod Polynomial.q p) (fst st).
Proof.
  intros Hq. unfold invntt. destruct (for_ _ _ _) as [st|]; [| discriminate].
  rewrite bind_Ok.
  rewrite (mapM_map _ (fun x => (x * 1441) mod Polynomial.q p))
    by (intros x; apply py_mod_Ok; exact Hq).
  rewrite bind_Ok. intros [= <-]. exists st. split; reflexivity.
Qed.

(** X4.  [invntt] is additive modulo [q]: when the coefficients of [c]
    are congruent to the sums of those of [a] and [b] (lists of one
    length, at least 256, one modulus other than zero), the three
    transforms return, and every coefficient of the transform of [c] is
    the sum of the coefficients of the transforms of [a] and [b], reduced
    modulo [q]. *)
Theorem invntt_additive (a b c : Polynomial.t) :
  (256 <= length (Polynomial.coeffs a))%nat -> Polynomial.q a <> 0 ->
  Polynomial.q b = Polynomial.q a -> Polynomial.q c = Polynomial.q a ->
  sum_mod (Polynomial.q a) (Polynomial.coeffs a) (Polynomial.coeffs b) (Polynomial.coeffs c) ->
  exists ra rb rc,
    invntt a = Ok ra /\ invntt b = Ok rb /\ invntt c = Ok rc /\
    length (Polynomial.coeffs rc) = length (Polynomial.coeffs a) /\
    forall i x y z,
      Polynomial.coeffs ra !! i = Some x -> Polynomial.coeffs rb !! i = Some y ->
      Polynomial.coeffs rc !! i = Some z -> z = (x + y) mod Polynomial.q a.
Proof.
  intros Hlen Hq Hqb Hqc Hsum. pose proof Hsum as (Hab & Hbc & _).
  destruct (returns_inv _ _ (invntt_good a Hlen Hq)) as (ra & Ha & _).
  destruct (returns_inv _ _ (invntt_good b ltac:(lia) ltac:(congruence))) as (rb & Hb & _).
  destruct (returns_inv _ _ (invntt_good c ltac:(lia) ltac:(congruence)))
    as (rc & Hc & Hlc & _).
  exists ra, rb, rc. split; [exact Ha |]. split; [exact Hb |]. split; [exact Hc |].
  split; [lia |].
  destruct (invntt_value a ra Hq Ha) as (sa & Hsa & Hra).
  destruct (invntt_value b rb ltac:(congruence) Hb) as (sb & Hsb & Hrb).
  destruct (invntt_value c rc ltac:(congruence) Hc) as (sc & Hsc & Hrc).
  rewrite Hqb in Hsb, Hrb. rewrite Hqc in Hsc, Hrc.
  destruct (sum_mod_levels (Polynomial.q a) (rev (range 7))
              (Polynomial.coeffs a, 127) (Polynomial.coeffs b, 127)
              (Polynomial.coeffs c, 127) sa sb sc
              (conj Hsum (conj eq_refl eq_refl)) Hsa Hsb Hsc) as ((_ & _ & HR) & _).
  intros i x y z Hx Hy Hz. rewrite Hra in Hx. rewrite Hrb in Hy. rewrite Hrc in Hz.
  rewrite lookup_map in Hx, Hy, Hz.
  destruct (fst sa !! i) as [xa|] eqn:Exa; [| discriminate].
  destruct (fst sb !! i) as [xb|] eqn:Exb; [| discriminate].
  destruct (fst sc !! i) as [xc|] eqn:Exc; [| discriminate].
  cbn in Hx, Hy, Hz. injection Hx as <-. injection Hy as <-. injection Hz as <-.
  rewrite <- Zplus_mod, Zmult_mod, (HR i xa xb xc Exa Exb Exc), <- Zmult_mod.
  f_equal. lia.
Qed.

Lemma invntt_additive_witness :
  let a := ntt_Polynomial (repeat 1 256) 3329 in
  let b := ntt_Polynomial (repeat 2 256) 3329 in
  let c := ntt_Polynomial (repeat 3 256) 3329 in
  exists ra rb rc, invntt a = Ok ra /\ invntt b = Ok rb /\ invntt c = Ok rc /\
                   length (Polynomial.coeffs rc) = length (Polynomial.coeffs a).
Proof.
  intros a b c.
  destruct (invntt_additive a b c) as (ra & rb & rc & H1 & H2 & H3 & H4 & _).
  - unfold a, ntt_Polynomial. cbn [Polynomial.coeffs]. rewrite repeat_length. lia.
  - discriminate.
  - reflexivity.
  - reflexivity.
  - unfold a, b, c, ntt_Polynomial. cbn [Polynomial.coeffs Polynomial.q].
    split; [rewrite !repeat_length; reflexivity |].
    split; [rewrite !repeat_length; reflexivity |].
    intros i x y z Hx Hy Hz.
    apply lookup_repeat in Hx as [-> _]. apply lookup_repeat in Hy as [-> _].
    apply lookup_repeat in Hz as [-> _]. reflexivity.
  - exists ra, rb, rc. auto.
Defined.

(** * The symmetric primitives *)

Lemma squeeze_prefix (a b : nat) (st : list Z) :
  (a <= b)%nat ->
  Keccak.squeeze a st = take (a * Keccak.rate) (Keccak.squeeze b st).
Proof.
  revert b st. induction a as [|a IH]; intros b st Hab.
  - reflexivity.
  - destruct b as [|b]; [lia |]. cbn [Keccak.squeeze].
    replace (S a * Keccak.rate)%nat
      with (length (map (Keccak.out_byte st) (seq 0 Keccak.rate)) + a * Keccak.rate)%nat
      by (rewrite length_map, length_seq; lia).
    rewrite take_app_add. f_equal. apply IH. lia.
Qed.

(** A shorter digest is the beginning of a longer one of the same message. *)
Lemma shake_128_prefix (msg : bytes) (a b : nat) :
  (a <= b)%nat -> take a (Keccak.shake_128 msg b) = Keccak.shake_128 msg a.
Proof.
  intros Hab. unfold Keccak.shake_128. cbv zeta.
  set (st := Keccak.absorb _ _ _).
  rewrite take_take, Nat.min_l by exact Hab.
  assert (Hdiv : (a / Keccak.rate + 1 <= b / Keccak.rate + 1)%nat).
  { apply Nat.add_le_mono_r. apply Nat.Div0.div_le_mono. exact Hab. }
  rewrite (squeeze_prefix _ _ st Hdiv), take_take. f_equal.
  assert (Hlt : (a < (a / Keccak.rate + 1) * Keccak.rate)%nat).
  { unfold Keccak.rate.
    pose proof (Nat.div_mod_eq a 168). pose proof (Nat.mod_upper_bound a 168). lia. }
  lia.
Qed.

(** X5.  The five wrappers of [kyber/symmetric.py] are one function,
    SHAKE-128 of the bare input: nothing separates their domains.  [kdf]
    and [hash_h] agree on every message, [hash_h] is the first half of
    [hash_g], [xof] is [prf], and a shorter [prf] output is the beginning
    of a longer one from the same seed. *)
Theorem symmetric_primitives_coincide (msg : bytes) (a b : nat) :
  kdf msg = hash_h msg /\
  hash_h msg = take 32 (hash_g msg) /\
  prf msg 32 = hash_h msg /\
  prf msg 64 = hash_g msg /\
  xof msg a = prf msg a /\
  ((a <= b)%nat -> take a (prf msg b) = prf msg a).
Proof.
  split; [reflexivity |].
  split; [unfold hash_h, hash_g; symmetry; apply shake_128_prefix; lia |].
  split; [reflexivity |]. split; [reflexivity |]. split; [reflexivity |].
  intros Hab. apply shake_128_prefix. exact Hab.
Qed.

Lemma symmetric_primitives_coincide_witness :
  (32 <= 64)%nat /\ take 32 (prf [x00] 64) = prf [x00] 32.
Proof.
  split; [lia |].
  apply (symmetric_primitives_coincide [x00] 32 64). lia.
Defined.

(** X6.  [parse_hash_g_output] refuses every input that is not 64 bytes
    long with [ValueError]; it accepts every output of [hash_g] and cuts
    it into the two 32-byte halves that [encapsulate] takes as K and r. *)
Theorem parse_hash_g_output_halves (h msg : bytes) :
  (length h <> 64%nat -> parse_hash_g_output h = Raise ValueError) /\
  (length h = 64%nat ->
   exists K r, parse_hash_g_output h = Ok (K, r) /\
               length K = 32%nat /\ length r = 32%nat /\ K ++ r = h) /\
  parse_hash_g_output (hash_g msg) = Ok (take 32 (hash_g msg), drop 32 (hash_g msg)).
Proof.
  unfold parse_hash_g_output. split; [| split].
  - intros H. destruct (Nat.eqb_spec (length h) 64); [contradiction | reflexivity].
  - intros H. rewrite H. simpl negb. cbv iota.
    exists (take 32 h), (drop 32 h). split; [reflexivity |].
    rewrite length_take, length_drop, H, take_drop. repeat split; lia.
  - unfold hash_g. rewrite length_shake_128. reflexivity.
Qed.

Lemma parse_hash_g_output_halves_witness :
  length (repeat x00 63) <> 64%nat /\
  parse_hash_g_output (repeat x00 63) = Raise ValueError.
Proof.
  assert (H : length (repeat x00 63) <> 64%nat) by (rewrite repeat_length; lia).
  split; [exact H |].
  exact (proj1 (parse_hash_g_output_halves (repeat x00 63) []) H).
Defined.

(** ** [cbd] *)

Lemma bit_range (x : Z) (j : nat) : 0 <= Z.land (Z.shiftr x (Z.of_nat j)) 1 <= 1.
Proof. rewrite land_1_bit. destruct (Z.testbit x (Z.of_nat j)); simpl; lia. Qed.

Lemma sum_bits (bs : list Z) :
  Forall (fun b => 0 <= b <= 1) bs -> 0 <= fold_left Z.add bs 0 <= Z.of_nat (length bs).
Proof.
  assert (H : forall acc, Forall (fun b => 0 <= b <= 1) bs ->
                          acc <= fold_left Z.add bs acc <= acc + Z.of_nat (length bs)).
  { induction bs as [|b bs IH]; intros acc Hbs.
    - simpl. lia.
    - apply Forall_cons in Hbs as [Hb Hbs]. cbn [fold_left length].
      specialize (IH (acc + b) Hbs). lia. }
  intros Hbs. specialize (H 0 Hbs). lia.
Qed.

(** One of the two sums of [cbd]: [eta] bits, read from position [base]
    on. *)
Lemma cbd_sum_ok (buf : bytes) (eta base : nat) :
  (eta = 0%nat \/ base + (eta - 1) / 8 < length buf)%nat ->
  returns (mapM (fun j => x <- item buf (base + j / 8) ;;
                          Ok (Z.land (Z.shiftr (Z_of_byte x) (Z.of_nat (j mod 8))) 1))
                (range eta))
          (fun bits => 0 <= fold_left Z.add bits 0 <= Z.of_nat eta).
Proof.
  intros Hfit.
  eapply returns_weaken.
  - apply returns_mapM with (P := fun (_ : nat) (b : Z) => 0 <= b <= 1).
    intros i j Hj. apply range_lookup in Hj as [-> Hj].
    destruct (item_lt buf (base + i / 8)) as (x & _ & ->).
    + destruct Hfit as [-> | Hfit]; [lia |].
      assert (i / 8 <= (eta - 1) / 8)%nat by (apply Nat.Div0.div_le_mono; lia). lia.
    + rewrite bind_Ok. apply bit_range.
  - intros bits Hbits. apply Forall2_right in Hbits as [Hbits Hlen].
    rewrite length_range in Hlen. rewrite <- Hlen. apply sum_bits. exact Hbits.
Qed.

Lemma cbd_sum_cases (buf : bytes) (eta base : nat) :
  (exists bits, mapM (fun j => x <- item buf (base + j / 8) ;;
                               Ok (Z.land (Z.shiftr (Z_of_byte x) (Z.of_nat (j mod 8))) 1))
                     (range eta) = Ok bits)
  \/ mapM (fun j => x <- item buf (base + j / 8) ;;
                    Ok (Z.land (Z.shiftr (Z_of_byte x) (Z.of_nat (j mod 8))) 1))
          (range eta) = Raise IndexError.
Proof.
  match goal with
  | |- (exists bits, mapM ?f ?xs = Ok bits) \/ _ =>
      destruct (mapM_cases f xs IndexError) as [(bits & H & _) | H]
  end.
  - intros j. unfold item. destruct (buf !! _); [left; eexists; reflexivity | right; reflexivity].
  - left. eauto.
  - right. exact H.
Qed.

Lemma cbd_sum_short (buf : bytes) (eta base : nat) :
  (0 < eta)%nat -> (length buf <= base + (eta - 1) / 8)%nat ->
  mapM (fun j => x <- item buf (base + j / 8) ;;
                 Ok (Z.land (Z.shiftr (Z_of_byte x) (Z.of_nat (j mod 8))) 1))
       (range eta) = Raise IndexError.
Proof.
  intros Heta Hshort. apply mapM_raises.
  - intros j. unfold item. destruct (buf !! _); [left; eexists; reflexivity | right; reflexivity].
  - exists (eta - 1)%nat. split; [apply In_range; lia |].
    rewrite item_ge by exact Hshort. reflexivity.
Qed.

Lemma cbd_wrong_length (eta : nat) (buf : bytes) (n : nat) :
  length buf <> (eta * n / 4)%nat -> cbd eta buf n = Raise ValueError.
Proof.
  intros H. unfold cbd.
  destruct (Nat.eqb_spec (length buf) (eta * n / 4)); [contradiction | reflexivity].
Qed.

Lemma cbd_fits (eta : nat) (buf : bytes) (n : nat) :
  length buf = (eta * n / 4)%nat ->
  (n = 0 \/ eta = 0 \/ 4 * (n - 1) + (eta - 1) / 8 + eta / 2 < length buf)%nat ->
  exists cs, cbd eta buf n = Ok cs /\ length cs = n /\
             Forall (fun c => - Z.of_nat eta <= c <= Z.of_nat eta) cs.
Proof.
  intros H Hfit. unfold cbd. rewrite H, Nat.eqb_refl. simpl negb. cbv iota.
  match goal with
  | |- exists cs, mapM ?f ?xs = Ok cs /\ _ =>
      assert (Hret : returns (mapM f xs)
                       (Forall2 (fun (_ : nat) c => - Z.of_nat eta <= c <= Z.of_nat eta) xs))
  end.
  { apply returns_mapM. intros i' i Hi. apply range_lookup in Hi as [-> Hi].
    eapply returns_bind; [apply cbd_sum_ok; lia |]. intros a Ha. cbv beta in Ha.
    eapply returns_bind.
    - pose proof (cbd_sum_ok buf eta (4 * i' + eta / 2)) as Hb.
      assert (Heq : forall j, (4 * i' + j / 8 + eta / 2 = 4 * i' + eta / 2 + j / 8)%nat)
        by (intros; lia).
      erewrite (mapM_ext_eq _ _ (range eta)); [apply Hb; lia |].
      intros j. rewrite Heq. reflexivity.
    - intros b Hb. cbv beta in Hb. simpl. lia. }
  apply returns_inv in Hret as (cs & -> & Hcs).
  exists cs. split; [reflexivity |].
  apply Forall2_right in Hcs as [Hcs Hlen]. rewrite length_range in Hlen.
  split; assumption.
Qed.

Lemma cbd_short (eta : nat) (buf : bytes) (n : nat) :
  length buf = (eta * n / 4)%nat -> (0 < n)%nat -> (0 < eta)%nat ->
  (length buf <= 4 * (n - 1) + (eta - 1) / 8 + eta / 2)%nat ->
  cbd eta buf n = Raise IndexError.
Proof.
  intros H Hn Heta Hshort. unfold cbd. rewrite H, Nat.eqb_refl. simpl negb. cbv iota.
  apply mapM_raises.
  - intros i.
    destruct (cbd_sum_cases buf eta (4 * i)) as [(a & ->) | ->]; [| right; reflexivity].
    rewrite bind_Ok.
    assert (Heq : forall j, (4 * i + j / 8 + eta / 2 = 4 * i + eta / 2 + j / 8)%nat)
      by (intros; lia).
    erewrite (mapM_ext_eq _ _ (range eta)); [| intros j; rewrite Heq; reflexivity].
    destruct (cbd_sum_cases buf eta (4 * i + eta / 2)) as [(b & ->) | ->];
      [left; eexists; reflexivity | right; reflexivity].
  - exists (n - 1)%nat. split; [apply In_range; lia |].
    destruct (cbd_sum_cases buf eta (4 * (n - 1))) as [(a & ->) | ->]; [| reflexivity].
    rewrite bind_Ok.
    assert (Heq : forall j, (4 * (n - 1) + j / 8 + eta / 2
                             = 4 * (n - 1) + eta / 2 + j / 8)%nat)
      by (intros; lia).
    erewrite (mapM_ext_eq _ _ (range eta)); [| intros j; rewrite Heq; reflexivity].
    rewrite cbd_sum_short; [reflexivity | exact Heta | lia].
Qed.

(** X7.  The outcome of [cbd(eta, buf, n)] on every input.  A buffer whose
    length is not [eta * n // 4] is refused with [ValueError].  Otherwise
    the sums read up to position [4 * (n - 1) + (eta - 1) // 8 + eta // 2]:
    when the buffer has that position (or nothing is read at all), the
    result has [n] coefficients, each between [-eta] and [eta]; when it
    has not, [cbd] raises [IndexError]. *)
Theorem cbd_outcome (eta : nat) (buf : bytes) (n : nat) :
  (length buf <> (eta * n / 4)%nat -> cbd eta buf n = Raise ValueError) /\
  (length buf = (eta * n / 4)%nat ->
   (n = 0 \/ eta = 0 \/ 4 * (n - 1) + (eta - 1) / 8 + eta / 2 < length buf)%nat ->
   exists cs, cbd eta buf n = Ok cs /\ length cs = n /\
              Forall (fun c => - Z.of_nat eta <= c <= Z.of_nat eta) cs) /\
  (length buf = (eta * n / 4)%nat ->
   (0 < n)%nat -> (0 < eta)%nat ->
   (length buf <= 4 * (n - 1) + (eta - 1) / 8 + eta / 2)%nat ->
   cbd eta buf n = Raise IndexError).
Proof.
  split; [apply cbd_wrong_length |]. split; [apply cbd_fits | apply cbd_short].
Qed.

Lemma cbd_outcome_witness :
  length (repeat x00 1088) = (17 * 256 / 4)%nat /\
  (4 * (256 - 1) + (17 - 1) / 8 + 17 / 2 < length (repeat x00 1088))%nat /\
  exists cs, cbd 17 (repeat x00 1088) 256 = Ok cs /\ length cs = 256%nat /\
             Forall (fun c => - Z.of_nat 17 <= c <= Z.of_nat 17) cs.
Proof.
  assert (H : length (repeat x00 1088) = (17 * 256 / 4)%nat) by reflexivity.
  assert (Hfit : (4 * (256 - 1) + (17 - 1) / 8 + 17 / 2 < length (repeat x00 1088))%nat).
  { rewrite repeat_length. apply Nat.ltb_lt. reflexivity. }
  split; [exact H |]. split; [exact Hfit |].
  apply (proj1 (proj2 (cbd_outcome 17 (repeat x00 1088) 256)) H).
  right. right. exact Hfit.
Defined.

(** X8.  With the default [n = 256], [cbd] returns for no buffer when
    [eta] is between 1 and 16, which covers the [eta1] and [eta2] of the
    three parameter sets: a buffer of another length than [64 * eta] is
    refused with [ValueError], and one of that length is too short for the
    positions read, which go up to [1020 + (eta - 1) // 8 + eta // 2], so
    that [IndexError] is raised. *)
Theorem cbd_raises_for_small_eta (eta : nat) (buf : bytes) :
  (1 <= eta <= 16)%nat ->
  cbd eta buf 256 = Raise (if (length buf =? 64 * eta)%nat then IndexError else ValueError).
Proof.
  intros Heta.
  assert (Hlen : (eta * 256 / 4 = 64 * eta)%nat).
  { replace (eta * 256)%nat with (64 * eta * 4)%nat by lia. apply Nat.div_mul. lia. }
  destruct (Nat.eqb_spec (length buf) (64 * eta)) as [H | H].
  - apply cbd_short; [lia | lia | lia |].
    rewrite H.
    pose proof (Nat.Div0.div_le_mono (eta - 1) 15 8 ltac:(lia)) as Hd.
    change (15 / 8)%nat with 1%nat in Hd.
    assert (eta = 16 \/ eta <= 15)%nat as [-> | Hsmall] by lia.
    + vm_compute. auto 20.
    + lia.
  - apply cbd_wrong_length. lia.
Qed.

Lemma cbd_raises_for_small_eta_witness :
  (1 <= 2 <= 16)%nat /\ cbd 2 (repeat x00 128) 256 = Raise IndexError.
Proof.
  split; [lia |].
  apply (cbd_raises_for_small_eta 2 (repeat x00 128)). lia.
Defined.

(** * The ring operations *)

Lemma item_nth (l : list Z) (i : nat) : (i < length l)%nat -> item l i = Ok (nth i l 0).
Proof.
  intros H. destruct (item_lt l i H) as (x & Hx & ->).
  rewrite (nth_lookup_Some l i 0 x Hx). reflexivity.
Qed.

Lemma sumZ_ext (m : nat) (f g : nat -> Z) :
  (forall i, (i < m)%nat -> f i = g i) -> sumZ m f = sumZ m g.
Proof.
  induction m as [|m IH]; intros H; [reflexivity |].
  cbn [sumZ]. rewrite IH, H by (intros; try apply H; lia). reflexivity.
Qed.

Lemma sumZ_plus (m : nat) (f g : nat -> Z) :
  sumZ m (fun i => f i + g i) = sumZ m f + sumZ m g.
Proof. induction m as [|m IH]; cbn [sumZ]; lia. Qed.

Lemma sumZ_zero (m : nat) : sumZ m (fun _ => 0) = 0.
Proof. induction m as [|m IH]; cbn [sumZ]; lia. Qed.

Lemma sumZ_swap (m1 m2 : nat) (f : nat -> nat -> Z) :
  sumZ m1 (fun i => sumZ m2 (fun j => f i j)) = sumZ m2 (fun j => sumZ m1 (fun i => f i j)).
Proof.
  induction m1 as [|m1 IH]; cbn [sumZ].
  - rewrite sumZ_zero. reflexivity.
  - rewrite IH, <- sumZ_plus. reflexivity.
Qed.

(** The products stored by the schoolbook loop when it is at row [i],
    column [j]: the rows before [i], and row [i] up to column [j]. *)
Lemma mul_row nn qq a b i res :
  wf nn qq a -> wf nn qq b -> qq <> 0 -> (i < nn)%nat ->
  length res = (2 * nn)%nat ->
  (forall k, (k < 2 * nn)%nat ->
             res !! k = Some (sumZ i (fun i' => sumZ nn (fun j =>
                                if (i' + j =? k)%nat then coeff a i' * coeff b j else 0))
                              mod qq)) ->
  returns (for_ (range nn) (Polynomial.mul_step a b i) res)
          (fun res' =>
             length res' = (2 * nn)%nat /\
             forall k, (k < 2 * nn)%nat ->
               res' !! k = Some (sumZ (S i) (fun i' => sumZ nn (fun j =>
                                   if (i' + j =? k)%nat then coeff a i' * coeff b j else 0))
                                 mod qq)).
Proof.
  intros Ha Hb Hq Hi Hres Hrows.
  pose (row := fun (k j : nat) => if (i + j =? k)%nat then coeff a i * coeff b j else 0).
  pose (rows := fun k => sumZ i (fun i' => sumZ nn (fun j =>
                   if (i' + j =? k)%nat then coeff a i' * coeff b j else 0))).
  pose (I := fun (j : nat) (r : list Z) =>
               length r = (2 * nn)%nat /\
               forall k, (k < 2 * nn)%nat ->
                 r !! k = Some ((rows k + sumZ j (row k)) mod qq)).
  assert (H : returns (for_ (range nn) (Polynomial.mul_step a b i) res)
                      (I (length (range nn)))).
  2: { rewrite length_range in H. exact H. }
  apply returns_for with (I := I).
  - split; [exact Hres |]. intros k Hk. rewrite (Hrows k Hk). cbn [sumZ].
    rewrite Z.add_0_r. reflexivity.
  - intros j' j r Hj [Hr Hinv]. apply range_lookup in Hj as [-> Hj].
    destruct Ha as (Hla & Hna & Hqa). destruct Hb as (Hlb & Hnb & Hqb).
    unfold Polynomial.mul_step.
    rewrite (item_lookup _ _ _ (Hinv (i + j')%nat ltac:(lia))), bind_Ok.
    rewrite (item_nth (Polynomial.coeffs a) i) by lia. rewrite bind_Ok.
    rewrite (item_nth (Polynomial.coeffs b) j') by lia. rewrite bind_Ok.
    rewrite Hqa, (py_mod_Ok _ qq Hq), bind_Ok.
    split; [cbn; rewrite length_insert; exact Hr |].
    intros k Hk.
    change (sumZ (S j') (row k)) with (sumZ j' (row k) + row k j').
    destruct (Nat.eq_dec k (i + j')%nat) as [-> | Hne].
    + assert (Hrow : row (i + j')%nat j' = coeff a i * coeff b j')
        by (unfold row; rewrite Nat.eqb_refl; reflexivity).
      cbn. rewrite list_lookup_insert_eq by lia. f_equal.
      rewrite Zplus_mod_idemp_l, Hrow. f_equal. unfold coeff. lia.
    + assert (Hrow : row k j' = 0)
        by (unfold row; destruct (Nat.eqb_spec (i + j') k); [congruence | reflexivity]).
      cbn. rewrite list_lookup_insert_ne by congruence.
      rewrite (Hinv k Hk), Hrow, Z.add_0_r. reflexivity.
Qed.

Lemma mul_rows nn qq a b :
  wf nn qq a -> wf nn qq b -> qq <> 0 ->
  returns (for_ (range nn) (fun i => for_ (range nn) (Polynomial.mul_step a b i))
                (repeat 0 (2 * nn)))
          (fun res => length res = (2 * nn)%nat /\
                      forall k, (k < 2 * nn)%nat -> res !! k = Some (conv nn a b k mod qq)).
Proof.
  intros Ha Hb Hq.
  pose (I := fun (i : nat) (r : list Z) =>
               length r = (2 * nn)%nat /\
               forall k, (k < 2 * nn)%nat ->
                 r !! k = Some (sumZ i (fun i' => sumZ nn (fun j =>
                             if (i' + j =? k)%nat then coeff a i' * coeff b j else 0))
                           mod qq)).
  assert (H : returns (for_ (range nn) (fun i => for_ (range nn) (Polynomial.mul_step a b i))
                            (repeat 0 (2 * nn)))
                      (I (length (range nn)))).
  2: { rewrite length_range in H. exact H. }
  apply returns_for with (I := I).
  - split; [apply repeat_length |]. intros k Hk. cbn [sumZ].
    rewrite Zmod_0_l.
    destruct (lookup_lt_is_Some_2 (repeat 0 (2 * nn)) k) as [y Hy];
      [rewrite repeat_length; exact Hk |].
    rewrite Hy. apply lookup_repeat in Hy as [-> _]. reflexivity.
  - intros i' i r Hi [Hr Hinv]. apply range_lookup in Hi as [-> Hi].
    apply (mul_row nn qq a b i' r Ha Hb Hq Hi Hr Hinv).
Qed.

Lemma mul_reduce nn qq a (F : nat -> Z) res :
  wf nn qq a -> qq <> 0 -> length res = (2 * nn)%nat ->
  (forall k, (k < 2 * nn)%nat -> res !! k = Some (F k mod qq)) ->
  returns (for_ (range2 nn (2 * nn)) (Polynomial.reduce_step a) res)
          (fun res' => length res' = (2 * nn)%nat /\
                       forall k, (k < nn)%nat ->
                         res' !! k = Some ((F k - F (k + nn)%nat) mod qq)).
Proof.
  intros (Hla & Hna & Hqa) Hq Hres HF.
  pose (I := fun (t : nat) (r : list Z) =>
               length r = (2 * nn)%nat /\
               (forall k, (k < t)%nat -> r !! k = Some ((F k - F (k + nn)%nat) mod qq)) /\
               (forall k, (t <= k < 2 * nn)%nat -> r !! k = Some (F k mod qq))).
  assert (Hlen : length (range2 nn (2 * nn)) = nn)
    by (unfold range2; rewrite length_seq; lia).
  assert (H : returns (for_ (range2 nn (2 * nn)) (Polynomial.reduce_step a) res)
                      (I (length (range2 nn (2 * nn))))).
  2: { rewrite Hlen in H. eapply returns_weaken; [exact H |].
       intros r (H1 & H2 & _). split; assumption. }
  apply returns_for with (I := I).
  - split; [exact Hres |]. split; [intros k Hk; lia |]. intros k Hk. apply HF. lia.
  - intros t i r Hi (Hr & Hdone & Htodo). apply range2_lookup in Hi as [-> Hi].
    unfold Polynomial.reduce_step. rewrite Hna, Hqa.
    replace (nn + t - nn)%nat with t by lia.
    rewrite (item_lookup _ _ _ (Htodo t ltac:(lia))), bind_Ok.
    rewrite (item_lookup _ _ _ (Htodo (nn + t)%nat ltac:(lia))), bind_Ok.
    rewrite (py_mod_Ok _ qq Hq), bind_Ok.
    split; [cbn; rewrite length_insert; exact Hr |]. split.
    + intros k Hk. destruct (Nat.eq_dec k t) as [-> | Hne].
      * rewrite list_lookup_insert_eq by lia. f_equal.
        rewrite <- Zminus_mod. f_equal. f_equal. f_equal. lia.
      * rewrite list_lookup_insert_ne by congruence. apply Hdone. lia.
    + intros k Hk. rewrite list_lookup_insert_ne by lia. apply Htodo. lia.
Qed.

Lemma mul_spec nn qq a b :
  wf nn qq a -> wf nn qq b -> qq <> 0 ->
  Polynomial.__mul__ a b
  = Ok (Polynomial.mk (map (fun k => negacyclic nn a b k mod qq) (range nn)) nn qq).
Proof.
  intros Ha Hb Hq. unfold Polynomial.__mul__.
  rewrite (same_ring_wf nn qq a b Ha Hb). simpl negb. cbv iota.
  pose proof Ha as (Hla & Hna & Hqa). rewrite Hna, Hqa.
  destruct (returns_inv _ _ (mul_rows nn qq a b Ha Hb Hq)) as (res & -> & Hres & Hconv).
  rewrite bind_Ok.
  destruct (returns_inv _ _ (mul_reduce nn qq a (conv nn a b) res Ha Hq Hres Hconv))
    as (res' & -> & Hres' & Hneg).
  rewrite bind_Ok. f_equal.
  assert (Heq : take nn res' = map (fun k => negacyclic nn a b k mod qq) (range nn)).
  { apply list_eq. intros k.
    destruct (Nat.lt_ge_cases k nn) as [Hk | Hk].
    - rewrite lookup_take_lt by exact Hk. rewrite (Hneg k Hk).
      rewrite lookup_map. unfold range. rewrite lookup_seq_lt by exact Hk. reflexivity.
    - rewrite !lookup_ge_None_2; [reflexivity | |].
      + rewrite length_map, length_range. exact Hk.
      + rewrite length_take. lia. }
  rewrite Heq. apply init_full. rewrite length_map. apply length_range.
Qed.

Lemma conv_comm nn a b k : conv nn a b k = conv nn b a k.
Proof.
  unfold conv. rewrite sumZ_swap. apply sumZ_ext. intros i _. apply sumZ_ext. intros j _.
  rewrite (Nat.add_comm j i). destruct (i + j =? k)%nat; lia.
Qed.

Lemma lookup_coeff (p : Polynomial.t) (k : nat) :
  (k < length (Polynomial.coeffs p))%nat -> Polynomial.coeffs p !! k = Some (coeff p k).
Proof.
  intros H. destruct (lookup_lt_is_Some_2 _ _ H) as [x Hx].
  unfold coeff. rewrite (nth_lookup_Some _ _ 0 x Hx). exact Hx.
Qed.

Lemma coeff_mk (cs : list Z) (nn : nat) (qq : Z) (f : nat -> Z) (k : nat) :
  (k < nn)%nat -> cs = map f (range nn) -> coeff (Polynomial.mk cs nn qq) k = f k.
Proof.
  intros Hk ->. unfold coeff. cbn [Polynomial.coeffs].
  apply nth_lookup_Some. rewrite lookup_map. unfold range.
  rewrite lookup_seq_lt by exact Hk. reflexivity.
Qed.

Lemma list_eq_below (nn : nat) (l1 l2 : list Z) :
  length l1 = nn -> length l2 = nn ->
  (forall k, (k < nn)%nat -> l1 !! k = l2 !! k) -> l1 = l2.
Proof.
  intros H1 H2 H. apply list_eq. intros k.
  destruct (Nat.lt_ge_cases k nn) as [Hk | Hk]; [apply H; exact Hk |].
  rewrite !lookup_ge_None_2 by lia. reflexivity.
Qed.

Lemma pointwise_lookup op nn qq a b k :
  wf nn qq a -> wf nn qq b -> (k < nn)%nat ->
  pointwise op qq a b !! k = Some (op (coeff a k) (coeff b k) mod qq).
Proof.
  intros (Hla & _) (Hlb & _) Hk. unfold pointwise.
  rewrite lookup_map, lookup_zip_with.
  rewrite (lookup_coeff a k), (lookup_coeff b k) by lia. reflexivity.
Qed.

Lemma pointwise_map op nn qq a b :
  wf nn qq a -> wf nn qq b ->
  pointwise op qq a b = map (fun k => op (coeff a k) (coeff b k) mod qq) (range nn).
Proof.
  intros Ha Hb. apply (list_eq_below nn).
  - apply (length_pointwise op qq nn a b Ha Hb).
  - rewrite length_map. apply length_range.
  - intros k Hk. rewrite (pointwise_lookup op nn qq a b k Ha Hb Hk).
    rewrite lookup_map. unfold range. rewrite lookup_seq_lt by exact Hk. reflexivity.
Qed.

Lemma map_range_ext (nn : nat) (f g : nat -> Z) :
  (forall k, (k < nn)%nat -> f k = g k) -> map f (range nn) = map g (range nn).
Proof.
  intros H. apply map_ext_in. intros k Hk. apply In_range in Hk. apply H. exact Hk.
Qed.

Lemma wf_map (nn : nat) (qq : Z) (f : nat -> Z) :
  wf nn qq (Polynomial.mk (map f (range nn)) nn qq).
Proof. apply wf_mk. rewrite length_map. apply length_range. Qed.

Lemma zip_swap_mapM (f g : Z * Z -> result Z) (xs ys : list Z) :
  (forall x y, f (x, y) = g (y, x)) -> mapM f (zip xs ys) = mapM g (zip ys xs).
Proof.
  intros H. revert ys. induction xs as [|x xs IH]; intros [|y ys]; try reflexivity.
  cbn [zip_with mapM]. rewrite H, IH. reflexivity.
Qed.

Lemma add_comm_any (a b : Polynomial.t) : Polynomial.__add__ a b = Polynomial.__add__ b a.
Proof.
  unfold Polynomial.__add__, Polynomial.same_ring.
  rewrite (Nat.eqb_sym (Polynomial.n b)), (Z.eqb_sym (Polynomial.q b)).
  destruct (Nat.eqb_spec (Polynomial.n a) (Polynomial.n b)) as [Hn | Hn];
    [| reflexivity].
  destruct (Z.eqb_spec (Polynomial.q a) (Polynomial.q b)) as [Hq | Hq];
    [| reflexivity].
  simpl negb. cbv iota. rewrite Hn, Hq.
  rewrite (zip_swap_mapM _ (fun ab => py_mod (fst ab + snd ab) (Polynomial.q b))
             (Polynomial.coeffs a) (Polynomial.coeffs b)); [reflexivity |].
  intros x y. cbn [fst snd]. rewrite Z.add_comm. reflexivity.
Qed.

Lemma sumZ_mod_ext (m : nat) (qq : Z) (f g : nat -> Z) :
  (forall i, (i < m)%nat -> f i mod qq = g i mod qq) -> sumZ m f mod qq = sumZ m g mod qq.
Proof.
  induction m as [|m IH]; intros H; [reflexivity |].
  cbn [sumZ]. rewrite Zplus_mod, IH, H by (intros; try apply H; lia).
  rewrite <- Zplus_mod. reflexivity.
Qed.

(** The plain product is additive in its second factor, modulo [qq], also
    when the sum of the factors is stored reduced. *)
Lemma conv_add_mod nn qq a b c s k :
  (forall j, (j < nn)%nat -> coeff s j = (coeff b j + coeff c j) mod qq) ->
  conv nn a s k mod qq = (conv nn a b k + conv nn a c k) mod qq.
Proof.
  intros Hs. unfold conv. rewrite <- sumZ_plus.
  apply sumZ_mod_ext. intros i _. rewrite <- sumZ_plus.
  apply sumZ_mod_ext. intros j Hj. rewrite (Hs j Hj).
  destruct (i + j =? k)%nat; [| reflexivity].
  rewrite Zmult_mod_idemp_r. f_equal. lia.
Qed.

Lemma coeffs_map_coeff (nn : nat) (p : Polynomial.t) :
  length (Polynomial.coeffs p) = nn -> Polynomial.coeffs p = map (coeff p) (range nn).
Proof.
  intros H. apply (list_eq_below nn); [exact H | rewrite length_map; apply length_range |].
  intros k Hk. rewrite lookup_coeff by lia.
  rewrite lookup_map. unfold range. rewrite lookup_seq_lt by exact Hk. reflexivity.
Qed.

Lemma wf_eta (nn : nat) (qq : Z) (p : Polynomial.t) :
  wf nn qq p -> p = Polynomial.mk (map (coeff p) (range nn)) nn qq.
Proof.
  intros (Hl & Hn & Hq). destruct p as [cs pn pq]. cbn in *. subst pn pq.
  f_equal. apply (coeffs_map_coeff nn (Polynomial.mk cs nn qq)). exact Hl.
Qed.

Lemma coeff_reduced (nn : nat) (qq : Z) (p : Polynomial.t) (k : nat) :
  wf nn qq p -> reduced qq p -> (k < nn)%nat -> 0 <= coeff p k < qq.
Proof.
  intros (Hl & _) Hred Hk. unfold reduced in Hred.
  apply (Forall_lookup_1 _ _ k (coeff p k) Hred). apply lookup_coeff. lia.
Qed.

(** Sums and differences, coefficient by coefficient. *)
Lemma add_map nn qq a b :
  wf nn qq a -> wf nn qq b -> qq <> 0 ->
  Polynomial.__add__ a b
  = Ok (Polynomial.mk (map (fun k => (coeff a k + coeff b k) mod qq) (range nn)) nn qq).
Proof.
  intros Ha Hb Hq. rewrite (add_spec nn qq a b Ha Hb Hq).
  rewrite (pointwise_map Z.add nn qq a b Ha Hb). reflexivity.
Qed.

Lemma sub_map nn qq a b :
  wf nn qq a -> wf nn qq b -> qq <> 0 ->
  Polynomial.__sub__ a b
  = Ok (Polynomial.mk (map (fun k => (coeff a k - coeff b k) mod qq) (range nn)) nn qq).
Proof.
  intros Ha Hb Hq. rewrite (sub_spec nn qq a b Ha Hb Hq).
  rewrite (pointwise_map Z.sub nn qq a b Ha Hb). reflexivity.
Qed.

(** X9.  [Polynomial.__mul__] computes the product modulo [x^n + 1] and
    modulo [q]: for operands with the same [n] and the same nonzero [q]
    whose lists have [n] integer coefficients, coefficient [k] of the
    result is the sum of the products [a_i * b_j] with [i + j = k] minus the
    sum of those with [i + j = k + n], reduced modulo [q]. *)
Theorem mul_is_negacyclic_product (a b : Polynomial.t) :
  Polynomial.n a = Polynomial.n b -> Polynomial.q a = Polynomial.q b ->
  Polynomial.q a <> 0 ->
  length (Polynomial.coeffs a) = Polynomial.n a ->
  length (Polynomial.coeffs b) = Polynomial.n b ->
  Polynomial.__mul__ a b
  = Ok (Polynomial.mk
          (map (fun k => negacyclic (Polynomial.n a) a b k mod Polynomial.q a)
               (range (Polynomial.n a)))
          (Polynomial.n a) (Polynomial.q a)).
Proof.
  intros Hn Hq Hq0 Hla Hlb. apply mul_spec; [| | exact Hq0].
  - repeat split. exact Hla.
  - split; [congruence |]. split; congruence.
Qed.

Lemma mul_is_negacyclic_product_witness :
  let a := Polynomial.mk [1; 2] 2 7 in
  let b := Polynomial.mk [3; 4] 2 7 in
  Polynomial.__mul__ a b = Ok (Polynomial.mk [2; 3] 2 7).
Proof.
  intros a b.
  exact (mul_is_negacyclic_product a b eq_refl eq_refl ltac:(discriminate) eq_refl eq_refl).
Defined.

(** X10.  On polynomials of one ring ([n] coefficients each, the same
    nonzero [q]) the product is commutative and distributes over the
    sum. *)
Theorem mul_commutes_and_distributes (nn : nat) (qq : Z) (a b c : Polynomial.t) :
  wf nn qq a -> wf nn qq b -> wf nn qq c -> qq <> 0 ->
  Polynomial.__mul__ a b = Polynomial.__mul__ b a /\
  (s <- Polynomial.__add__ b c ;; Polynomial.__mul__ a s)
  = (x <- Polynomial.__mul__ a b ;; y <- Polynomial.__mul__ a c ;; Polynomial.__add__ x y).
Proof.
  intros Ha Hb Hc Hq. split.
  - rewrite (mul_spec nn qq a b Ha Hb Hq), (mul_spec nn qq b a Hb Ha Hq).
    do 2 f_equal. apply map_range_ext. intros k _. unfold negacyclic.
    rewrite !(conv_comm nn a b). reflexivity.
  - rewrite (add_map nn qq b c Hb Hc Hq), bind_Ok.
    rewrite (mul_spec nn qq a _ Ha (wf_map nn qq _) Hq).
    rewrite (mul_spec nn qq a b Ha Hb Hq), bind_Ok.
    rewrite (mul_spec nn qq a c Ha Hc Hq), bind_Ok.
    rewrite (add_map nn qq _ _ (wf_map nn qq _) (wf_map nn qq _) Hq).
    do 2 f_equal. apply map_range_ext. intros k Hk.
    rewrite !(coeff_mk _ nn qq _ k Hk eq_refl).
    unfold negacyclic.
    rewrite Zminus_mod.
    rewrite !(conv_add_mod nn qq a b c)
      by (intros j Hj;
          apply (coeff_mk _ nn qq (fun k => (coeff b k + coeff c k) mod qq) j Hj eq_refl)).
    rewrite <- Zminus_mod, <- Zplus_mod. f_equal. lia.
Qed.

Lemma mul_commutes_and_distributes_witness :
  let a := Polynomial.mk [1; 2] 2 7 in
  let b := Polynomial.mk [3; 4] 2 7 in
  let c := Polynomial.mk [5; 6] 2 7 in
  wf 2 7 a /\ wf 2 7 b /\ wf 2 7 c /\ Polynomial.__mul__ a b = Polynomial.__mul__ b a.
Proof.
  intros a b c.
  assert (Ha : wf 2 7 a) by (repeat split).
  assert (Hb : wf 2 7 b) by (repeat split).
  assert (Hc : wf 2 7 c) by (repeat split).
  split; [exact Ha |]. split; [exact Hb |]. split; [exact Hc |].
  exact (proj1 (mul_commutes_and_distributes 2 7 a b c Ha Hb Hc ltac:(discriminate))).
Defined.

(** X11.  On polynomials of one ring the sum is commutative and
    associative, and when the coefficients of [a] are in [0, q), adding
    [b] and subtracting it again, in either order, gives [a] back. *)
Theorem add_sub_laws (nn : nat) (qq : Z) (a b c : Polynomial.t) :
  wf nn qq a -> wf nn qq b -> wf nn qq c -> qq <> 0 ->
  Polynomial.__add__ a b = Polynomial.__add__ b a /\
  (s <- Polynomial.__add__ a b ;; Polynomial.__add__ s c)
  = (s <- Polynomial.__add__ b c ;; Polynomial.__add__ a s) /\
  (0 < qq -> reduced qq a ->
   (s <- Polynomial.__add__ a b ;; Polynomial.__sub__ s b) = Ok a /\
   (d <- Polynomial.__sub__ a b ;; Polynomial.__add__ d b) = Ok a).
Proof.
  intros Ha Hb Hc Hq. split; [apply add_comm_any |]. split.
  - rewrite (add_map nn qq a b Ha Hb Hq), (add_map nn qq b c Hb Hc Hq), !bind_Ok.
    rewrite (add_map nn qq _ c (wf_map nn qq _) Hc Hq).
    rewrite (add_map nn qq a _ Ha (wf_map nn qq _) Hq).
    do 2 f_equal. apply map_range_ext. intros k Hk.
    rewrite !(coeff_mk _ nn qq _ k Hk eq_refl).
    rewrite Zplus_mod_idemp_l, Zplus_mod_idemp_r. f_equal. lia.
  - intros Hpos Hred. split.
    + rewrite (add_map nn qq a b Ha Hb Hq), bind_Ok.
      rewrite (sub_map nn qq _ b (wf_map nn qq _) Hb Hq).
      f_equal. etransitivity; [| symmetry; apply (wf_eta nn qq a Ha)]. f_equal.
      apply map_range_ext. intros k Hk.
      rewrite (coeff_mk _ nn qq _ k Hk eq_refl).
      rewrite Zminus_mod_idemp_l.
      replace (coeff a k + coeff b k - coeff b k) with (coeff a k) by lia.
      apply Z.mod_small. apply (coeff_reduced nn qq a k Ha Hred Hk).
    + rewrite (sub_map nn qq a b Ha Hb Hq), bind_Ok.
      rewrite (add_map nn qq _ b (wf_map nn qq _) Hb Hq).
      f_equal. etransitivity; [| symmetry; apply (wf_eta nn qq a Ha)]. f_equal.
      apply map_range_ext. intros k Hk.
      rewrite (coeff_mk _ nn qq _ k Hk eq_refl).
      rewrite Zplus_mod_idemp_l.
      replace (coeff a k - coeff b k + coeff b k) with (coeff a k) by lia.
      apply Z.mod_small. apply (coeff_reduced nn qq a k Ha Hred Hk).
Qed.

Lemma add_sub_laws_witness :
  let a := Polynomial.mk [1; 2] 2 7 in
  let b := Polynomial.mk [3; -4] 2 7 in
  let c := Polynomial.mk [5; 6] 2 7 in
  wf 2 7 a /\ wf 2 7 b /\ wf 2 7 c /\ reduced 7 a /\
  (s <- Polynomial.__add__ a b ;; Polynomial.__sub__ s b) = Ok a.
Proof.
  intros a b c.
  assert (Ha : wf 2 7 a) by (repeat split).
  assert (Hb : wf 2 7 b) by (repeat split).
  assert (Hc : wf 2 7 c) by (repeat split).
  assert (Hred : reduced 7 a) by (repeat constructor; lia).
  split; [exact Ha |]. split; [exact Hb |]. split; [exact Hc |]. split; [exact Hred |].
  destruct (add_sub_laws 2 7 a b c Ha Hb Hc ltac:(discriminate)) as (_ & _ & H).
  exact (proj1 (H ltac:(lia) Hred)).
Defined.

Lemma init_coeffs_idem (cs : list Z) (nn : nat) (qq : Z) :
  Polynomial.__init__ (Polynomial.coeffs (Polynomial.__init__ cs nn qq)) nn qq
  = Polynomial.__init__ cs nn qq.
Proof.
  destruct cs as [|c cs]; [| reflexivity].
  destruct nn as [|nn]; reflexivity.
Qed.

Lemma map_mod_idem (m : Z) (cs : list Z) :
  map (fun c => c mod m) (map (fun c => c mod m) cs) = map (fun c => c mod m) cs.
Proof. rewrite map_map. apply map_ext. intros c. apply Zmod_mod. Qed.

Lemma map_mod_zeros (m : Z) (nn : nat) : map (fun c => c mod m) (repeat 0 nn) = repeat 0 nn.
Proof.
  induction nn as [|nn IH]; [reflexivity |].
  cbn [repeat map]. rewrite IH, Zmod_0_l. reflexivity.
Qed.

Lemma mod_closed (p : Polynomial.t) (m : Z) :
  m <> 0 ->
  Polynomial.__mod__ p m
  = Ok (Polynomial.__init__ (map (fun c => c mod m) (Polynomial.coeffs p)) (Polynomial.n p) m).
Proof.
  intros Hm. unfold Polynomial.__mod__.
  rewrite (mapM_map _ (fun c => c mod m)) by (intros c; apply py_mod_Ok; exact Hm).
  reflexivity.
Qed.

(** X12.  [Polynomial.__mod__] with a modulus other than zero reduces
    every coefficient and returns a polynomial that carries the modulus as
    its [q]; its coefficients are in [0, modulus) for a positive modulus,
    and reducing it again changes nothing.  With the modulus 0 it raises
    [ZeroDivisionError], unless the list of coefficients is empty: then no
    division takes place and the constructor fills in [n] zeros, for any
    modulus. *)
Theorem mod_reduces (p : Polynomial.t) (m : Z) :
  (m <> 0 ->
   exists r, Polynomial.__mod__ p m = Ok r /\
             Polynomial.n r = Polynomial.n p /\ Polynomial.q r = m /\
             (Polynomial.coeffs p <> [] ->
              Polynomial.coeffs r = map (fun c => c mod m) (Polynomial.coeffs p)) /\
             (0 < m -> reduced m r) /\
             Polynomial.__mod__ r m = Ok r) /\
  (Polynomial.coeffs p <> [] -> Polynomial.__mod__ p 0 = Raise ZeroDivisionError) /\
  (Polynomial.coeffs p = [] ->
   Polynomial.__mod__ p m = Ok (Polynomial.mk (repeat 0 (Polynomial.n p)) (Polynomial.n p) m)).
Proof.
  split; [| split].
  - intros Hm. rewrite (mod_closed p m Hm). eexists. split; [reflexivity |].
    split; [reflexivity |]. split; [reflexivity |]. split; [| split].
    + intros Hne. destruct (Polynomial.coeffs p); [contradiction | reflexivity].
    + intros Hpos. unfold reduced.
      destruct (Polynomial.coeffs p) as [|c cs]; cbn [map Polynomial.__init__ Polynomial.coeffs].
      * apply List.Forall_forall. intros x Hx. apply repeat_spec in Hx. lia.
      * apply List.Forall_forall. intros x Hx.
        change (c mod m :: map (fun c => c mod m) cs)
          with (map (fun c => c mod m) (c :: cs)) in Hx.
        apply in_map_iff in Hx as (y & <- & _). apply Z.mod_pos_bound. exact Hpos.
    + rewrite (mod_closed _ m Hm). f_equal.
      destruct (Polynomial.coeffs p) as [|c cs].
      * cbn [map Polynomial.__init__ Polynomial.coeffs Polynomial.n].
        rewrite map_mod_zeros.
        apply (init_coeffs_idem [] (Polynomial.n p) m).
      * cbn [Polynomial.__init__ Polynomial.coeffs Polynomial.n].
        change (map (fun c => c mod m) (c :: cs)) with (c mod m :: map (fun c => c mod m) cs).
        cbv iota. rewrite <- (map_mod_idem m (c :: cs)) at 2. reflexivity.
  - intros Hne. unfold Polynomial.__mod__.
    destruct (Polynomial.coeffs p); [contradiction | reflexivity].
  - intros Hnil. unfold Polynomial.__mod__. rewrite Hnil. reflexivity.
Qed.

Lemma mod_reduces_witness :
  let p := Polynomial.mk [-1; 12; 5] 3 3329 in
  5 <> 0 /\ exists r, Polynomial.__mod__ p 5 = Ok r /\ Polynomial.coeffs r = [4; 2; 0].
Proof.
  intros p. split; [discriminate |].
  destruct (proj1 (mod_reduces p 5) ltac:(discriminate)) as (r & Hr & _ & _ & Hcs & _).
  exists r. split; [exact Hr |]. rewrite Hcs by discriminate. reflexivity.
Defined.

Lemma sumZ_delta (m j0 : nat) (f : nat -> Z) :
  sumZ m (fun j => if (j =? j0)%nat then f j else 0) = if (j0 <? m)%nat then f j0 else 0.
Proof.
  induction m as [|m IH]; [reflexivity |].
  cbn [sumZ]. rewrite IH.
  destruct (Nat.eqb_spec m j0) as [-> | Hne].
  - rewrite Nat.ltb_irrefl. destruct (Nat.ltb_spec j0 (S j0)); lia.
  - destruct (Nat.ltb_spec j0 m); destruct (Nat.ltb_spec j0 (S m)); lia.
Qed.

(** The plain product with [x^j0] moves the coefficients up by [j0]. *)
Lemma conv_monomial nn qq a j0 k :
  (j0 < nn)%nat ->
  conv nn a (monomial nn qq j0) k
  = if (j0 <=? k)%nat && (k - j0 <? nn)%nat then coeff a (k - j0) else 0.
Proof.
  intros Hj0. unfold conv.
  rewrite (sumZ_ext nn _ (fun i => if (i =? k - j0)%nat
                                   then (if (j0 <=? k)%nat then coeff a i else 0) else 0)).
  - rewrite sumZ_delta.
    destruct (Nat.leb_spec j0 k); destruct (Nat.ltb_spec (k - j0) nn); reflexivity.
  - intros i Hi.
    rewrite (sumZ_ext nn _ (fun j => if (j =? j0)%nat
                                     then (if (i + j =? k)%nat then coeff a i else 0) else 0)).
    + rewrite sumZ_delta. destruct (Nat.ltb_spec j0 nn); [| lia].
      destruct (Nat.eqb_spec (i + j0) k); destruct (Nat.eqb_spec i (k - j0));
        destruct (Nat.leb_spec j0 k); try reflexivity; lia.
    + intros j Hj. unfold monomial.
      rewrite (coeff_mk _ nn qq (fun j => if (j =? j0)%nat then 1 else 0) j Hj eq_refl).
      destruct (i + j =? k)%nat; destruct (j =? j0)%nat; lia.
Qed.

(** X13.  Multiplying by [x^j0] shows the reduction modulo [x^n + 1] at
    work: the coefficients move up by [j0] places, and those pushed past
    the end come back at the start with their sign changed.  In particular
    the product with the constant 1 ([j0 = 0]) is the polynomial itself,
    reduced modulo [q]. *)
Theorem mul_by_monomial (nn : nat) (qq : Z) (a : Polynomial.t) (j0 : nat) :
  wf nn qq a -> qq <> 0 -> (j0 < nn)%nat ->
  Polynomial.__mul__ a (monomial nn qq j0)
  = Ok (Polynomial.mk
          (map (fun k => (if (j0 <=? k)%nat then coeff a (k - j0)
                          else - coeff a (k + nn - j0)) mod qq)
               (range nn))
          nn qq).
Proof.
  intros Ha Hq Hj0.
  rewrite (mul_spec nn qq a (monomial nn qq j0) Ha (wf_map nn qq _) Hq).
  do 2 f_equal. apply map_range_ext. intros k Hk. f_equal.
  unfold negacyclic. rewrite !(conv_monomial nn qq a j0) by exact Hj0.
  destruct (Nat.leb_spec j0 k) as [Hle | Hgt].
  - destruct (Nat.ltb_spec (k - j0) nn); [| lia].
    destruct (Nat.leb_spec j0 (k + nn)); [| lia].
    destruct (Nat.ltb_spec (k + nn - j0) nn); [lia |]. cbn [andb]. lia.
  - destruct (Nat.leb_spec j0 (k + nn)); [| lia].
    destruct (Nat.ltb_spec (k + nn - j0) nn); [| lia]. cbn [andb]. lia.
Qed.

Lemma mul_by_monomial_witness :
  let a := Polynomial.mk [1; 2; 3] 3 7 in
  wf 3 7 a /\ Polynomial.__mul__ a (monomial 3 7 1) = Ok (Polynomial.mk [4; 1; 2] 3 7).
Proof.
  intros a.
  assert (Ha : wf 3 7 a) by (repeat split).
  split; [exact Ha |].
  exact (mul_by_monomial 3 7 a 1 Ha ltac:(discriminate) ltac:(lia)).
Defined.

(** * Keys as bytes *)

Lemma Z_of_byte_of_Z_mod (z : Z) : Z_of_byte (byte_of_Z z) = z mod 256.
Proof.
  unfold byte_of_Z.
  rewrite <- (Z_of_byte_of_Z (z mod 256)) at 2 by (apply Z.mod_pos_bound; lia).
  unfold byte_of_Z. rewrite Zmod_mod. reflexivity.
Qed.

(** [int.from_bytes(x.to_bytes(len, 'little'), 'little')] *)
Lemma from_bytes_le_bytes (len : nat) (x : Z) :
  from_bytes_little (le_bytes len x) = x mod 2 ^ (8 * Z.of_nat len).
Proof.
  revert x. induction len as [|len IH]; intros x.
  - cbn. rewrite Z.mod_1_r. reflexivity.
  - cbn [le_bytes from_bytes_little]. rewrite IH, Z_of_byte_of_Z_mod.
    replace (8 * Z.of_nat (S len)) with (8 + 8 * Z.of_nat len) by lia.
    rewrite Z.pow_add_r by lia. change (2 ^ 8) with 256.
    rewrite Z.rem_mul_r by lia. reflexivity.
Qed.

Lemma length_le_bytes (len : nat) (x : Z) : length (le_bytes len x) = len.
Proof. revert x. induction len as [|len IH]; intros x; cbn; [| rewrite IH]; reflexivity. Qed.

Lemma from_bytes_le_bytes_3 (x : Z) :
  0 <= x < 2 ^ 24 -> from_bytes_little (le_bytes 3 x) = x.
Proof. intros H. rewrite from_bytes_le_bytes. apply Z.mod_small. exact H. Qed.

Lemma from_bytes_signed_le_bytes_2 (x : Z) :
  - 2 ^ 15 <= x < 2 ^ 15 -> from_bytes_little_signed (le_bytes 2 x) = x.
Proof.
  intros H. unfold from_bytes_little_signed.
  rewrite from_bytes_le_bytes, length_le_bytes.
  change (8 * Z.of_nat 2) with 16.
  change (0 <? 16) with true. cbn [andb]. change (16 - 1) with 15.
  destruct (Z.leb_spec (2 ^ 15) (x mod 2 ^ 16)) as [Hhi | Hlo].
  - destruct (Z.lt_ge_cases x 0) as [Hneg | Hpos].
    + rewrite <- (Z.mod_unique x (2 ^ 16) (-1) (x + 2 ^ 16)); lia.
    + rewrite Z.mod_small in Hhi by lia. lia.
  - destruct (Z.lt_ge_cases x 0) as [Hneg | Hpos].
    + rewrite <- (Z.mod_unique x (2 ^ 16) (-1) (x + 2 ^ 16)) in Hlo; lia.
    + apply Z.mod_small. lia.
Qed.

(** A loop that appends to a byte string. *)
Lemma for_append {A} (body : A -> bytes -> result bytes) (G : A -> bytes)
      (xs : list A) (acc : bytes) :
  (forall x acc, In x xs -> body x acc = Ok (acc ++ G x)) ->
  for_ xs body acc = Ok (acc ++ flat_map G xs).
Proof.
  revert acc. induction xs as [|x xs IH]; intros acc H.
  - cbn. rewrite app_nil_r. reflexivity.
  - rewrite for_cons, (H x acc (or_introl eq_refl)), bind_Ok.
    rewrite IH by (intros y acc' Hy; apply H; right; exact Hy).
    cbn [flat_map]. rewrite app_assoc. reflexivity.
Qed.

Lemma flat_map_flat_map {A B C} (f : A -> list B) (g : B -> list C) (xs : list A) :
  flat_map (fun x => flat_map g (f x)) xs = flat_map g (flat_map f xs).
Proof.
  induction xs as [|x xs IH]; [reflexivity |].
  cbn [flat_map]. rewrite IH, flat_map_app. reflexivity.
Qed.

Lemma length_flat_map_Forall {A B} (f : A -> list B) (w : nat) (l : list A) :
  Forall (fun x => length (f x) = w) l -> length (flat_map f l) = (w * length l)%nat.
Proof.
  induction 1 as [|x l Hx _ IH]; [cbn; lia |].
  cbn [flat_map length]. rewrite length_app, IH, Hx. lia.
Qed.

(** Chunk [i] of a concatenation of chunks of one width. *)
Lemma slice_chunk {A B} (f : A -> list B) (w : nat) (l : list A) (rest : list B)
      (i : nat) (x : A) :
  Forall (fun x => length (f x) = w) l -> l !! i = Some x ->
  slice (flat_map f l ++ rest) (w * i) (w * i + w) = f x.
Proof.
  intros Hl. revert i. induction Hl as [|y l Hy _ IH]; intros i Hi; [discriminate |].
  unfold slice in *. replace (w * i + w - w * i)%nat with w by lia.
  cbn [flat_map]. rewrite <- app_assoc.
  destruct i as [|i].
  - injection Hi as <-. rewrite Nat.mul_0_r, drop_0.
    rewrite <- Hy at 1. rewrite take_app_length. reflexivity.
  - cbn in Hi. replace (w * S i)%nat with (length (f y) + w * i)%nat by lia.
    rewrite drop_app_add. specialize (IH i Hi).
    replace (w * i + w - w * i)%nat with w in IH by lia. exact IH.
Qed.

Lemma slice_after {A} (l rest : list A) (m : nat) :
  slice (l ++ rest) (length l) (length l + m) = take m rest.
Proof.
  unfold slice. replace (length l + m - length l)%nat with m by lia.
  rewrite drop_app_length. reflexivity.
Qed.

Lemma lookup_flat_map_Forall {A B} (f : A -> list B) (w : nat) (l : list A)
      (i j : nat) (x : A) (y : B) :
  Forall (fun x => length (f x) = w) l -> l !! i = Some x -> f x !! j = Some y ->
  flat_map f l !! (i * w + j)%nat = Some y.
Proof.
  intros Hl. revert i. induction Hl as [|z l Hz _ IH]; intros i Hi Hj; [discriminate |].
  cbn [flat_map]. destruct i as [|i].
  - injection Hi as <-. rewrite lookup_app_l; [exact Hj |].
    apply lookup_lt_Some in Hj. lia.
  - cbn in Hi. rewrite lookup_app_r by (rewrite Hz; lia).
    replace (S i * w + j - length (f z))%nat with (i * w + j)%nat by (rewrite Hz; lia).
    apply IH; assumption.
Qed.

(** The coefficients of [k] polynomials, one list after the other. *)
Lemma all_coeffs_lookup (t : list Polynomial.t) (a b : nat) (p : Polynomial.t) :
  Forall (wf 256 3329) t -> t !! a = Some p -> (b < 256)%nat ->
  flat_map Polynomial.coeffs t !! (a * 256 + b)%nat = Some (coeff p b).
Proof.
  intros Ht Ha Hb.
  apply (lookup_flat_map_Forall Polynomial.coeffs 256 t a b p).
  - eapply Forall_impl; [exact Ht |]. intros x (Hx & _). exact Hx.
  - exact Ha.
  - apply lookup_coeff.
    apply (Forall_lookup_1 _ _ _ _ Ht) in Ha. destruct Ha as (-> & _). exact Hb.
Qed.

Lemma length_all_coeffs (t : list Polynomial.t) :
  Forall (wf 256 3329) t -> length (flat_map Polynomial.coeffs t) = (256 * length t)%nat.
Proof.
  intros Ht. apply length_flat_map_Forall.
  eapply Forall_impl; [exact Ht |]. intros x (Hx & _). exact Hx.
Qed.

Lemma In_all_coeffs (t : list Polynomial.t) (c : Z) :
  In c (flat_map Polynomial.coeffs t) <->
  exists p, In p t /\ In c (Polynomial.coeffs p).
Proof. apply in_flat_map. Qed.

(** The two serialisers, when every coefficient fits its width. *)
Lemma encode_pk_closed t rho params :
  Forall (fun c => 0 <= c < 2 ^ 24) (flat_map Polynomial.coeffs t) ->
  encode_pk t rho params = Ok (flat_map (le_bytes 3) (flat_map Polynomial.coeffs t) ++ rho).
Proof.
  intros Hfit. unfold encode_pk.
  rewrite (for_append _ (fun poly => flat_map (le_bytes 3) (Polynomial.coeffs poly))).
  - rewrite bind_Ok, flat_map_flat_map. reflexivity.
  - intros p acc Hp. apply for_append. intros c acc' Hc.
    unfold to_bytes_little.
    assert (Hr : 0 <= c < 2 ^ 24).
    { apply (proj1 (List.Forall_forall _ _) Hfit). apply In_all_coeffs. eauto. }
    change (8 * Z.of_nat 3) with 24.
    destruct (Z.leb_spec 0 c); [| lia]. destruct (Z.ltb_spec c (2 ^ 24)); [| lia].
    reflexivity.
Qed.

Lemma encode_sk_closed s params :
  Forall (fun c => - 2 ^ 15 <= c < 2 ^ 15) (flat_map Polynomial.coeffs s) ->
  encode_sk s params = Ok (flat_map (le_bytes 2) (flat_map Polynomial.coeffs s)).
Proof.
  intros Hfit. unfold encode_sk.
  rewrite (for_append _ (fun poly => flat_map (le_bytes 2) (Polynomial.coeffs poly))).
  - rewrite flat_map_flat_map. reflexivity.
  - intros p acc Hp. apply for_append. intros c acc' Hc.
    unfold to_bytes_little_signed.
    assert (Hr : - 2 ^ 15 <= c < 2 ^ 15).
    { apply (proj1 (List.Forall_forall _ _) Hfit). apply In_all_coeffs. eauto. }
    change (8 * Z.of_nat 2 - 1) with 15.
    destruct (Z.leb_spec (- 2 ^ 15) c); [| lia]. destruct (Z.ltb_spec c (2 ^ 15)); [| lia].
    reflexivity.
Qed.

Lemma polys_eq_below (kk : nat) (f : nat -> Polynomial.t) (t : list Polynomial.t) :
  length t = kk ->
  (forall a p, t !! a = Some p -> f a = p) ->
  map f (range kk) = t.
Proof.
  intros Hlen H. apply list_eq. intros a.
  rewrite lookup_map. unfold range.
  destruct (Nat.lt_ge_cases a kk) as [Ha | Ha].
  - rewrite lookup_seq_lt by exact Ha. cbn.
    destruct (lookup_lt_is_Some_2 t a) as [p Hp]; [lia |].
    rewrite Hp, (H a p Hp). reflexivity.
  - rewrite lookup_seq_ge by exact Ha. rewrite lookup_ge_None_2 by lia. reflexivity.
Qed.

Lemma new_decoded (p : Polynomial.t) (f : nat -> Z) :
  wf 256 3329 p -> (forall b, (b < 256)%nat -> f b = coeff p b) ->
  Polynomial.new (map f (range 256)) = p.
Proof.
  intros Hp Hf. unfold Polynomial.new.
  rewrite init_full by (rewrite length_map; apply length_range).
  etransitivity; [| symmetry; apply (wf_eta 256 3329 p Hp)].
  f_equal. apply map_range_ext. exact Hf.
Qed.

Lemma for_cases_any {A S} (xs : list A) (body : A -> S -> result S) (e : exn) (s : S) :
  (forall x s, In x xs -> (exists s', body x s = Ok s') \/ body x s = Raise e) ->
  (exists s', for_ xs body s = Ok s') \/ for_ xs body s = Raise e.
Proof.
  intros H.
  destruct (for_cases xs body (fun _ => True) e s I) as [Hok | Hraise].
  - intros x t Hx _. destruct (H x t Hx) as [(s' & ->) | ->]; [left; exact I | right; reflexivity].
  - left. apply returns_inv in Hok as (s' & -> & _). eauto.
  - right. exact Hraise.
Qed.

Lemma for_raises_any {A S} (xs : list A) (body : A -> S -> result S) (e : exn) (s : S) :
  (forall x s, In x xs -> (exists s', body x s = Ok s') \/ body x s = Raise e) ->
  (exists x, In x xs /\ forall s, body x s = Raise e) ->
  for_ xs body s = Raise e.
Proof.
  intros H (x & Hx & Hr).
  apply (for_raises xs body (fun _ => True) e s I).
  - intros y t Hy _. destruct (H y t Hy) as [(s' & ->) | ->]; [left; exact I | right; reflexivity].
  - exists x. split; [exact Hx | intros t _; apply Hr].
Qed.

(** X14.  A public key written by [encode_pk] is read back by [decode_pk]:
    for [k] polynomials of 256 coefficients in [0, 2^24) and a seed of at
    most 32 bytes, [encode_pk] returns [768 * k] bytes followed by the
    seed, and [decode_pk] returns the same polynomials and the same
    seed. *)
Theorem decode_pk_encode_pk params t rho :
  n params = 256%nat -> polys_ok (k params) t ->
  Forall (fun p => Forall (fun c => 0 <= c < 2 ^ 24) (Polynomial.coeffs p)) t ->
  (length rho <= 32)%nat ->
  exists pk, encode_pk t rho params = Ok pk /\
             length pk = (768 * k params + length rho)%nat /\
             decode_pk pk params = (t, rho).
Proof.
  intros Hn [Hlen Hwf] Hfit Hrho.
  apply Forall_flat_map in Hfit.
  rewrite (encode_pk_closed t rho params Hfit).
  set (C := flat_map Polynomial.coeffs t).
  assert (Hw : Forall (fun x => length (le_bytes 3 x) = 3%nat) C).
  { apply List.Forall_forall. intros x _. apply length_le_bytes. }
  assert (HC : length (flat_map (le_bytes 3) C) = (768 * k params)%nat).
  { rewrite (length_flat_map_Forall _ 3 C Hw). unfold C.
    rewrite (length_all_coeffs t Hwf), Hlen. lia. }
  eexists. split; [reflexivity |]. split; [rewrite length_app, HC; reflexivity |].
  unfold decode_pk. rewrite Hn. f_equal.
  - apply polys_eq_below; [exact Hlen |]. intros a p Ha.
    apply new_decoded; [apply (Forall_lookup_1 _ _ _ _ Hwf Ha) |].
    intros b Hb.
    rewrite (slice_chunk (le_bytes 3) 3 C rho (a * 256 + b) (coeff p b) Hw
               (all_coeffs_lookup t a b p Hwf Ha Hb)).
    apply from_bytes_le_bytes_3.
    apply (proj1 (List.Forall_forall _ _) Hfit). unfold C.
    apply In_all_coeffs. exists p. split.
    + apply list_elem_of_In. apply (list_elem_of_lookup_2 _ _ _ Ha).
    + apply list_elem_of_In. apply (list_elem_of_lookup_2 _ b).
      apply lookup_coeff. apply (Forall_lookup_1 _ _ _ _ Hwf) in Ha.
      destruct Ha as (-> & _). exact Hb.
  - replace (3 * (k params * 256))%nat with (length (flat_map (le_bytes 3) C)) by lia.
    rewrite slice_after. apply take_ge. exact Hrho.
Qed.

Lemma decode_pk_encode_pk_witness :
  let t := repeat (Polynomial.new (repeat 3328 256)) 2 in
  exists pk, encode_pk t (repeat x2a 32) KYBER512 = Ok pk /\
             length pk = 1568%nat /\
             decode_pk pk KYBER512 = (t, repeat x2a 32).
Proof.
  intros t.
  apply (decode_pk_encode_pk KYBER512 t (repeat x2a 32)).
  - reflexivity.
  - apply polys_ok_repeat. apply new_wf. apply repeat_length.
  - subst t. apply List.Forall_forall. intros p Hp. apply repeat_spec in Hp. subst p.
    rewrite new_coeffs by apply repeat_length.
    apply List.Forall_forall. intros c Hc. apply repeat_spec in Hc. subst c. lia.
  - rewrite repeat_length. lia.
Defined.

(** X15.  [encode_pk] raises [OverflowError] as soon as one coefficient
    does not fit three unsigned bytes, that is, is negative or at least
    [2^24]. *)
Theorem encode_pk_overflow params t rho p c :
  In p t -> In c (Polynomial.coeffs p) -> c < 0 \/ 2 ^ 24 <= c ->
  encode_pk t rho params = Raise OverflowError.
Proof.
  intros Hp Hc Hout. unfold encode_pk.
  assert (Hstep : forall (x : Z) (acc : bytes),
             (exists acc', (bs <- to_bytes_little 3 x ;; Ok (acc ++ bs)) = Ok acc')
             \/ (bs <- to_bytes_little 3 x ;; Ok (acc ++ bs)) = Raise OverflowError).
  { intros x acc. unfold to_bytes_little.
    destruct (_ && _); [left; eexists; reflexivity | right; reflexivity]. }
  rewrite for_raises_any with (e := OverflowError); [reflexivity | |].
  - intros x acc _. apply for_cases_any. intros y acc' _. apply Hstep.
  - exists p. split; [exact Hp |]. intros acc. apply for_raises_any.
    + intros y acc' _. apply Hstep.
    + exists c. split; [exact Hc |]. intros acc'. unfold to_bytes_little.
      change (8 * Z.of_nat 3) with 24.
      destruct (Z.leb_spec 0 c); destruct (Z.ltb_spec c (2 ^ 24)); try reflexivity; lia.
Qed.

Lemma encode_pk_overflow_witness :
  encode_pk [Polynomial.new [5; -1; 7]] [] KYBER512 = Raise OverflowError.
Proof.
  apply (encode_pk_overflow KYBER512 _ [] (Polynomial.new [5; -1; 7]) (-1)).
  - left. reflexivity.
  - right. left. reflexivity.
  - left. lia.
Defined.

(** X16.  A secret key written by [encode_sk] is read back by
    [decode_sk]: for [k] polynomials of 256 coefficients in
    [-2^15, 2^15), [encode_sk] returns [512 * k] bytes and [decode_sk]
    returns the same polynomials. *)
Theorem decode_sk_encode_sk params s :
  n params = 256%nat -> polys_ok (k params) s ->
  Forall (fun p => Forall (fun c => - 2 ^ 15 <= c < 2 ^ 15) (Polynomial.coeffs p)) s ->
  exists sk, encode_sk s params = Ok sk /\
             length sk = (512 * k params)%nat /\
             decode_sk sk params = s.
Proof.
  intros Hn [Hlen Hwf] Hfit.
  apply Forall_flat_map in Hfit.
  rewrite (encode_sk_closed s params Hfit).
  set (C := flat_map Polynomial.coeffs s).
  assert (Hw : Forall (fun x => length (le_bytes 2 x) = 2%nat) C).
  { apply List.Forall_forall. intros x _. apply length_le_bytes. }
  eexists. split; [reflexivity |]. split.
  { rewrite (length_flat_map_Forall _ 2 C Hw). unfold C.
    rewrite (length_all_coeffs s Hwf), Hlen. lia. }
  unfold decode_sk. rewrite Hn.
  apply polys_eq_below; [exact Hlen |]. intros a p Ha.
  apply new_decoded; [apply (Forall_lookup_1 _ _ _ _ Hwf Ha) |].
  intros b Hb.
  rewrite <- (app_nil_r (flat_map (le_bytes 2) C)).
  rewrite (slice_chunk (le_bytes 2) 2 C [] (a * 256 + b) (coeff p b) Hw
             (all_coeffs_lookup s a b p Hwf Ha Hb)).
  apply from_bytes_signed_le_bytes_2.
  apply (proj1 (List.Forall_forall _ _) Hfit). unfold C.
  apply In_all_coeffs. exists p. split.
  - apply list_elem_of_In. apply (list_elem_of_lookup_2 _ _ _ Ha).
  - apply list_elem_of_In. apply (list_elem_of_lookup_2 _ b).
    apply lookup_coeff. apply (Forall_lookup_1 _ _ _ _ Hwf) in Ha.
    destruct Ha as (-> & _). exact Hb.
Qed.

Lemma decode_sk_encode_sk_witness :
  let s := repeat (Polynomial.new (repeat (-3) 256)) 2 in
  exists sk, encode_sk s KYBER512 = Ok sk /\ length sk = 1024%nat /\
             decode_sk sk KYBER512 = s.
Proof.
  intros s.
  apply (decode_sk_encode_sk KYBER512 s).
  - reflexivity.
  - apply polys_ok_repeat. apply new_wf. apply repeat_length.
  - subst s. apply List.Forall_forall. intros p Hp. apply repeat_spec in Hp. subst p.
    rewrite new_coeffs by apply repeat_length.
    apply List.Forall_forall. intros c Hc. apply repeat_spec in Hc. subst c. lia.
Defined.

(** X17.  [encode_sk] raises [OverflowError] as soon as one coefficient
    does not fit two signed bytes, that is, is below [-2^15] or at least
    [2^15]. *)
Theorem encode_sk_overflow params s p c :
  In p s -> In c (Polynomial.coeffs p) -> c < - 2 ^ 15 \/ 2 ^ 15 <= c ->
  encode_sk s params = Raise OverflowError.
Proof.
  intros Hp Hc Hout. unfold encode_sk.
  assert (Hstep : forall (x : Z) (acc : bytes),
             (exists acc', (bs <- to_bytes_little_signed 2 x ;; Ok (acc ++ bs)) = Ok acc')
             \/ (bs <- to_bytes_little_signed 2 x ;; Ok (acc ++ bs)) = Raise OverflowError).
  { intros x acc. unfold to_bytes_little_signed. cbv zeta.
    destruct (_ && _); [left; eexists; reflexivity | right; reflexivity]. }
  apply for_raises_any.
  - intros x acc _. apply for_cases_any. intros y acc' _. apply Hstep.
  - exists p. split; [exact Hp |]. intros acc. apply for_raises_any.
    + intros y acc' _. apply Hstep.
    + exists c. split; [exact Hc |]. intros acc'. unfold to_bytes_little_signed.
      cbv zeta. change (8 * Z.of_nat 2 - 1) with 15.
      destruct (Z.leb_spec (- 2 ^ 15) c); destruct (Z.ltb_spec c (2 ^ 15));
        try reflexivity; lia.
Qed.

Lemma encode_sk_overflow_witness :
  encode_sk [Polynomial.new [5; 40000; 7]] KYBER512 = Raise OverflowError.
Proof.
  apply (encode_sk_overflow KYBER512 _ (Polynomial.new [5; 40000; 7]) 40000).
  - left. reflexivity.
  - right. left. reflexivity.
  - right. lia.
Defined.

(** * Ciphertexts as bytes *)

Lemma lookup_slice {A} (l : list A) (a w j : nat) :
  (j < w)%nat -> slice l a (a + w) !! j = l !! (a + j)%nat.
Proof.
  intros Hj. unfold slice. replace (a + w - a)%nat with w by lia.
  rewrite lookup_take_lt by exact Hj. apply lookup_drop.
Qed.

Lemma item_slice {A} (l : list A) (a w j : nat) :
  (j < w)%nat -> item (slice l a (a + w)) j = item l (a + j).
Proof. intros Hj. unfold item. rewrite lookup_slice by exact Hj. reflexivity. Qed.

(** [decompress_ciphertext] reads a coefficient from the [width d] bytes
    at the cursor and from nothing else. *)
Lemma read_coeff_slice d q (c : bytes) pos :
  read_coeff d q c pos = read_coeff d q (slice c pos (pos + width d)) 0.
Proof.
  unfold read_coeff, width. destruct (d <=? 8)%nat.
  - rewrite item_slice by lia. rewrite Nat.add_0_r. reflexivity.
  - rewrite !item_slice by lia. rewrite Nat.add_0_r. reflexivity.
Qed.

Lemma slice_app_r {A} (l1 l2 : list A) (a b : nat) :
  slice (l1 ++ l2) (length l1 + a) (length l1 + b) = slice l2 a b.
Proof.
  unfold slice. rewrite drop_app_add.
  replace (length l1 + b - (length l1 + a))%nat with (b - a)%nat by lia. reflexivity.
Qed.

(** What is stored for a coefficient [x] in [0, 3329) is read back as a
    value close to [x]. *)
Lemma roundtrip_read (d : nat) (x : Z) :
  In d [1; 4; 5; 10; 11]%nat -> 0 <= x < 3329 ->
  exists z,
    read_coeff d 3329
      (compressed_bytes d ((Z.shiftl x (Z.of_nat d) + 3329 / 2) / 3329)) 0 = Ok z /\
    centered_abs 3329 (z - x) <= compression_bound 3329 d.
Proof.
  intros Hd Hx. pose proof roundtrip_close_all as H.
  rewrite forallb_forall in H. specialize (H d Hd).
  rewrite forallb_forall in H. specialize (H (Z.to_nat x)).
  rewrite Z2Nat.id in H by lia.
  assert (Hin : In (Z.to_nat x) (seq 0 3329)) by (apply in_seq; lia).
  specialize (H Hin). unfold roundtrip_close in H.
  unfold compress_coeff in H. rewrite (py_div_Ok _ 3329 q_nonzero) in H.
  destruct (read_coeff d 3329 _ 0) as [z'|]; [| discriminate].
  destruct (decompress_coeff d 3329 _) as [z|]; [| discriminate].
  apply andb_true_iff in H as [Heq Hle]. apply Z.eqb_eq in Heq. subst z'.
  exists z. split; [reflexivity |]. apply Z.leb_le. exact Hle.
Qed.

(** The coefficients read from the bytes of a list of polynomials,
    followed by anything. *)
Lemma read_stored (d : nat) (t : list Polynomial.t) (rest : bytes) (a b : nat)
      (p : Polynomial.t) :
  In d [1; 4; 5; 10; 11]%nat -> Forall (wf 256 3329) t -> Forall (reduced 3329) t ->
  t !! a = Some p -> (b < 256)%nat ->
  exists z,
    read_coeff d 3329 (flat_map (poly_bytes d 3329) t ++ rest) (width d * (a * 256 + b))
    = Ok z /\
    centered_abs 3329 (z - coeff p b) <= compression_bound 3329 d.
Proof.
  intros Hd Hwf Hred Ha Hb.
  unfold poly_bytes. rewrite flat_map_flat_map.
  rewrite read_coeff_slice.
  rewrite (slice_chunk _ (width d) (flat_map Polynomial.coeffs t) rest (a * 256 + b)
             (coeff p b)).
  - apply roundtrip_read; [exact Hd |].
    apply (Forall_lookup_1 _ _ _ _ Hwf) in Ha as Hp.
    apply (Forall_lookup_1 _ _ _ _ Hred) in Ha as Hr.
    apply (coeff_reduced 256 3329 p b Hp Hr Hb).
  - apply List.Forall_forall. intros x _. apply length_compressed_bytes.
  - apply all_coeffs_lookup; assumption.
Qed.

Lemma coeff_new (cs : list Z) (b : nat) (z : Z) :
  length cs = 256%nat -> cs !! b = Some z -> coeff (Polynomial.new cs) b = z.
Proof.
  intros Hlen Hz. unfold coeff. rewrite new_coeffs by exact Hlen.
  apply nth_lookup_Some. exact Hz.
Qed.

(** One polynomial read by [decompress_ciphertext]. *)
Lemma read_poly (d : nat) (c : bytes) (g : nat -> nat) (p : Polynomial.t) :
  (forall b, (b < 256)%nat ->
     exists z, read_coeff d 3329 c (g b) = Ok z /\
               centered_abs 3329 (z - coeff p b) <= compression_bound 3329 d) ->
  returns (coeffs <- mapM (fun b => read_coeff d 3329 c (g b)) (range 256) ;;
           Ok (Polynomial.new coeffs))
          (fun p' => wf 256 3329 p' /\ coeffs_close d p p').
Proof.
  intros H.
  eapply returns_bind.
  - apply returns_mapM
      with (P := fun (b : nat) z =>
                   centered_abs 3329 (z - coeff p b) <= compression_bound 3329 d).
    intros i b Hb. apply range_lookup in Hb as [-> Hb].
    destruct (H i Hb) as (z & -> & Hz). exact Hz.
  - intros cs Hcs. simpl.
    assert (Hlen : length cs = 256%nat).
    { apply Forall2_length in Hcs. rewrite length_range in Hcs. symmetry. exact Hcs. }
    split; [apply new_wf; exact Hlen |].
    intros b Hb.
    destruct (lookup_lt_is_Some_2 cs b) as [z Hz]; [lia |].
    rewrite (coeff_new cs b z Hlen Hz).
    apply (Forall2_lookup_lr _ _ _ b b z Hcs); [| exact Hz].
    unfold range. apply lookup_seq_lt. exact Hb.
Qed.

(** X18.  A ciphertext written by [compress_ciphertext] is read back by
    [decompress_ciphertext] up to the rounding of the compression: for
    each of the three parameter sets and polynomials with 256 coefficients
    in [0, 3329), every coefficient of [u] comes back within the bound of
    [du] bits and every coefficient of [v] within the bound of [dv] bits,
    as distances modulo 3329. *)
Theorem decompress_compress_ciphertext params u v :
  valid_params params ->
  polys_ok (k params) u -> Forall (reduced 3329) u -> wf 256 3329 v -> reduced 3329 v ->
  exists c u' v',
    compress_ciphertext u v params = Ok c /\
    decompress_ciphertext c params = Ok (u', v') /\
    length u' = k params /\
    (forall a p p', u !! a = Some p -> u' !! a = Some p' ->
                    wf 256 3329 p' /\ coeffs_close (du params) p p') /\
    wf 256 3329 v' /\ coeffs_close (dv params) v v'.
Proof.
  intros Hv [Hlen Hwf] Hred Hwfv Hredv.
  assert (Hd : In (du params) [1; 4; 5; 10; 11]%nat /\ In (dv params) [1; 4; 5; 10; 11]%nat).
  { destruct Hv as [-> | [-> | ->]]; simpl; tauto. }
  destruct Hd as [Hdu Hdv].
  destruct (valid_params_shape params Hv) as (Hn & Hq & [Hk Hk'] & _ & _).
  rewrite (compress_ciphertext_closed params Hq u v). rewrite Hq.
  set (U := flat_map (poly_bytes (du params) 3329) u).
  set (V := poly_bytes (dv params) 3329 v).
  assert (HU : length U = (width (du params) * (k params * 256))%nat).
  { unfold U, poly_bytes. rewrite flat_map_flat_map.
    rewrite (length_flat_map_Forall _ (width (du params)))
      by (apply List.Forall_forall; intros x _; apply length_compressed_bytes).
    rewrite (length_all_coeffs u Hwf), Hlen. lia. }
  unfold decompress_ciphertext. rewrite Hn, Hq.
  pose (P := fun (a : nat) (p' : Polynomial.t) =>
               wf 256 3329 p' /\
               forall p, u !! a = Some p -> coeffs_close (du params) p p').
  assert (Hu : returns
                 (mapM (fun a =>
                          coeffs <- mapM (fun b => read_coeff (du params) 3329 (U ++ V)
                                                     (width (du params) * (a * 256 + b)))
                                         (range 256) ;;
                          Ok (Polynomial.new coeffs))
                       (range (k params)))
                 (Forall2 P (range (k params)))).
  { apply returns_mapM. intros i a Ha. apply range_lookup in Ha as [-> Ha].
    destruct (lookup_lt_is_Some_2 u i) as [p Hp]; [lia |].
    eapply returns_weaken.
    - apply (read_poly (du params) (U ++ V)
               (fun b => (width (du params) * (i * 256 + b))%nat) p).
      intros b Hb. apply (read_stored (du params) u V i b p Hdu Hwf Hred Hp Hb).
    - intros p' [Hp' Hclose]. split; [exact Hp' |].
      intros p0 Hp0. rewrite Hp in Hp0. injection Hp0 as <-. exact Hclose. }
  apply returns_inv in Hu as (u' & Hu' & HP).
  assert (Hvr : returns
                  (coeffs <- mapM (fun b => read_coeff (dv params) 3329 (U ++ V)
                                              (width (du params) * (k params * 256)
                                               + width (dv params) * b))
                                  (range 256) ;;
                   Ok (Polynomial.new coeffs))
                  (fun v' => wf 256 3329 v' /\ coeffs_close (dv params) v v')).
  { apply (read_poly (dv params) (U ++ V)
             (fun b => (width (du params) * (k params * 256) + width (dv params) * b)%nat) v).
    intros b Hb. rewrite read_coeff_slice, <- HU.
    rewrite <- Nat.add_assoc, slice_app_r, <- read_coeff_slice.
    destruct (read_stored (dv params) [v] [] 0 b v Hdv) as (z & Hz & Hclose);
      [constructor; [exact Hwfv | constructor] | constructor; [exact Hredv | constructor]
       | reflexivity | exact Hb |].
    exists z. split; [| exact Hclose].
    cbn [flat_map] in Hz. rewrite !app_nil_r in Hz. exact Hz. }
  apply returns_inv in Hvr as (v' & Hv' & Hwfv' & Hclosev).
  exists (U ++ V), u', v'. split; [reflexivity |]. split.
  - rewrite Hu', bind_Ok. cbv zeta. revert Hv'.
    match goal with
    | |- context [mapM ?f (range 256)] => destruct (mapM f (range 256)) as [cs|e]
    end; [| discriminate].
    rewrite !bind_Ok. intros [= <-]. reflexivity.
  - split.
    + apply Forall2_length in HP. rewrite length_range in HP. symmetry. exact HP.
    + split; [| split; assumption].
      intros a p p' Hp Hp'.
      assert (Ha : range (k params) !! a = Some a).
      { unfold range. apply lookup_seq_lt. apply lookup_lt_Some in Hp. lia. }
      destruct (Forall2_lookup_lr _ _ _ a a p' HP Ha Hp') as [Hw Hc].
      split; [exact Hw | apply Hc; exact Hp].
Qed.

Lemma decompress_compress_ciphertext_witness :
  let u := repeat (const_poly 3328) 2 in
  let v := const_poly 1664 in
  exists c u' v',
    compress_ciphertext u v KYBER512 = Ok c /\
    decompress_ciphertext c KYBER512 = Ok (u', v') /\
    length u' = 2%nat.
Proof.
  intros u v.
  assert (Hred : forall x, 0 <= x < 3329 -> reduced 3329 (const_poly x)).
  { intros x Hx. unfold reduced, const_poly. rewrite new_coeffs by apply repeat_length.
    apply List.Forall_forall. intros c Hc. apply repeat_spec in Hc. subst c. exact Hx. }
  destruct (decompress_compress_ciphertext KYBER512 u v) as (c & u' & v' & H1 & H2 & H3 & _).
  - left. reflexivity.
  - apply polys_ok_repeat. apply const_poly_wf.
  - apply List.Forall_forall. intros p Hp. apply repeat_spec in Hp. subst p.
    apply Hred. lia.
  - apply const_poly_wf.
  - apply Hred. lia.
  - exists c, u', v'. auto.
Defined.

(** * Messages there and back *)

Lemma take_flat_map_Forall {A B} (f : A -> list B) (w : nat) (l : list A) (i : nat) :
  Forall (fun x => length (f x) = w) l ->
  take (w * i) (flat_map f l) = flat_map f (take i l).
Proof.
  intros Hl. revert i. induction Hl as [|x l Hx _ IH]; intros i.
  - cbn [flat_map]. rewrite !take_nil. reflexivity.
  - destruct i as [|i]; [rewrite Nat.mul_0_r; reflexivity |].
    cbn [flat_map take]. replace (w * S i)%nat with (length (f x) + w * i)%nat by lia.
    rewrite take_app_add, IH. reflexivity.
Qed.

Lemma drop_flat_map_Forall {A B} (f : A -> list B) (w : nat) (l : list A) (i : nat) :
  Forall (fun x => length (f x) = w) l ->
  drop (w * i) (flat_map f l) = flat_map f (drop i l).
Proof.
  intros Hl. revert i. induction Hl as [|x l Hx _ IH]; intros i.
  - cbn [flat_map]. rewrite !drop_nil. reflexivity.
  - destruct i as [|i]; [rewrite Nat.mul_0_r; reflexivity |].
    cbn [flat_map drop]. replace (w * S i)%nat with (length (f x) + w * i)%nat by lia.
    rewrite drop_app_add, IH. reflexivity.
Qed.

Lemma byte_bits_width (m : bytes) : Forall (fun b => length (byte_bits b) = 8%nat) m.
Proof. apply List.Forall_forall. intros b _. reflexivity. Qed.

Lemma decode_message_unfold (msg : bytes) (n : nat) :
  decode_message msg n = Polynomial.new (take n (flat_map byte_bits msg)).
Proof. reflexivity. Qed.

(** A bit is positive exactly when it is 1. *)
Lemma positive_bits (m : bytes) :
  map (fun c => if 0 <? c then 1 else 0) (flat_map byte_bits m) = flat_map byte_bits m.
Proof.
  rewrite <- (map_id (flat_map byte_bits m)) at 2.
  apply map_ext_in. intros c Hc. apply in_flat_map in Hc as (b & _ & Hc).
  unfold byte_bits in Hc. apply in_map_iff in Hc as (i & <- & _).
  pose proof (bit_range (Z_of_byte b) i) as Hr.
  destruct (Z.ltb_spec 0 (Z.land (Z.shiftr (Z_of_byte b) (Z.of_nat i)) 1)); lia.
Qed.

Lemma fold_left_pointwise {A B} (f g : A -> B -> A) (l : list B) (a : A) :
  (forall acc x, f acc x = g acc x) -> fold_left f l a = fold_left g l a.
Proof.
  intros H. revert a. induction l as [|x l IH]; intros a; [reflexivity |].
  cbn [fold_left]. rewrite H. apply IH.
Qed.

Lemma pack_byte_drop (bits : list Z) (s : nat) : pack_byte bits s = pack_byte (drop s bits) 0.
Proof.
  unfold pack_byte. apply fold_left_pointwise.
  intros acc j. rewrite lookup_drop. reflexivity.
Qed.

(** The eight bits of a byte are packed into that byte again. *)
Lemma pack_byte_of_bits (b : byte) (rest : list Z) :
  byte_of_Z (pack_byte (byte_bits b ++ rest) 0) = b.
Proof. destruct b; reflexivity. Qed.

Lemma range3_by_8 (L : nat) : range3 0 (8 * L) 8 = map (fun i => (0 + i * 8)%nat) (seq 0 L).
Proof.
  unfold range3. f_equal. f_equal.
  replace (8 * L - 0 + 8 - 1)%nat with (7 + L * 8)%nat by lia.
  rewrite Nat.div_add by lia. reflexivity.
Qed.

(** Packing the bits of a byte string gives the byte string. *)
Lemma pack_bits (m : bytes) :
  map (fun i => byte_of_Z (pack_byte (flat_map byte_bits m) i))
      (range3 0 (length (flat_map byte_bits m)) 8) = m.
Proof.
  rewrite (length_flat_map_Forall byte_bits 8 m (byte_bits_width m)).
  rewrite range3_by_8, map_map. apply list_eq. intros i.
  rewrite lookup_map.
  destruct (Nat.lt_ge_cases i (length m)) as [Hi | Hi].
  - rewrite lookup_seq_lt by exact Hi. cbn [fmap option_fmap option_map].
    destruct (lookup_lt_is_Some_2 m i Hi) as [b Hb]. rewrite Hb. f_equal.
    rewrite pack_byte_drop.
    match goal with
    | |- context [drop ?pos _] => replace pos with (8 * i)%nat by lia
    end.
    rewrite (drop_flat_map_Forall byte_bits 8 m i (byte_bits_width m)).
    rewrite (drop_S m b i Hb). cbn [flat_map]. apply pack_byte_of_bits.
  - rewrite lookup_seq_ge by exact Hi. rewrite lookup_ge_None_2 by exact Hi. reflexivity.
Qed.

Lemma encode_decode_nonempty (m : bytes) :
  m <> [] -> (length m <= 32)%nat -> encode_message (decode_message m 256) 256 = m.
Proof.
  intros Hne Hlen. rewrite decode_message_unfold.
  assert (Hl : length (flat_map byte_bits m) = (8 * length m)%nat)
    by apply (length_flat_map_Forall byte_bits 8 m (byte_bits_width m)).
  rewrite take_ge by lia.
  assert (Hcs : Polynomial.coeffs (Polynomial.new (flat_map byte_bits m))
                = flat_map byte_bits m).
  { unfold Polynomial.new, Polynomial.__init__. cbn [Polynomial.coeffs].
    destruct (flat_map byte_bits m) eqn:E; [| reflexivity].
    destruct m; [contradiction | discriminate]. }
  unfold encode_message. cbv zeta. rewrite Hcs.
  rewrite take_ge by lia. rewrite positive_bits. apply pack_bits.
Qed.

(** X19.  [encode_message] undoes [decode_message] on 32 bytes, and the
    pair has no check on the length of the message: a message of 1 to 32
    bytes comes back unchanged, of a longer one only the first 32 bytes
    are kept, and the empty message comes back as 32 zero bytes, because
    the constructor replaces its empty list of coefficients by 256
    zeros. *)
Theorem encode_message_decode_message (m : bytes) :
  (length m = 32%nat -> encode_message (decode_message m 256) 256 = m) /\
  (m <> [] -> encode_message (decode_message m 256) 256 = take 32 m) /\
  (m = [] -> encode_message (decode_message m 256) 256 = repeat x00 32).
Proof.
  split; [| split].
  - intros Hlen. apply encode_decode_nonempty; [| lia].
    intros ->. discriminate.
  - intros Hne.
    assert (Htake : decode_message m 256 = decode_message (take 32 m) 256).
    { rewrite !decode_message_unfold.
      change 256%nat with (8 * 32)%nat.
      rewrite !(take_flat_map_Forall byte_bits 8 _ 32) by apply byte_bits_width.
      rewrite take_take, Nat.min_id. reflexivity. }
    rewrite Htake. apply encode_decode_nonempty.
    + destruct m; [contradiction | discriminate].
    + rewrite length_take. lia.
  - intros ->. vm_compute. reflexivity.
Qed.

Lemma encode_message_decode_message_witness :
  length (repeat xa5 32) = 32%nat /\
  encode_message (decode_message (repeat xa5 32) 256) 256 = repeat xa5 32.
Proof.
  assert (H : length (repeat xa5 32) = 32%nat) by reflexivity.
  split; [exact H |].
  exact (proj1 (encode_message_decode_message (repeat xa5 32)) H).
Defined.

(** Unpacking the bytes that [encode_message] packs gives the bits back. *)
Lemma unpack_packed (cs : list Z) :
  length cs = 256%nat ->
  flat_map byte_bits
    (map (fun i => byte_of_Z (pack_byte (map (fun c => if 0 <? c then 1 else 0) cs) i))
         (range3 0 256 8))
  = map (fun c => if 0 <? c then 1 else 0) cs.
Proof.
  intros Hlen. set (bits := map (fun c => if 0 <? c then 1 else 0) cs).
  change 256%nat with (8 * 32)%nat at 1. rewrite range3_by_8, map_map.
  set (packed := map (fun i => byte_of_Z (pack_byte bits (0 + i * 8))) (seq 0 32)).
  assert (Hb : forall t, (t < 256)%nat ->
                 exists c, bits !! t = Some (Z.b2z (0 <? c))).
  { intros t Ht. destruct (lookup_lt_is_Some_2 cs t) as [c Hc]; [lia |].
    exists c. unfold bits. rewrite lookup_map, Hc. cbn. destruct (0 <? c); reflexivity. }
  apply (list_eq_below 256).
  - rewrite (length_flat_map_Forall byte_bits 8 packed (byte_bits_width packed)).
    unfold packed. rewrite length_map, length_seq. reflexivity.
  - unfold bits. rewrite length_map. exact Hlen.
  - intros t Ht.
    pose proof (Nat.div_mod_eq t 8) as Hdm.
    pose proof (Nat.mod_upper_bound t 8 ltac:(lia)) as Hmod.
    set (i := (t / 8)%nat) in *. set (j := (t mod 8)%nat) in *.
    assert (Hi : (i < 32)%nat) by lia.
    destruct (Hb (i * 8 + 0)%nat ltac:(lia)) as (c0 & H0).
    destruct (Hb (i * 8 + 1)%nat ltac:(lia)) as (c1 & H1).
    destruct (Hb (i * 8 + 2)%nat ltac:(lia)) as (c2 & H2).
    destruct (Hb (i * 8 + 3)%nat ltac:(lia)) as (c3 & H3).
    destruct (Hb (i * 8 + 4)%nat ltac:(lia)) as (c4 & H4).
    destruct (Hb (i * 8 + 5)%nat ltac:(lia)) as (c5 & H5).
    destruct (Hb (i * 8 + 6)%nat ltac:(lia)) as (c6 & H6).
    destruct (Hb (i * 8 + 7)%nat ltac:(lia)) as (c7 & H7).
    pose proof (pack_byte_bits bits (i * 8) _ _ _ _ _ _ _ _ H0 H1 H2 H3 H4 H5 H6 H7 j Hmod)
      as Hpack.
    replace t with (i * 8 + j)%nat by lia.
    rewrite (lookup_flat_map_Forall byte_bits 8 packed i j
               (byte_of_Z (pack_byte bits (i * 8)))
               (Z.b2z (Z.testbit (Z_of_byte (byte_of_Z (pack_byte bits (i * 8))))
                                 (Z.of_nat j)))
               (byte_bits_width packed)).
    + rewrite Hpack.
      do 8 (destruct j as [|j]; [symmetry; assumption |]). lia.
    + unfold packed. rewrite lookup_map, lookup_seq_lt by exact Hi. reflexivity.
    + unfold byte_bits. rewrite lookup_map. unfold range.
      rewrite lookup_seq_lt by exact Hmod. cbn [fmap option_fmap option_map Nat.add].
      rewrite land_1_bit. reflexivity.
Qed.

(** X20.  In the other direction, [decode_message] after [encode_message]
    keeps of a polynomial with 256 integer coefficients only which of them
    are positive: the result has coefficient 1 where the coefficient was
    greater than 0 and coefficient 0 elsewhere. *)
Theorem decode_message_encode_message (p : Polynomial.t) :
  length (Polynomial.coeffs p) = 256%nat ->
  Polynomial.coeffs (decode_message (encode_message p 256) 256)
  = map (fun c => if 0 <? c then 1 else 0) (Polynomial.coeffs p).
Proof.
  intros Hlen. rewrite decode_message_unfold. unfold encode_message. cbv zeta.
  rewrite (take_ge (Polynomial.coeffs p)) by lia. rewrite length_map, Hlen.
  rewrite (unpack_packed (Polynomial.coeffs p) Hlen).
  rewrite take_ge by (rewrite length_map; lia).
  apply new_coeffs. rewrite length_map. exact Hlen.
Qed.

Lemma decode_message_encode_message_witness :
  let p := Polynomial.new (5 :: -3 :: repeat 0 254) in
  length (Polynomial.coeffs p) = 256%nat /\
  Polynomial.coeffs (decode_message (encode_message p 256) 256) = 1 :: repeat 0 255.
Proof.
  intros p.
  assert (H : length (Polynomial.coeffs p) = 256%nat) by reflexivity.
  split; [exact H |].
  rewrite (decode_message_encode_message p H). reflexivity.
Defined.

(** * Noise *)

Lemma sumZ_shift (m : nat) (f : nat -> Z) :
  sumZ (S m) f = f 0%nat + sumZ m (fun j => f (S j)).
Proof.
  induction m as [|m IH]; [cbn; lia |].
  change (sumZ (S (S m)) f) with (sumZ (S m) f + f (S m)).
  rewrite IH. cbn [sumZ]. lia.
Qed.

(** A sum of [eta] signs is [2 * h - eta], where [h] of them are +1. *)
Lemma sign_sum_range (eta : nat) (byte_at : nat -> byte) :
  exists h, 0 <= h <= Z.of_nat eta /\ sign_sum eta byte_at = 2 * h - Z.of_nat eta.
Proof.
  unfold sign_sum. induction eta as [|eta (h & Hh & IH)].
  - exists 0. cbn. lia.
  - cbn [sumZ]. rewrite IH. unfold sign_of.
    destruct (Z_of_byte (byte_at eta) <? 128); [exists (h + 1) | exists h]; lia.
Qed.

Lemma fold_left_add_acc (l : list Z) (acc : Z) :
  fold_left Z.add l acc = acc + fold_left Z.add l 0.
Proof.
  revert acc. induction l as [|x l IH]; intros acc; cbn [fold_left]; [lia |].
  rewrite (IH (acc + x)), (IH (0 + x)). lia.
Qed.

Lemma fold_left_signs (l : bytes) :
  fold_left Z.add (map (fun bit => if Z_of_byte bit <? 128 then 1 else -1) l) 0
  = sign_sum (length l) (fun j => nth j l x00).
Proof.
  unfold sign_sum. induction l as [|b l IH]; [reflexivity |].
  cbn [map fold_left length]. rewrite fold_left_add_acc, IH, sumZ_shift.
  reflexivity.
Qed.

Lemma sign_sum_ext (eta : nat) (f g : nat -> byte) :
  (forall j, (j < eta)%nat -> f j = g j) -> sign_sum eta f = sign_sum eta g.
Proof.
  intros H. unfold sign_sum. apply sumZ_ext. intros j Hj. rewrite (H j Hj). reflexivity.
Qed.

(** One coefficient of [sample_noise_poly]: it is made of the next [eta]
    bytes of the pool, which are used up. *)
Lemma noise_coeff_exact (eta : nat) (s : entropy) :
  returnsM (noise_coeff eta) s
           (fun v s' => v = sign_sum eta s /\ forall t, s' t = s (eta + t)%nat).
Proof.
  unfold noise_coeff.
  pose (I := fun (i : nat) (acc : Z) (e : entropy) =>
               acc = sign_sum i s /\ forall t, e t = s (i + t)%nat).
  assert (H : returnsM (forM (range eta)
                          (fun _ acc => b <~ urandom 1 ;; b0 <~ lift (item b 0) ;;
                                        ret (acc + (if Z_of_byte b0 <? 128 then 1 else -1)))
                          0) s (I (length (range eta)))).
  2: { rewrite length_range in H. exact H. }
  apply returnsM_for with (I := I).
  - split; [reflexivity | intros t; reflexivity].
  - intros i x acc e _ [Hacc He]. unfold returnsM, bindM. rewrite urandom_spec.
    cbn. split.
    + rewrite Hacc, (He 0%nat), Nat.add_0_r. reflexivity.
    + intros t. rewrite He. f_equal. lia.
Qed.

(** A comprehension that draws from the pool, with an invariant that
    counts the elements done. *)
Lemma returnsM_mapMM_count {A B} (f : A -> M B) (xs : list A) (P : nat -> B -> Prop)
      (I : nat -> entropy -> Prop) (e : entropy) :
  I 0%nat e ->
  (forall i x e, xs !! i = Some x -> I i e ->
                 returnsM (f x) e (fun y e' => P i y /\ I (S i) e')) ->
  returnsM (mapMM f xs) e
           (fun ys e' => length ys = length xs /\
                         (forall i y, ys !! i = Some y -> P i y) /\ I (length xs) e').
Proof.
  assert (H : forall k e,
             I k e ->
             (forall i x e, xs !! i = Some x -> I (k + i)%nat e ->
                            returnsM (f x) e (fun y e' => P (k + i)%nat y /\ I (S (k + i)) e')) ->
             returnsM (mapMM f xs) e
               (fun ys e' => length ys = length xs /\
                             (forall i y, ys !! i = Some y -> P (k + i)%nat y) /\
                             I (k + length xs)%nat e')).
  { induction xs as [|x xs IH]; intros k e0 Hk Hstep.
    - apply returnsM_ret. split; [reflexivity |]. split; [intros i y Hy; discriminate |].
      rewrite Nat.add_0_r. exact Hk.
    - cbn [mapMM]. eapply returnsM_bind.
      + apply (Hstep 0%nat x e0 eq_refl). rewrite Nat.add_0_r. exact Hk.
      + intros y e1 [Hy He1]. rewrite Nat.add_0_r in Hy, He1.
        eapply returnsM_bind.
        * apply (IH (S k) e1 He1). intros i z e2 Hz He2.
          replace (S k + i)%nat with (k + S i)%nat in * by lia.
          apply (Hstep (S i) z e2 Hz He2).
        * intros ys e2 (Hlen & Hall & He2). apply returnsM_ret.
          split; [cbn; rewrite Hlen; reflexivity |]. split.
          -- intros i z Hz. destruct i as [|i].
             ++ injection Hz as <-. rewrite Nat.add_0_r. exact Hy.
             ++ replace (k + S i)%nat with (S k + i)%nat by lia. apply Hall. exact Hz.
          -- cbn [length]. replace (k + S (length xs))%nat with (S k + length xs)%nat by lia.
             exact He2. }
  intros H0 Hstep. apply (H 0%nat e H0). exact Hstep.
Qed.

(** The coefficients of [sample_noise_poly]: coefficient [i] is made of
    bytes [i * eta] to [i * eta + eta - 1] of the pool. *)
Lemma sample_noise_coeffs (eta n : nat) (s : entropy) :
  returnsM (mapMM (fun _ : nat => noise_coeff eta) (range n)) s
           (fun cs s' =>
              cs = map (fun i => sign_sum eta (fun j => s (i * eta + j)%nat)) (range n) /\
              forall t, s' t = s (n * eta + t)%nat).
Proof.
  eapply returnsM_weaken.
  - apply returnsM_mapMM_count
      with (P := fun i v => v = sign_sum eta (fun j => s (i * eta + j)%nat))
           (I := fun i e => forall t, e t = s (i * eta + t)%nat).
    + intros t. reflexivity.
    + intros i x e _ He. eapply returnsM_weaken; [apply noise_coeff_exact |].
      intros v e' [-> He']. split.
      * apply sign_sum_ext. intros j _. apply He.
      * intros t. rewrite He', He. f_equal. lia.
  - intros cs s' (Hlen & Hall & Hs'). rewrite length_range in Hlen, Hs'.
    split; [| exact Hs'].
    apply (list_eq_below n); [exact Hlen | rewrite length_map; apply length_range |].
    intros i Hi. rewrite lookup_map. unfold range. rewrite lookup_seq_lt by exact Hi.
    destruct (lookup_lt_is_Some_2 cs i) as [v Hv]; [lia |].
    rewrite Hv, (Hall i v Hv). reflexivity.
Qed.

Lemma sample_noise_poly_closed (eta n : nat) (s : entropy) :
  returnsM (sample_noise_poly eta n) s
           (fun p s' =>
              p = Polynomial.new
                    (map (fun i => sign_sum eta (fun j => s (i * eta + j)%nat)) (range n)) /\
              forall t, s' t = s (n * eta + t)%nat).
Proof.
  unfold sample_noise_poly.
  eapply returnsM_bind; [apply sample_noise_coeffs |].
  intros cs s' [-> Hs']. apply returnsM_ret. split; [reflexivity | exact Hs'].
Qed.

Lemma coeff_new_map (f : nat -> Z) (n i : nat) :
  (i < n)%nat -> coeff (Polynomial.new (map f (range n))) i = f i.
Proof.
  intros Hi. unfold coeff, Polynomial.new, Polynomial.__init__. cbn [Polynomial.coeffs].
  assert (Hl : map f (range n) !! i = Some (f i)).
  { rewrite lookup_map. unfold range. rewrite lookup_seq_lt by exact Hi. reflexivity. }
  destruct (map f (range n)) as [|c cs]; [discriminate |].
  apply nth_lookup_Some. exact Hl.
Qed.

Lemma length_new_map (f : nat -> Z) (n : nat) :
  (0 < n)%nat -> length (Polynomial.coeffs (Polynomial.new (map f (range n)))) = n.
Proof.
  intros Hn. unfold Polynomial.new, Polynomial.__init__. cbn [Polynomial.coeffs].
  assert (Hl : length (map f (range n)) = n) by (rewrite length_map; apply length_range).
  destruct (map f (range n)) as [|c cs]; [cbn in Hl; lia | exact Hl].
Qed.

(** X21.  [sample_noise_poly(eta, n)], for [n > 0], returns a polynomial
    with [n] coefficients and uses up exactly [n * eta] bytes of the
    entropy pool: coefficient [i] is made of bytes [i * eta] to
    [i * eta + eta - 1], counting +1 for a byte below 128 and -1 for any
    other, so it is [2 * h - eta] for some [h] between 0 and [eta]. *)
Theorem sample_noise_poly_exact (eta n : nat) (s : entropy) :
  (0 < n)%nat ->
  exists p s',
    sample_noise_poly eta n s = Ok (p, s') /\
    length (Polynomial.coeffs p) = n /\
    (forall i, (i < n)%nat ->
       coeff p i = sign_sum eta (fun j => s (i * eta + j)%nat) /\
       exists h, 0 <= h <= Z.of_nat eta /\ coeff p i = 2 * h - Z.of_nat eta) /\
    (forall t, s' t = s (n * eta + t)%nat).
Proof.
  intros Hn.
  destruct (returnsM_inv _ _ _ (sample_noise_poly_closed eta n s)) as (p & s' & Heq & -> & Hs').
  eexists. exists s'. split; [exact Heq |]. split; [apply length_new_map; exact Hn |].
  split; [| exact Hs'].
  intros i Hi. rewrite coeff_new_map by exact Hi. split; [reflexivity |].
  apply sign_sum_range.
Qed.

Lemma sample_noise_poly_exact_witness :
  exists p s',
    sample_noise_poly 2 256 pool_00_then_ff = Ok (p, s') /\
    length (Polynomial.coeffs p) = 256%nat.
Proof.
  destruct (sample_noise_poly_exact 2 256 pool_00_then_ff ltac:(lia))
    as (p & s' & H1 & H2 & _).
  exists p, s'. split; assumption.
Defined.

(** The same coefficients, read from a byte string. *)
Lemma seed_coeff (stream : bytes) (eta n i : nat) :
  length stream = (n * eta)%nat -> (i < n)%nat ->
  fold_left Z.add
    (map (fun bit => if Z_of_byte bit <? 128 then 1 else -1)
         (slice stream (i * eta) ((i + 1) * eta))) 0
  = sign_sum eta (fun j => nth (i * eta + j) stream x00).
Proof.
  intros Hlen Hi. rewrite fold_left_signs.
  assert (Hsl : length (slice stream (i * eta) ((i + 1) * eta)) = eta).
  { unfold slice. rewrite length_take, length_drop, Hlen. nia. }
  rewrite Hsl. apply sign_sum_ext. intros j Hj.
  unfold slice. replace ((i + 1) * eta - i * eta)%nat with eta by lia.
  rewrite !nth_lookup. rewrite lookup_take_lt by exact Hj. rewrite lookup_drop. reflexivity.
Qed.

Lemma sample_poly_from_seed_closed (seed : bytes) (eta n : nat) :
  sample_poly_from_seed seed eta n
  = Polynomial.new
      (map (fun i => sign_sum eta (fun j => nth (i * eta + j) (prf seed (n * eta)) x00))
           (range n)).
Proof.
  unfold sample_poly_from_seed. cbv zeta. f_equal.
  apply map_ext_in. intros i Hi. apply In_range in Hi.
  apply (seed_coeff _ eta n i); [apply length_shake_128 | exact Hi].
Qed.

(** X22.  [sample_poly_from_seed(seed, eta, n)] is [sample_noise_poly]
    with the bytes of [prf(seed, n * eta)] in the place of the entropy
    pool: on a pool that starts with these bytes, [sample_noise_poly]
    returns the same polynomial.  Its coefficients are therefore of the
    form [2 * h - eta] with [h] between 0 and [eta], and there are [n] of
    them when [n > 0]. *)
Theorem sample_poly_from_seed_is_seeded_noise (seed : bytes) (eta n : nat) (s : entropy) :
  ((forall t, (t < n * eta)%nat -> prf seed (n * eta) !! t = Some (s t)) ->
   exists s', sample_noise_poly eta n s = Ok (sample_poly_from_seed seed eta n, s')) /\
  ((0 < n)%nat -> length (Polynomial.coeffs (sample_poly_from_seed seed eta n)) = n) /\
  (forall i, (i < n)%nat ->
     exists h, 0 <= h <= Z.of_nat eta /\
               coeff (sample_poly_from_seed seed eta n) i = 2 * h - Z.of_nat eta).
Proof.
  rewrite sample_poly_from_seed_closed. split; [| split].
  - intros Hs.
    destruct (returnsM_inv _ _ _ (sample_noise_poly_closed eta n s))
      as (p & s' & Heq & -> & _).
    exists s'. rewrite Heq. do 3 f_equal.
    apply map_ext_in. intros i Hi. apply In_range in Hi.
    apply sign_sum_ext. intros j Hj.
    symmetry. apply nth_lookup_Some. apply Hs. nia.
  - intros Hn. apply length_new_map. exact Hn.
  - intros i Hi. rewrite coeff_new_map by exact Hi. apply sign_sum_range.
Qed.

Lemma sample_poly_from_seed_is_seeded_noise_witness :
  let s := fun t => nth t (prf [x2a] (256 * 3)) x00 in
  exists s', sample_noise_poly 3 256 s = Ok (sample_poly_from_seed [x2a] 3 256, s').
Proof.
  intros s.
  apply (proj1 (sample_poly_from_seed_is_seeded_noise [x2a] 3 256 s)).
  intros t Ht. subst s. cbv beta.
  destruct (lookup_lt_is_Some_2 (prf [x2a] (256 * 3)) t) as [b Hb].
  - unfold prf. rewrite length_shake_128. exact Ht.
  - rewrite Hb. f_equal. symmetry. apply nth_lookup_Some. exact Hb.
Defined.

(** * Encryption: lengths and entropy *)

Lemma mapM_ext_In {A B} (f g : A -> result B) (xs : list A) :
  (forall x, In x xs -> f x = g x) -> mapM f xs = mapM g xs.
Proof.
  intros H. induction xs as [|x xs IH]; [reflexivity |].
  cbn [mapM]. rewrite (H x (or_introl eq_refl)), IH; [reflexivity |].
  intros y Hy. apply H. right. exact Hy.
Qed.

(** A sum of two polynomials of one ring has as many coefficients as the
    shorter operand: the lists are zipped. *)
Lemma add_zipped (a b : Polynomial.t) :
  Polynomial.n a = 256%nat -> Polynomial.q a = 3329 ->
  Polynomial.n b = 256%nat -> Polynomial.q b = 3329 ->
  (0 < length (Polynomial.coeffs a))%nat -> (0 < length (Polynomial.coeffs b))%nat ->
  returns (Polynomial.__add__ a b)
          (fun c => Polynomial.n c = 256%nat /\ Polynomial.q c = 3329 /\
                    length (Polynomial.coeffs c)
                    = Nat.min (length (Polynomial.coeffs a)) (length (Polynomial.coeffs b))).
Proof.
  intros Hna Hqa Hnb Hqb Hla Hlb. unfold Polynomial.__add__, Polynomial.same_ring.
  rewrite Hna, Hnb, Hqa, Hqb.
  change (negb ((256 =? 256)%nat && (3329 =? 3329))) with false. cbv iota.
  rewrite (mapM_map _ (fun ab => (fst ab + snd ab) mod 3329))
    by (intros ab; apply py_mod_Ok; exact q_nonzero).
  rewrite bind_Ok. cbn [returns].
  assert (Hl : length (map (fun ab : Z * Z => (fst ab + snd ab) mod 3329)
                           (zip (Polynomial.coeffs a) (Polynomial.coeffs b)))
               = Nat.min (length (Polynomial.coeffs a)) (length (Polynomial.coeffs b))).
  { rewrite length_map. apply length_zip_with. }
  unfold Polynomial.__init__. cbn [Polynomial.n Polynomial.q Polynomial.coeffs].
  split; [reflexivity |]. split; [reflexivity |].
  destruct (map _ (zip _ _)) as [|c cs]; [cbn in Hl; lia | exact Hl].
Qed.

Lemma decode_message_take (m : bytes) :
  decode_message m 256 = decode_message (take 32 m) 256.
Proof.
  rewrite !decode_message_unfold.
  change 256%nat with (8 * 32)%nat.
  rewrite !(take_flat_map_Forall byte_bits 8 _ 32) by apply byte_bits_width.
  rewrite take_take, Nat.min_id. reflexivity.
Qed.

Lemma decode_message_empty : decode_message [] 256 = decode_message (repeat x00 32) 256.
Proof. reflexivity. Qed.

(** The polynomial of a message of 1 to 31 bytes has 8 coefficients per
    byte. *)
Lemma decode_message_short (m : bytes) :
  (0 < length m <= 32)%nat ->
  Polynomial.n (decode_message m 256) = 256%nat /\
  Polynomial.q (decode_message m 256) = 3329 /\
  length (Polynomial.coeffs (decode_message m 256)) = (8 * length m)%nat.
Proof.
  intros Hm. rewrite decode_message_unfold.
  assert (Hl : length (flat_map byte_bits m) = (8 * length m)%nat)
    by apply (length_flat_map_Forall byte_bits 8 m (byte_bits_width m)).
  rewrite take_ge by lia.
  unfold Polynomial.new, Polynomial.__init__.
  cbn [Polynomial.n Polynomial.q Polynomial.coeffs].
  split; [reflexivity |]. split; [reflexivity |].
  destruct (flat_map byte_bits m) as [|c cs]; [cbn in Hl; lia | exact Hl].
Qed.

Lemma read_coeff_app d q (c extra : bytes) pos :
  (pos + width d <= length c)%nat ->
  read_coeff d q (c ++ extra) pos = read_coeff d q c pos.
Proof.
  intros Hpos. rewrite (read_coeff_slice d q (c ++ extra)), (read_coeff_slice d q c).
  f_equal. unfold slice. rewrite drop_app_le by lia.
  rewrite take_app_le; [reflexivity |]. rewrite length_drop. lia.
Qed.

Lemma bytes_eqb_length (a b : bytes) : length a <> length b -> bytes_eqb a b = false.
Proof.
  intros H. unfold bytes_eqb.
  destruct (Nat.eqb_spec (length a) (length b)); [contradiction | reflexivity].
Qed.

Lemma sample_noise_poly_draws eta s :
  returnsM (sample_noise_poly eta 256) s
           (fun p s' => wf 256 3329 p /\ forall t, s' t = s (256 * eta + t)%nat).
Proof.
  eapply returnsM_weaken; [apply sample_noise_poly_closed |].
  intros p s' [-> Hs']. split; [| exact Hs'].
  apply new_wf. rewrite length_map. apply length_range.
Qed.

Lemma sample_noise_list_draws eta kk s :
  returnsM (mapMM (fun _ : nat => sample_noise_poly eta 256) (range kk)) s
           (fun ps s' => polys_ok kk ps /\ forall t, s' t = s (kk * (256 * eta) + t)%nat).
Proof.
  eapply returnsM_weaken.
  - apply returnsM_mapMM_count
      with (P := fun (_ : nat) p => wf 256 3329 p)
           (I := fun i e => forall t, e t = s (i * (256 * eta) + t)%nat).
    + intros t. reflexivity.
    + intros i x e _ He. eapply returnsM_weaken; [apply sample_noise_poly_draws |].
      intros p e' [Hp He']. split; [exact Hp |].
      intros t. rewrite He', He. f_equal. lia.
  - intros ps s' (Hlen & Hall & Hs'). rewrite length_range in Hlen, Hs'.
    split; [| exact Hs']. split; [exact Hlen |].
    apply Forall_lookup_2. intros i p Hp. apply (Hall i p Hp).
Qed.

Section ParameterSetDraws.

Variable params : KyberParams.
Hypothesis Hn : n params = 256%nat.
Hypothesis Hq : q params = 3329.
Hypothesis Hk : (0 < k params)%nat.
Hypothesis Hk' : (k params <= 256)%nat.
Hypothesis Hdu : (0 < du params)%nat.
Hypothesis Hdv : (0 < dv params)%nat.

(** The sampling steps of [encrypt], with what they leave in the pool. *)
Lemma encrypt_draws pk m r s (Q : bytes -> Prop) :
  (forall A e1 e2,
      matrix_ok (k params) A -> polys_ok (k params) e1 -> wf 256 3329 e2 ->
      returns (encrypt_uv params A (fst (decode_pk pk params))
                 (sample_poly_from_seed r (eta1 params) 256) e1 e2 m) Q) ->
  returnsM (encrypt pk m r params) s
           (fun c s' => Q c /\ forall t, s' t = s (noise_bytes params + t)%nat).
Proof.
  intros HQ. unfold encrypt.
  assert (HAok : returns (generate_matrix_A (snd (decode_pk pk params)) params)
                         (matrix_ok (k params)))
    by (apply generate_matrix_A_ok; assumption).
  destruct (returns_inv _ _ HAok) as (A & HAeq & HA).
  eapply returnsM_bind with (P := fun A' s' => A' = A /\ s' = s).
  { unfold returnsM, lift. rewrite HAeq. split; reflexivity. }
  intros A' s1 [-> ->]. rewrite Hn.
  eapply returnsM_bind; [apply (sample_noise_list_draws (eta1 params) (k params) s) |].
  intros e1 s2 (He1 & Hs2).
  eapply returnsM_bind; [apply (sample_noise_poly_draws (eta2 params) s2) |].
  intros e2 s3 (He2 & Hs3).
  eapply returnsM_lift; [apply (HQ A e1 e2 HA He1 He2) |].
  intros c Hc. split; [exact Hc |].
  intros t. rewrite Hs3, Hs2. unfold noise_bytes. f_equal. lia.
Qed.

Lemma encrypt_32_draws pk m r s :
  length m = 32%nat ->
  returnsM (encrypt pk m r params) s
           (fun c s' => length c = ciphertext_len params /\
                        forall t, s' t = s (noise_bytes params + t)%nat).
Proof.
  intros Hm. apply encrypt_draws. intros A e1 e2 HA He1 He2.
  apply encrypt_uv_ok; try assumption;
    [apply decode_pk_ok; assumption | apply sample_poly_from_seed_wf].
Qed.

(** [encrypt] on a message of 1 to 31 bytes: [v] is cut down to the
    coefficients of the message. *)
Lemma encrypt_uv_short A t r_poly e1 e2 m :
  matrix_ok (k params) A -> polys_ok (k params) t -> wf 256 3329 r_poly ->
  polys_ok (k params) e1 -> wf 256 3329 e2 -> (0 < length m < 32)%nat ->
  returns (encrypt_uv params A t r_poly e1 e2 m)
          (fun c => length c = (width (du params) * (k params * 256)
                                + width (dv params) * (8 * length m))%nat).
Proof.
  intros HA Ht Hr He1 He2 Hm. unfold encrypt_uv.
  eapply returns_bind; [apply encrypt_u_ok; assumption |].
  intros u [Hul Hu]. cbv zeta.
  eapply returns_bind;
    [apply (encrypt_v_ok (k params) t r_poly _ Ht Hr); apply zero_poly_wf; assumption |].
  intros v (Hvl & Hvn & Hvq). rewrite Hn.
  destruct (decode_message_short m ltac:(lia)) as (Hmn & Hmq & Hml).
  destruct He2 as (Hel & Hen & Heq).
  eapply returns_bind;
    [apply (add_zipped e2 (decode_message m 256) Hen Heq Hmn Hmq); lia |].
  intros em (Hemn & Hemq & Heml). rewrite Hel, Hml in Heml.
  eapply returns_bind; [apply (add_zipped v em Hvn Hvq Hemn Hemq); lia |].
  intros v' (_ & _ & Hv'l). rewrite Hvl, Heml in Hv'l.
  rewrite compress_ciphertext_closed by assumption. cbn [returns].
  rewrite length_app, length_poly_bytes, Hv'l.
  unfold poly_bytes. rewrite flat_map_flat_map.
  rewrite (length_flat_map_Forall _ (width (du params)))
    by (apply List.Forall_forall; intros x _; apply length_compressed_bytes).
  rewrite (length_all_coeffs u Hu), Hul. lia.
Qed.

Lemma decompress_ciphertext_app c extra :
  (ciphertext_len params <= length c)%nat ->
  decompress_ciphertext (c ++ extra) params = decompress_ciphertext c params.
Proof.
  intros Hlen. unfold decompress_ciphertext, ciphertext_len in *.
  rewrite Hn in Hlen |- *.
  pose proof (width_pos (du params)) as Hwu. pose proof (width_pos (dv params)) as Hwv.
  assert (Hu : mapM (fun a =>
                       coeffs <- mapM (fun b => read_coeff (du params) (q params) (c ++ extra)
                                                  (width (du params) * (a * 256 + b)))
                                      (range 256) ;;
                       Ok (Polynomial.new coeffs))
                    (range (k params))
               = mapM (fun a =>
                         coeffs <- mapM (fun b => read_coeff (du params) (q params) c
                                                    (width (du params) * (a * 256 + b)))
                                        (range 256) ;;
                         Ok (Polynomial.new coeffs))
                      (range (k params))).
  { apply mapM_ext_In. intros a Ha. apply In_range in Ha.
    rewrite (mapM_ext_In _ (fun b => read_coeff (du params) (q params) c
                                       (width (du params) * (a * 256 + b))) (range 256));
      [reflexivity |].
    intros b Hb. apply In_range in Hb. apply read_coeff_app. nia. }
  rewrite Hu. cbv zeta.
  rewrite (mapM_ext_In _ (fun b => read_coeff (dv params) (q params) c
                                     (width (du params) * (k params * 256)
                                      + width (dv params) * b)) (range 256));
    [reflexivity |].
  intros b Hb. apply In_range in Hb. apply read_coeff_app. nia.
Qed.

End ParameterSetDraws.

(** * The layers above, on the three parameter sets *)

Lemma valid_params_widths params :
  valid_params params ->
  width (du params) = 2%nat /\ width (dv params) = 1%nat /\
  ciphertext_len params = (512 * k params + 256)%nat.
Proof. intros [-> | [-> | ->]]; repeat split. Qed.

(** X23.  [encrypt] never checks the length of the message.  Bytes after
    the 32nd are ignored; the empty message is encrypted as 32 zero
    bytes; and for a message of 1 to 31 bytes the polynomial [v] is cut
    down to 8 coefficients per byte, so that the ciphertext has only
    [512 * k + 8 * len(m)] bytes, which [decrypt] cannot read: it raises
    [IndexError] for every secret key. *)
Theorem encrypt_message_length params pk m r s :
  valid_params params ->
  encrypt pk m r params s = encrypt pk (take 32 m) r params s /\
  (m = [] -> encrypt pk m r params s = encrypt pk (repeat x00 32) r params s) /\
  ((0 < length m < 32)%nat ->
   exists c s', encrypt pk m r params s = Ok (c, s') /\
                length c = (512 * k params + 8 * length m)%nat /\
                forall sk, decrypt sk c params = Raise IndexError).
Proof.
  intros Hv. unpack_params Hv.
  destruct (valid_params_widths params Hv) as (Hwu & Hwv & Hcl).
  split; [| split].
  - unfold encrypt, encrypt_uv. rewrite Hn, (decode_message_take m). reflexivity.
  - intros ->. unfold encrypt, encrypt_uv. rewrite Hn, decode_message_empty. reflexivity.
  - intros Hm.
    assert (H : returnsM (encrypt pk m r params) s
                  (fun c s' => length c = (width (du params) * (k params * 256)
                                           + width (dv params) * (8 * length m))%nat /\
                               forall t, s' t = s (noise_bytes params + t)%nat)).
    { apply encrypt_draws; try assumption. intros A e1 e2 HA He1 He2.
      apply encrypt_uv_short; try assumption;
        [apply decode_pk_ok; assumption | apply sample_poly_from_seed_wf]. }
    apply returnsM_inv in H as (c & s' & Heq & Hlen & _).
    rewrite Hwu, Hwv in Hlen.
    exists c, s'. split; [exact Heq |]. split; [lia |].
    intros sk. apply decrypt_short; try assumption. rewrite Hcl. lia.
Qed.

Lemma encrypt_message_length_witness :
  exists c s', encrypt [] [x01; x02; x03] [] KYBER512 pool_00 = Ok (c, s') /\
               length c = (512 * 2 + 8 * 3)%nat /\
               forall sk, decrypt sk c KYBER512 = Raise IndexError.
Proof.
  apply (proj2 (proj2 (encrypt_message_length KYBER512 [] [x01; x02; x03] [] pool_00
                         (or_introl eq_refl)))).
  cbn. lia.
Defined.

(** X24.  [decrypt] reads the first [512 * k + 256] bytes of what it is
    given as a ciphertext and nothing else: bytes that follow a ciphertext
    do not change the result. *)
Theorem decrypt_ignores_trailing_bytes params sk c extra :
  valid_params params -> (512 * k params + 256 <= length c)%nat ->
  decrypt sk (c ++ extra) params = decrypt sk c params.
Proof.
  intros Hv Hlen. unpack_params Hv.
  destruct (valid_params_widths params Hv) as (_ & _ & Hcl).
  unfold decrypt. rewrite decompress_ciphertext_app; [reflexivity | assumption.. | lia].
Qed.

Lemma decrypt_ignores_trailing_bytes_witness :
  decrypt [] (repeat x00 1280 ++ [xff; xff]) KYBER512 = decrypt [] (repeat x00 1280) KYBER512.
Proof.
  apply (decrypt_ignores_trailing_bytes KYBER512 [] (repeat x00 1280) [xff; xff]).
  - left. reflexivity.
  - rewrite repeat_length. cbn. lia.
Defined.

(** X25.  [encapsulate] accepts every byte string as a public key and
    every content of the entropy pool: it returns a ciphertext of
    [512 * k + 256] bytes (1280, 1792 and 2304 for the three parameter
    sets) and a secret of 32 bytes, and it uses up exactly
    [32 + 256 * (k * eta1 + eta2)] bytes of the pool: 32 for the message
    and the rest for the noise of [encrypt]. *)
Theorem encapsulate_total params pk s :
  valid_params params ->
  exists c K s',
    KyberKEM.encapsulate params pk s = Ok ((c, K), s') /\
    length c = (512 * k params + 256)%nat /\ length K = 32%nat /\
    forall t, s' t = s (32 + 256 * (k params * eta1 params + eta2 params) + t)%nat.
Proof.
  intros Hv. unpack_params Hv.
  destruct (valid_params_widths params Hv) as (_ & _ & Hcl).
  assert (H : returnsM (KyberKEM.encapsulate params pk) s
                (fun cK s' => length (fst cK) = ciphertext_len params /\
                              length (snd cK) = 32%nat /\
                              forall t, s' t = s (32 + noise_bytes params + t)%nat)).
  { unfold KyberKEM.encapsulate.
    eapply returnsM_bind with (P := fun m s1 => length m = 32%nat /\
                                               forall t, s1 t = s (32 + t)%nat).
    { unfold returnsM. rewrite urandom_spec. split; [| intros t; reflexivity].
      rewrite length_map. apply length_seq. }
    intros m s1 [Hm Hs1].
    eapply returnsM_bind; [apply encrypt_32_draws; assumption |].
    intros c s2 [Hc Hs2]. apply returnsM_ret. cbn [fst snd].
    split; [exact Hc |]. split; [apply length_kdf |].
    intros t. rewrite Hs2, Hs1. f_equal; lia. }
  apply returnsM_inv in H as ([c K] & s' & Heq & Hc & HK & Hs'). cbn [fst snd] in *.
  exists c, K, s'. split; [exact Heq |]. split; [lia |]. split; [exact HK |].
  intros t. rewrite Hs'. unfold noise_bytes. reflexivity.
Qed.

Lemma encapsulate_total_witness :
  exists c K s',
    KyberKEM.encapsulate Kyber512 [] pool_00 = Ok ((c, K), s') /\
    length c = 1280%nat /\ length K = 32%nat.
Proof.
  destruct (encapsulate_total Kyber512 [] pool_00 (or_introl eq_refl))
    as (c & K & s' & H1 & H2 & H3 & _).
  exists c, K, s'. split; [exact H1 |]. split; [exact H2 | exact H3].
Defined.

Lemma decapsulate_draws params c sk s :
  n params = 256%nat -> q params = 3329 -> (0 < k params)%nat -> (k params <= 256)%nat ->
  (0 < du params)%nat -> (0 < dv params)%nat ->
  (ciphertext_len params <= length c)%nat ->
  returnsM (KyberKEM.decapsulate params c sk) s
           (fun K s' =>
              length K = 32%nat /\
              (length c <> ciphertext_len params ->
               K = kdf (drop (k params * 32 * 2 + 32) sk ++ hash_h c)) /\
              forall t, s' t = s (noise_bytes params + t)%nat).
Proof.
  intros Hn Hq Hk Hk' Hdu Hdv Hlen. unfold KyberKEM.decapsulate.
  eapply returnsM_bind.
  { eapply returnsM_lift with (Q := fun m s1 => length m = 32%nat /\ s1 = s);
      [apply decrypt_ok; eassumption |].
    intros m Hm. split; [exact Hm | reflexivity]. }
  intros m s1 [Hm ->].
  eapply returnsM_bind; [apply encrypt_32_draws; assumption |].
  intros c' s2 [Hc' Hs2].
  destruct (bytes_eqb c c') eqn:Heqb; apply returnsM_ret.
  - split; [apply length_kdf |]. split; [| exact Hs2].
    intros Hne. rewrite bytes_eqb_length in Heqb by congruence. discriminate.
  - split; [apply length_kdf |]. split; [| exact Hs2]. intros _. reflexivity.
Qed.

(** X26.  Decapsulation is randomised: re-encrypting the decrypted
    message draws fresh noise, so that for every ciphertext that is long
    enough [decapsulate] uses up [256 * (k * eta1 + eta2)] bytes of the
    entropy pool. *)
Theorem decapsulate_draws_entropy params c sk s :
  valid_params params -> (512 * k params + 256 <= length c)%nat ->
  exists K s',
    KyberKEM.decapsulate params c sk s = Ok (K, s') /\
    forall t, s' t = s (256 * (k params * eta1 params + eta2 params) + t)%nat.
Proof.
  intros Hv Hlen. unpack_params Hv.
  destruct (valid_params_widths params Hv) as (_ & _ & Hcl).
  destruct (returnsM_inv _ _ _
              (decapsulate_draws params c sk s Hn Hq Hk Hk' Hdu Hdv ltac:(lia)))
    as (K & s' & Heq & _ & _ & Hs').
  exists K, s'. split; [exact Heq | exact Hs'].
Qed.

Lemma decapsulate_draws_entropy_witness :
  exists K s',
    KyberKEM.decapsulate KYBER512 (repeat x00 1280) [] pool_00_then_ff = Ok (K, s') /\
    forall t, s' t = pool_00_then_ff (256 * (2 * 3 + 2) + t)%nat.
Proof.
  apply (decapsulate_draws_entropy KYBER512 (repeat x00 1280) [] pool_00_then_ff).
  - left. reflexivity.
  - rewrite repeat_length. cbn. lia.
Defined.

(** X27.  A byte string longer than a ciphertext is rejected implicitly:
    the re-encryption has [512 * k + 256] bytes and cannot be equal to it,
    so [decapsulate] returns [kdf(z + hash_h(c))], where [z] is what
    follows the first [64 * k + 32] bytes of the secret key. *)
Theorem decapsulate_overlong_is_rejected params c sk s :
  valid_params params -> (512 * k params + 256 < length c)%nat ->
  exists s',
    KyberKEM.decapsulate params c sk s
    = Ok (kdf (drop (64 * k params + 32) sk ++ hash_h c), s').
Proof.
  intros Hv Hlen. unpack_params Hv.
  destruct (valid_params_widths params Hv) as (_ & _ & Hcl).
  destruct (returnsM_inv _ _ _
              (decapsulate_draws params c sk s Hn Hq Hk Hk' Hdu Hdv ltac:(lia)))
    as (K & s' & Heq & _ & HK & _).
  exists s'. rewrite Heq, HK by lia.
  replace (k params * 32 * 2 + 32)%nat with (64 * k params + 32)%nat by lia. reflexivity.
Qed.

Lemma decapsulate_overlong_is_rejected_witness :
  exists s',
    KyberKEM.decapsulate KYBER512 (repeat x00 1281) (repeat xff 200) pool_00
    = Ok (kdf (drop (64 * 2 + 32) (repeat xff 200) ++ hash_h (repeat x00 1281)), s').
Proof.
  apply (decapsulate_overlong_is_rejected KYBER512 (repeat x00 1281) (repeat xff 200) pool_00).
  - left. reflexivity.
  - rewrite repeat_length. cbn. lia.
Defined.

(** * What the ciphertext depends on *)

Lemma noise_poly_ext (eta : nat) (s1 s2 : entropy) (start1 start2 : nat) :
  (forall t, (t < 256 * eta)%nat -> s1 (start1 + t)%nat = s2 (start2 + t)%nat) ->
  noise_poly eta s1 start1 = noise_poly eta s2 start2.
Proof.
  intros H. unfold noise_poly. f_equal. apply map_ext_in. intros c Hc.
  apply In_range in Hc. apply sign_sum_ext. intros j Hj.
  rewrite <- !Nat.add_assoc. apply H. nia.
Qed.

Lemma sample_noise_poly_value (eta : nat) (s : entropy) :
  returnsM (sample_noise_poly eta 256) s
           (fun p s' => p = noise_poly eta s 0 /\ forall t, s' t = s (256 * eta + t)%nat).
Proof.
  eapply returnsM_weaken; [apply sample_noise_poly_closed |].
  intros p s' [-> Hs']. split; [| exact Hs'].
  unfold noise_poly. f_equal.
Qed.

Lemma sample_noise_list_value (eta kk : nat) (s : entropy) :
  returnsM (mapMM (fun _ : nat => sample_noise_poly eta 256) (range kk)) s
           (fun ps s' =>
              ps = map (fun i => noise_poly eta s (i * (256 * eta))) (range kk) /\
              forall t, s' t = s (kk * (256 * eta) + t)%nat).
Proof.
  eapply returnsM_weaken.
  - apply returnsM_mapMM_count
      with (P := fun i p => p = noise_poly eta s (i * (256 * eta)))
           (I := fun i e => forall t, e t = s (i * (256 * eta) + t)%nat).
    + intros t. reflexivity.
    + intros i x e _ He. eapply returnsM_weaken; [apply sample_noise_poly_value |].
      intros p e' [-> He']. split.
      * apply noise_poly_ext. intros t _. rewrite He. f_equal.
      * intros t. rewrite He', He. f_equal. lia.
  - intros ps s' (Hlen & Hall & Hs'). rewrite length_range in Hlen, Hs'.
    split; [| exact Hs']. symmetry.
    apply polys_eq_below; [exact Hlen |]. intros a p Hp. symmetry. apply (Hall a p Hp).
Qed.

(** [encrypt] is the rest of its body at the noise read off the pool. *)
Lemma encrypt_value params pk m r s (A : list (list Polynomial.t)) :
  n params = 256%nat ->
  generate_matrix_A (snd (decode_pk pk params)) params = Ok A ->
  exists s',
    encrypt pk m r params s
    = lift (encrypt_uv params A (fst (decode_pk pk params))
              (sample_poly_from_seed r (eta1 params) 256)
              (noise_e1 params s) (noise_e2 params s) m) s'.
Proof.
  intros Hn HA. unfold encrypt. rewrite HA, Hn. unfold bindM at 1. unfold lift at 1.
  destruct (returnsM_inv _ _ _ (sample_noise_list_value (eta1 params) (k params) s))
    as (e1 & s1 & He1 & -> & Hs1).
  unfold bindM at 1. rewrite He1.
  destruct (returnsM_inv _ _ _ (sample_noise_poly_value (eta2 params) s1))
    as (e2 & s2 & He2 & -> & Hs2).
  unfold bindM at 1. rewrite He2.
  exists s2. unfold noise_e1, noise_e2. do 2 f_equal.
  apply noise_poly_ext. intros t _. rewrite Hs1. f_equal.
Qed.

Lemma noise_prefix params (s1 s2 : entropy) :
  (forall t, (t < noise_bytes params)%nat -> s1 t = s2 t) ->
  noise_e1 params s1 = noise_e1 params s2 /\ noise_e2 params s1 = noise_e2 params s2.
Proof.
  intros H. unfold noise_bytes in H. split.
  - unfold noise_e1. apply map_ext_in. intros i Hi. apply In_range in Hi.
    apply noise_poly_ext. intros t Ht. apply H. nia.
  - unfold noise_e2. apply noise_poly_ext. intros t Ht. apply H. nia.
Qed.

(** X28.  What [encapsulate] returns is a function of the public key
    and of the first [32 + 256 * (k * eta1 + eta2)] bytes of the entropy
    pool, the bytes it uses up: on two pools that agree on these bytes it
    returns the same ciphertext and the same secret. *)
Theorem encapsulate_depends_on_pool_prefix params pk (s1 s2 : entropy) :
  valid_params params ->
  (forall t, (t < 32 + 256 * (k params * eta1 params + eta2 params))%nat -> s1 t = s2 t) ->
  exists c K s1' s2',
    KyberKEM.encapsulate params pk s1 = Ok ((c, K), s1') /\
    KyberKEM.encapsulate params pk s2 = Ok ((c, K), s2').
Proof.
  intros Hv Hs. unpack_params Hv.
  assert (Hm : map s1 (seq 0 32) = map s2 (seq 0 32)).
  { apply map_ext_in. intros t Ht. apply in_seq in Ht. apply Hs. lia. }
  assert (HAok : forall rho, returns (generate_matrix_A rho params) (matrix_ok (k params)))
    by (intros rho; apply generate_matrix_A_ok; assumption).
  set (m := map s1 (seq 0 32)) in *.
  set (r := drop 32 (hash_g (m ++ hash_h pk))).
  destruct (returns_inv _ _ (HAok (snd (decode_pk pk params)))) as (A & HA & HAm).
  destruct (encrypt_value params pk m r (fun i => s1 (32 + i)%nat) A Hn HA) as (s1' & H1).
  destruct (encrypt_value params pk m r (fun i => s2 (32 + i)%nat) A Hn HA) as (s2' & H2).
  destruct (noise_prefix params (fun i => s1 (32 + i)%nat) (fun i => s2 (32 + i)%nat))
    as [He1 He2].
  { intros t Ht. apply Hs. unfold noise_bytes in Ht. lia. }
  rewrite <- He1, <- He2 in H2.
  assert (Hret : returns (encrypt_uv params A (fst (decode_pk pk params))
                            (sample_poly_from_seed r (eta1 params) 256)
                            (noise_e1 params (fun i => s1 (32 + i)%nat))
                            (noise_e2 params (fun i => s1 (32 + i)%nat)) m)
                         (fun _ => True)).
  { assert (Hok : returnsM (encrypt pk m r params) (fun i => s1 (32 + i)%nat)
                    (fun c _ => length c = ciphertext_len params)).
    { apply encrypt_ok; try assumption. unfold m. rewrite length_map. apply length_seq. }
    unfold returnsM in Hok. rewrite H1 in Hok. unfold lift in Hok.
    destruct (encrypt_uv _ _ _ _ _ _ _); [exact I | exact Hok]. }
  apply returns_inv in Hret as (c & Hc & _).
  rewrite Hc in H1, H2. unfold lift in H1, H2.
  exists c, (kdf (take 32 (hash_g (m ++ hash_h pk)) ++ hash_h c)), s1', s2'.
  unfold KyberKEM.encapsulate, bindM. rewrite !urandom_spec. fold m. rewrite <- Hm.
  fold r. rewrite H1, H2. split; reflexivity.
Qed.

Lemma encapsulate_depends_on_pool_prefix_witness :
  exists c K s1' s2',
    KyberKEM.encapsulate KYBER512 [] pool_00 = Ok ((c, K), s1') /\
    KyberKEM.encapsulate KYBER512 []
      (fun t => if (t <? 2080)%nat then x00 else xff) = Ok ((c, K), s2').
Proof.
  apply (encapsulate_depends_on_pool_prefix KYBER512 [] pool_00
           (fun t => if (t <? 2080)%nat then x00 else xff)).
  - left. reflexivity.
  - intros t Ht. change (32 + 256 * (k KYBER512 * eta1 KYBER512 + eta2 KYBER512))%nat
      with 2080%nat in Ht.
    destruct (Nat.ltb_spec t 2080); [reflexivity | lia].
Defined.

(** * The layout of the secret key *)

(** X29.  [decapsulate] takes the secret polynomials, the public key and
    the hash from the first [64 * k + 32] bytes of the secret key, and [z]
    is everything after them: for a secret key that starts with at least
    that many bytes, what follows them has no part in the decryption and in
    the re-encryption, and shows in the result only as the end of [z], when
    the ciphertext is rejected. *)
Theorem decapsulate_key_offsets params c sk s :
  valid_params params -> (512 * k params + 256 <= length c)%nat ->
  (64 * k params + 32 <= length sk)%nat ->
  exists (accept : bool) (K' : bytes) (s' : entropy),
    forall tail,
      KyberKEM.decapsulate params c (sk ++ tail) s
      = Ok (if accept then kdf (K' ++ hash_h c)
            else kdf (drop (64 * k params + 32) sk ++ tail ++ hash_h c), s').
Proof.
  intros Hv Hc Hsk. unpack_params Hv.
  destruct (valid_params_widths params Hv) as (_ & _ & Hcl).
  assert (Hm : returns (decrypt (take (k params * 32) sk) c params)
                       (fun m => length m = 32%nat))
    by (apply decrypt_ok; try assumption; lia).
  apply returns_inv in Hm as (m & Hm & Hml).
  set (h := slice sk (k params * 32 * 2) (k params * 32 * 2 + 32)).
  set (K_r := hash_g (m ++ h)).
  assert (He : returnsM (encrypt (slice sk (k params * 32) (k params * 32 * 2)) m
                           (drop 32 K_r) params) s
                        (fun c' _ => length c' = ciphertext_len params))
    by (apply encrypt_ok; assumption).
  apply returnsM_inv in He as (c' & s' & He & _).
  exists (bytes_eqb c c'), (take 32 K_r), s'. intros tail.
  unfold KyberKEM.decapsulate. cbv zeta.
  assert (H1 : take (k params * 32) (sk ++ tail) = take (k params * 32) sk)
    by (apply take_app_le; lia).
  assert (H2 : slice (sk ++ tail) (k params * 32) (k params * 32 * 2)
               = slice sk (k params * 32) (k params * 32 * 2)).
  { unfold slice. rewrite drop_app_le by lia. apply take_app_le. rewrite length_drop. lia. }
  assert (H3 : slice (sk ++ tail) (k params * 32 * 2) (k params * 32 * 2 + 32) = h).
  { unfold h, slice. rewrite drop_app_le by lia. apply take_app_le. rewrite length_drop. lia. }
  assert (H4 : drop (k params * 32 * 2 + 32) (sk ++ tail)
               = drop (64 * k params + 32) sk ++ tail).
  { replace (k params * 32 * 2 + 32)%nat with (64 * k params + 32)%nat by lia.
    apply drop_app_le. exact Hsk. }
  rewrite H1, H2, H3, H4. unfold bindM at 1. unfold lift. rewrite Hm.
  fold K_r. unfold bindM. rewrite He.
  destruct (bytes_eqb c c'); unfold ret; [reflexivity |].
  rewrite <- app_assoc. reflexivity.
Qed.

Lemma decapsulate_key_offsets_witness :
  exists (accept : bool) (K' : bytes) (s' : entropy),
    forall tail,
      KyberKEM.decapsulate KYBER512 (repeat x00 1280) (repeat x11 160 ++ tail) pool_00
      = Ok (if accept then kdf (K' ++ hash_h (repeat x00 1280))
            else kdf (drop (64 * 2 + 32) (repeat x11 160) ++ tail
                      ++ hash_h (repeat x00 1280)), s').
Proof.
  apply (decapsulate_key_offsets KYBER512 (repeat x00 1280) (repeat x11 160) pool_00).
  - left. reflexivity.
  - rewrite repeat_length. cbn. lia.
  - rewrite repeat_length. cbn. lia.
Defined.

